(** * TextLexer: scanner and parser of the teaching language

    A shallow embedding of the two programs of the repository:

    - the scanner with position tracking and bitwise operators
      (class [Lexer], the most complete lexer draft), in [Module Lex];
    - the brace-based parser with [for], floats and postfix [++]/[--]
      (class [Parser], the most complete parser draft), in [Module Parse];
    - the file [lex_out.txt] between the two, as the scanner writes it and
      as [readTokens] reads it, in [Module TokenFile].

    [exit(1)] in [Parser::error] is modelled by the result [Fatal];
    recursion that the C++ code leaves unbounded takes a bound, and running
    out of it is the separate result [OutOfFuel]. *)

From Stdlib Require Import String Ascii List ZArith Lia Bool Arith DecimalString.
Import ListNotations.
Open Scope string_scope.
Open Scope nat_scope.

(** ** Tables shared by both programs: [unordered_map<string, T>] *)

Section Table.
Context {T : Type}.

(** [m.find(k)], as an option instead of an iterator. *)
Fixpoint find (m : list (string * T)) (k : string) : option T :=
  match m with
  | [] => None
  | (k', v) :: m' => if String.eqb k' k then Some v else find m' k
  end.

(** [m.count(k)] on a map: 0 or 1. *)
Definition count (m : list (string * T)) (k : string) : bool :=
  match find m k with Some _ => true | None => false end.
End Table.

(** [std::to_string(int)] *)
Definition to_string (z : Z) : string := NilZero.string_of_int (Z.to_int z).

(** [string(1, ch)] *)
Definition string1 (c : ascii) : string := String c EmptyString.

(** * The scanner *)

Module Lex.

Inductive TokenType :=
| TOKEN_ID | TOKEN_NUM | TOKEN_FLOAT | TOKEN_BOOL | TOKEN_KEYWORD
| TOKEN_OP | TOKEN_SEP | TOKEN_BIT_OP | TOKEN_ERROR.

Definition TokenType_eqb (a b : TokenType) : bool :=
  match a, b with
  | TOKEN_ID, TOKEN_ID | TOKEN_NUM, TOKEN_NUM | TOKEN_FLOAT, TOKEN_FLOAT
  | TOKEN_BOOL, TOKEN_BOOL | TOKEN_KEYWORD, TOKEN_KEYWORD | TOKEN_OP, TOKEN_OP
  | TOKEN_SEP, TOKEN_SEP | TOKEN_BIT_OP, TOKEN_BIT_OP
  | TOKEN_ERROR, TOKEN_ERROR => true
  | _, _ => false
  end.

Definition keywords : list (string * TokenType) :=
  [ ("int", TOKEN_KEYWORD); ("float", TOKEN_KEYWORD); ("bool", TOKEN_KEYWORD);
    ("if", TOKEN_KEYWORD); ("else", TOKEN_KEYWORD); ("while", TOKEN_KEYWORD);
    ("for", TOKEN_KEYWORD); ("read", TOKEN_KEYWORD); ("write", TOKEN_KEYWORD);
    ("true", TOKEN_BOOL); ("false", TOKEN_BOOL) ].

Definition operators : list (string * TokenType) :=
  [ ("+", TOKEN_OP); ("-", TOKEN_OP); ("*", TOKEN_OP); ("/", TOKEN_OP);
    ("=", TOKEN_OP); ("&", TOKEN_OP); ("|", TOKEN_OP);
    ("+=", TOKEN_OP); ("-=", TOKEN_OP); ("*=", TOKEN_OP); ("/=", TOKEN_OP);
    ("==", TOKEN_OP); ("!=", TOKEN_OP); ("<", TOKEN_OP); ("<=", TOKEN_OP);
    (">", TOKEN_OP); (">=", TOKEN_OP); ("&&", TOKEN_OP); ("||", TOKEN_OP);
    ("!", TOKEN_OP); ("++", TOKEN_OP); ("--", TOKEN_OP) ].

Definition separators : list (string * TokenType) :=
  [ (";", TOKEN_SEP); (",", TOKEN_SEP); ("(", TOKEN_SEP); (")", TOKEN_SEP);
    ("{", TOKEN_SEP); ("}", TOKEN_SEP); ("[]", TOKEN_SEP); ("]", TOKEN_SEP);
    (":", TOKEN_SEP) ].

Definition bit_operators : list (string * TokenType) :=
  [ ("&", TOKEN_BIT_OP); ("|", TOKEN_BIT_OP); ("~", TOKEN_BIT_OP);
    ("^", TOKEN_BIT_OP); ("<<", TOKEN_BIT_OP); (">>", TOKEN_BIT_OP) ].

(** [m.at(k)] is only called after [m.count(k)] succeeded. *)
Definition at_key (m : list (string * TokenType)) (k : string) : TokenType :=
  match find m k with Some t => t | None => TOKEN_ERROR end.

Record Token := mkToken
  { type : TokenType; value : string; line : Z; column : Z }.

(** The scan cursor: [source], [pos], and the running [line] and [column]. *)
Record Lexer := mkLexer
  { source : string; pos : nat; cur_line : Z; cur_column : Z }.

(** [Lexer(src)]: [pos = 0], [line = 1], [column = 1]. *)
Definition Lexer_new (src : string) : Lexer := mkLexer src 0 1 1.

(** ** <cctype>, in the "C" locale; bytes above 127 belong to no class *)

Definition isdigit (c : ascii) : bool :=
  let n := nat_of_ascii c in (48 <=? n) && (n <=? 57).

Definition isalpha (c : ascii) : bool :=
  let n := nat_of_ascii c in
  ((65 <=? n) && (n <=? 90)) || ((97 <=? n) && (n <=? 122)).

Definition isalnum (c : ascii) : bool := isalpha c || isdigit c.

Definition isspace (c : ascii) : bool :=
  let n := nat_of_ascii c in (n =? 32) || ((9 <=? n) && (n <=? 13)).

Definition NUL : ascii := Ascii.zero.
Definition NL : ascii := "010"%char.

(** [source[i]]: the character at [i], and NUL at [i = source.length()]. *)
Definition char_at (s : string) (i : nat) : ascii :=
  match String.get i s with Some c => c | None => NUL end.

Definition peek (L : Lexer) : ascii :=
  if pos L <? String.length (source L) then char_at (source L) (pos L) else NUL.

(** [advance()]: at the end of the input [pos] stays, yet [column] still
    moves, as in the code. *)
Definition advance (L : Lexer) : ascii * Lexer :=
  let c := peek L in
  let pos' := if pos L <? String.length (source L) then S (pos L) else pos L in
  if Ascii.eqb c NL
  then (c, mkLexer (source L) pos' (cur_line L + 1) 1)
  else (c, mkLexer (source L) pos' (cur_line L) (cur_column L + 1)).

(** [while (cond(peek())) value += advance();]

    [n] bounds the iterations; every caller passes the number of characters
    left, and a condition that fails on NUL, so the bound is never reached. *)
Fixpoint consume_while (n : nat) (cond : ascii -> bool) (L : Lexer)
    (value : string) : string * Lexer :=
  if cond (peek L) then
    match n with
    | 0 => (value, L)
    | S n' =>
        let (c, L') := advance L in
        consume_while n' cond L' (value ++ string1 c)
    end
  else (value, L).

Definition chars_left (L : Lexer) : nat := String.length (source L) - pos L.

(** The second character of a two-character lookahead, [source[pos + 1]]. *)
Definition peek2 (L : Lexer) : ascii := char_at (source L) (pos L + 1).

(** The inner loop of a block comment: [true] when the closing star-slash was
    found (the cursor is on it), [false] when NUL was met first, where the code
    returns from [skipWhitespace]. *)
Fixpoint skip_block (n : nat) (L : Lexer) : bool * Lexer :=
  if Ascii.eqb (peek L) "*" && Ascii.eqb (peek2 L) "/" then (true, L)
  else if Ascii.eqb (peek L) NUL then (false, L)
  else match n with
       | 0 => (false, L)
       | S n' => skip_block n' (snd (advance L))
       end.

Definition not_eol (c : ascii) : bool :=
  negb (Ascii.eqb c NL) && negb (Ascii.eqb c NUL).

Fixpoint skipWhitespace_loop (n : nat) (L : Lexer) : Lexer :=
  if Ascii.eqb (peek L) "#"
     || (Ascii.eqb (peek L) "/" && Ascii.eqb (peek2 L) "/")
  then
    match n with
    | 0 => L
    | S n' => skipWhitespace_loop n' (snd (consume_while (chars_left L) not_eol L ""))
    end
  else if Ascii.eqb (peek L) "/" && Ascii.eqb (peek2 L) "*" then
    let L1 := snd (advance (snd (advance L))) in
    match skip_block (chars_left L1) L1 with
    | (false, L2) => L2
    | (true, L2) =>
        match n with
        | 0 => L
        | S n' => skipWhitespace_loop n' (snd (advance (snd (advance L2))))
        end
    end
  else if isspace (peek L) then
    match n with
    | 0 => L
    | S n' => skipWhitespace_loop n' (snd (advance L))
    end
  else L.

Definition skipWhitespace (L : Lexer) : Lexer :=
  skipWhitespace_loop (chars_left L) L.

(** [column - value.length()] mixes [int] and [size_t]: the difference is
    taken modulo 2^64 and narrowed to a 32-bit [int]. *)
Definition to_int (z : Z) : Z := ((z + 2 ^ 31) mod 2 ^ 32 - 2 ^ 31)%Z.

Definition makeToken (L : Lexer) (t : TokenType) (v : string) : Token :=
  mkToken t v (cur_line L)
    (to_int ((cur_column L - Z.of_nat (String.length v)) mod 2 ^ 64)).

Definition makeError (L : Lexer) (msg : string) : Token :=
  mkToken TOKEN_ERROR
    (msg ++ " at line " ++ to_string (cur_line L) ++ ":"
         ++ to_string (cur_column L))
    (cur_line L) (cur_column L).

Definition is_id_char (c : ascii) : bool := isalnum c || Ascii.eqb c "_".
Definition is_digit_or_alpha (c : ascii) : bool := isdigit c || isalpha c.

Definition recognizeIdOrKeyword (L : Lexer) : Token * Lexer :=
  if isdigit (peek L) then
    let (value, L1) := consume_while (chars_left L) is_digit_or_alpha L "" in
    (makeError L1 ("非法标识符（不能以数字开头）: " ++ value), L1)
  else
    let (value, L1) := consume_while (chars_left L) is_id_char L "" in
    if count keywords value
    then (makeToken L1 (at_key keywords value) value, L1)
    else (makeToken L1 TOKEN_ID value, L1).

Definition is_alpha_or_underscore (c : ascii) : bool :=
  isalpha c || Ascii.eqb c "_".

Definition recognizeNumber (L : Lexer) : Token * Lexer :=
  (* integer part *)
  let (value, L1) := consume_while (chars_left L) isdigit L "" in
  (* decimal point and fraction *)
  let '(value, hasDecimalPoint, isError, L2) :=
    if Ascii.eqb (peek L1) "." then
      let (c, La) := advance L1 in
      let value := value ++ string1 c in
      let '(value, isError, Lb) :=
        if negb (isdigit (peek La)) then (value, true, La)
        else let (v, Lb) := consume_while (chars_left La) isdigit La value in
             (v, false, Lb) in
      (* a second decimal point *)
      if Ascii.eqb (peek Lb) "." then
        let (c2, Lc) := advance Lb in
        let (v, Ld) :=
          consume_while (chars_left Lc) isdigit Lc (value ++ string1 c2) in
        (v, true, true, Ld)
      else (value, true, isError, Lb)
    else (value, false, false, L1) in
  (* a letter or an underscore right after the number *)
  let '(value, isError, L3) :=
    if is_alpha_or_underscore (peek L2) then
      let (v, Le) := consume_while (chars_left L2) is_id_char L2 value in
      (v, true, Le)
    else (value, isError, L2) in
  if isError then (makeError L3 ("非法数字格式: " ++ value), L3)
  else (makeToken L3 (if hasDecimalPoint then TOKEN_FLOAT else TOKEN_NUM) value,
        L3).

Definition recognizeOpOrSep (L : Lexer) : Token * Lexer :=
  let (c, L1) := advance L in
  let value := string1 c in
  (* two-character operators, bitwise ones included *)
  let double_op := value ++ string1 (peek L1) in
  if count operators double_op || count bit_operators double_op then
    let (c2, L2) := advance L1 in
    let value := value ++ string1 c2 in
    (makeToken L2
       (if count operators double_op then at_key operators double_op
        else at_key bit_operators double_op) value, L2)
  else if count operators value then (makeToken L1 TOKEN_OP value, L1)
  else if count bit_operators value then (makeToken L1 TOKEN_BIT_OP value, L1)
  else if count separators value then (makeToken L1 TOKEN_SEP value, L1)
  else (makeError L1 ("无法识别的符号: " ++ value), L1).

(** [{TOKEN_ERROR, text}]: an aggregate with two initialisers, so [line] and
    [column] are value-initialised to 0. *)
Definition bare_error (text : string) : Token := mkToken TOKEN_ERROR text 0 0.

Definition getNextToken (L : Lexer) : Token * Lexer :=
  let L := skipWhitespace L in
  let ch := peek L in
  if isalpha ch || Ascii.eqb ch "_" then recognizeIdOrKeyword L
  else if isdigit ch then recognizeNumber L
  else if count operators (string1 ch) || count separators (string1 ch)
  then recognizeOpOrSep L
  else if Ascii.eqb ch NUL then (bare_error "", L)
  else
    let (_, L1) := advance L in
    (bare_error ("非法字符: " ++ string1 ch), L1).

(** The end-of-input sentinel tested by the driver. *)
Definition is_end (t : Token) : bool :=
  TokenType_eqb (type t) TOKEN_ERROR && String.eqb (value t) "".

(** The driver loop of [main]: the tokens written to the output, in order. *)
Fixpoint scan_loop (n : nat) (L : Lexer) : list Token :=
  match n with
  | 0 => []
  | S n' =>
      let (token, L') := getNextToken L in
      if is_end token then [] else token :: scan_loop n' L'
  end.

Definition scan (src : string) : list Token :=
  scan_loop (S (String.length src)) (Lexer_new src).

(** ** What the specification says, to compare the scanner with *)

(** The kind of a one-character symbol by the fallback order of the
    specification: the operator table, then the bitwise table, then the
    separator table. *)
Definition one_char_kind (v : string) : option TokenType :=
  if count operators v then Some TOKEN_OP
  else if count bit_operators v then Some TOKEN_BIT_OP
  else if count separators v then Some TOKEN_SEP
  else None.

(** The 1-based line and column of the character at offset [i] of [src]:
    a newline before it starts a new line at column 1. *)
Fixpoint position_from (src : string) (i : nat) (ln col : Z) {struct i}
    : Z * Z :=
  match i with
  | 0 => (ln, col)
  | S i' =>
      match src with
      | String c rest =>
          if Ascii.eqb c NL then position_from rest i' (ln + 1)%Z 1%Z
          else position_from rest i' ln (col + 1)%Z
      | EmptyString => (ln, col)
      end
  end.

Definition position_of (src : string) (i : nat) : Z * Z :=
  position_from src i 1%Z 1%Z.

(** ** Predicates on the states of the scanner, for its properties *)

(** [follows L L']: [L'] scans the same source, no earlier than [L]. *)
Definition follows (L L' : Lexer) : Prop :=
  source L' = source L /\ pos L <= pos L'
  /\ (pos L <= String.length (source L) -> pos L' <= String.length (source L)).

(** [sync L]: the running line and column of the cursor are the 1-based
    line and column of the character it is on. *)
Definition sync (L : Lexer) : Prop :=
  pos L <= String.length (source L)
  /\ (cur_line L, cur_column L) = position_of (source L) (pos L).

(** [on_line L0 L v]: since [L0] the cursor has stayed on the same line and
    has moved by the length of [v], the text read so far. *)
Definition on_line (L0 L : Lexer) (v : string) : Prop :=
  cur_line L = cur_line L0
  /\ (cur_column L - Z.of_nat (String.length v) = cur_column L0)%Z.

(** [reading L0 L v]: both, while the text [v] is read from [L0] on. *)
Definition reading (L0 L : Lexer) (v : string) : Prop :=
  sync L /\ on_line L0 L v.

(** What a recogniser owes: the cursor stays in step with the source, and a
    token that is no LexError carries the position where it began (the
    column being one that an [int] holds). *)
Definition placed (L0 : Lexer) (r : Token * Lexer) : Prop :=
  sync (snd r)
  /\ ((0 <= cur_column L0 < 2 ^ 31)%Z -> type (fst r) <> TOKEN_ERROR ->
      line (fst r) = cur_line L0 /\ column (fst r) = cur_column L0).

(** The driver again, each token paired with the offset where it began. *)
Fixpoint scan_starts (n : nat) (L : Lexer) : list (nat * Token) :=
  match n with
  | 0 => []
  | S n' =>
      let (token, L') := getNextToken L in
      if is_end token then []
      else (pos (skipWhitespace L), token) :: scan_starts n' L'
  end.

(** ** More predicates, for the further properties of the scanner *)

(** The cursor is on something [skipWhitespace] skips: a line comment, a
    block comment or a blank. *)
Definition starts_blank (L : Lexer) : bool :=
  Ascii.eqb (peek L) "#" || Ascii.eqb (peek L) "/" && Ascii.eqb (peek2 L) "/"
  || Ascii.eqb (peek L) "/" && Ascii.eqb (peek2 L) "*"
  || isspace (peek L).

(** Every character of [s] satisfies [p]. *)
Fixpoint string_forall (p : ascii -> bool) (s : string) : bool :=
  match s with
  | EmptyString => true
  | String c rest => p c && string_forall p rest
  end.

(** [spelled L0 L v]: [v] is the text of the source between the cursor of
    [L0] and the cursor of [L]. *)
Definition spelled (L0 L : Lexer) (v : string) : Prop :=
  source L = source L0
  /\ pos L0 <= pos L <= String.length (source L0)
  /\ v = substring (pos L0) (pos L - pos L0) (source L0).

End Lex.

(** * The parser *)

Module Parse.

Inductive TokenType :=
| TOKEN_ID | TOKEN_NUM | TOKEN_FLOAT | TOKEN_BOOL | TOKEN_KEYWORD
| TOKEN_OP | TOKEN_SEP | TOKEN_ERROR.

Definition TokenType_eqb (a b : TokenType) : bool :=
  match a, b with
  | TOKEN_ID, TOKEN_ID | TOKEN_NUM, TOKEN_NUM | TOKEN_FLOAT, TOKEN_FLOAT
  | TOKEN_BOOL, TOKEN_BOOL | TOKEN_KEYWORD, TOKEN_KEYWORD | TOKEN_OP, TOKEN_OP
  | TOKEN_SEP, TOKEN_SEP | TOKEN_ERROR, TOKEN_ERROR => true
  | _, _ => false
  end.

Inductive NodeType :=
| NODE_EXPR | NODE_BOOL | NODE_DECLS | NODE_STMTS | NODE_ASSIGN | NODE_IF
| NODE_WHILE | NODE_FOR | NODE_READ | NODE_WRITE | NODE_BLOCK | NODE_OP
| NODE_ID | NODE_NUM | NODE_FLOAT | NODE_BOOLVAL | NODE_TYPE | NODE_LIST.

#[local] Set Warnings "-register-all".

(** [struct TreeNode]: a child is a [TreeNode*], [None] being [nullptr]. *)
Inductive TreeNode :=
| Node (t : NodeType) (v : string) (children : list (option TreeNode)).

Definition node_type (n : TreeNode) : NodeType := let (t, _, _) := n in t.
Definition node_value (n : TreeNode) : string := let (_, v, _) := n in v.
Definition children (n : TreeNode) : list (option TreeNode) :=
  let (_, _, c) := n in c.

(** [node->children.push_back(child)] *)
Definition push_back (n : TreeNode) (child : option TreeNode) : TreeNode :=
  let (t, v, c) := n in Node t v (c ++ [child])%list.

Record Token := mkToken { type : TokenType; value : string }.

(** [class Parser]: the token vector and the index [current]. *)
Record Parser := mkParser { tokens : list Token; current : nat }.

Definition Parser_new (t : list Token) : Parser := mkParser t 0.

(** [{TOKEN_ERROR, ""}] *)
Definition end_token : Token := mkToken TOKEN_ERROR "".

Definition size (P : Parser) : nat := List.length (tokens P).

Definition peek (P : Parser) : Token :=
  if current P <? size P then nth (current P) (tokens P) end_token
  else end_token.

Definition previous (P : Parser) : Token :=
  if 0 <? current P then nth (current P - 1) (tokens P) end_token
  else end_token.

Definition isAtEnd (P : Parser) : bool :=
  TokenType_eqb (type (peek P)) TOKEN_ERROR && String.eqb (value (peek P)) "".

Definition advance (P : Parser) : Token * Parser :=
  let P' := if negb (isAtEnd P) then mkParser (tokens P) (current P + 1)
            else P in
  (previous P', P').

(** The three overloads of [check]: by type, by type and value, by value. *)
Definition check_t (P : Parser) (t : TokenType) : bool :=
  if isAtEnd P then false else TokenType_eqb (type (peek P)) t.

Definition check_tv (P : Parser) (t : TokenType) (v : string) : bool :=
  if isAtEnd P then false
  else TokenType_eqb (type (peek P)) t && String.eqb (value (peek P)) v.

Definition check_v (P : Parser) (v : string) : bool :=
  if isAtEnd P then false else String.eqb (value (peek P)) v.

(** ** Results: a value and the new parser state, or the end of the run *)

Inductive Res (A : Type) :=
| Ok (a : A) (P : Parser)
| Fatal (message : string) (at_token : string)
| OutOfFuel.
Arguments Ok {A} a P.
Arguments Fatal {A} message at_token.
Arguments OutOfFuel {A}.

Definition M (A : Type) : Type := Parser -> Res A.

Definition ret {A} (a : A) : M A := fun P => Ok a P.

Definition bind {A B} (m : M A) (k : A -> M B) : M B :=
  fun P => match m P with
           | Ok a P' => k a P'
           | Fatal msg t => Fatal msg t
           | OutOfFuel => OutOfFuel
           end.

Notation "x <- c1 ;; c2" := (bind c1 (fun x => c2))
  (at level 61, c1 at next level, right associativity).
Notation "' pat <- c1 ;; c2" := (bind c1 (fun x => match x with pat => c2 end))
  (at level 61, pat pattern, c1 at next level, right associativity).
Notation "c1 ;; c2" := (bind c1 (fun _ => c2))
  (at level 61, right associativity).

(** Reading the state without changing it. *)
Definition gets {A} (f : Parser -> A) : M A := fun P => Ok (f P) P.

(** [error(message)]: prints the message and the value of the current token,
    then [exit(1)]. *)
Definition error {A} (message : string) : M A :=
  fun P => Fatal message (value (peek P)).

(** The overloads of [match]. *)
Definition match_t (t : TokenType) : M bool :=
  fun P => if check_t P t then Ok true (snd (advance P)) else Ok false P.

Definition match_tv (t : TokenType) (v : string) : M bool :=
  fun P => if check_tv P t v then Ok true (snd (advance P)) else Ok false P.

(** The overloads of [consume]; the one by type and value appends the actual
    token to the message. *)
Definition consume_t (t : TokenType) (message : string) : M unit :=
  fun P => if check_t P t then Ok tt (snd (advance P)) else error message P.

Definition consume_tv (t : TokenType) (v : string) (message : string)
    : M unit :=
  fun P => if check_tv P t v then Ok tt (snd (advance P))
           else error (message ++ " (Actual: " ++ value (peek P) ++ ")") P.

(** The number of tokens after the cursor: the bound of the loops below,
    each turn of which consumes a token or ends the run. *)
Definition remaining (P : Parser) : nat := size P - current P.

(** ** The expression engine: two stacks, the head of a list being the top *)

(** [precedence[op]]: [operator[]] yields 0 for a key that is not there. *)
Definition precedence_table : list (string * nat) :=
  [ ("||", 1); ("&&", 2);
    ("==", 3); ("!=", 3); ("<", 3); ("<=", 3); (">", 3); (">=", 3);
    ("+", 4); ("-", 4);
    ("*", 5); ("/", 5); ("%", 5);
    ("!", 6); ("++", 6); ("--", 6) ].

Definition precedence (op : string) : nat :=
  match find precedence_table op with Some n => n | None => 0 end.

Definition is_unary (op : string) : bool :=
  String.eqb op "!" || String.eqb op "++" || String.eqb op "--".

(** [processOp], after [op] was popped from the operator stack: the new
    operand stack. *)
Definition processOp (op : string) (nodeStack : list TreeNode)
    : M (list TreeNode) :=
  if is_unary op then
    match nodeStack with
    | [] => error "Missing operand for unary operator"
    | top :: rest => ret (Node NODE_OP op [Some top] :: rest)
    end
  else
    match nodeStack with
    | rhs :: lhs :: rest =>
        ret (Node NODE_OP op [Some lhs; Some rhs] :: rest)
    | _ => error "Missing operands for binary operator"
    end.

Definition Stacks : Type := list TreeNode * list string.

(** [while (!opStack.empty() && opStack.top() != "(") processOp();] *)
Fixpoint reduce_to_paren (opStack : list string) (nodeStack : list TreeNode)
    : M Stacks :=
  match opStack with
  | [] => ret (nodeStack, [])
  | op :: ops =>
      if String.eqb op "(" then ret (nodeStack, opStack)
      else nodeStack' <- processOp op nodeStack ;; reduce_to_paren ops nodeStack'
  end.

(** [while (!opStack.empty() && opStack.top() != "(" &&
           precedence[opStack.top()] >= precedence[op]) processOp();] *)
Fixpoint reduce_prec (op : string) (opStack : list string)
    (nodeStack : list TreeNode) : M Stacks :=
  match opStack with
  | [] => ret (nodeStack, [])
  | top :: ops =>
      if negb (String.eqb top "(") && (precedence op <=? precedence top)
      then nodeStack' <- processOp top nodeStack ;;
           reduce_prec op ops nodeStack'
      else ret (nodeStack, opStack)
  end.

(** [while (!opStack.empty()) { if (opStack.top() == "(") error(..);
    processOp(); }] *)
Fixpoint drain (opStack : list string) (nodeStack : list TreeNode)
    : M (list TreeNode) :=
  match opStack with
  | [] => ret nodeStack
  | op :: ops =>
      if String.eqb op "(" then error "Unmatched parentheses"
      else nodeStack' <- processOp op nodeStack ;; drain ops nodeStack'
  end.

(** The condition of the main loop. *)
Definition expr_continues (P : Parser) : bool :=
  negb (isAtEnd P) && negb (check_tv P TOKEN_SEP ";")
  && negb (check_tv P TOKEN_SEP ",")
  && negb (check_tv P TOKEN_KEYWORD "then")
  && negb (check_tv P TOKEN_KEYWORD "do")
  && negb (check_tv P TOKEN_KEYWORD "else")
  && negb (check_tv P TOKEN_SEP "{").

(** The operand branch of the main loop. *)
Definition parseOperand : M TreeNode :=
  b <- match_t TOKEN_ID ;;
  if b then v <- gets (fun P => value (previous P)) ;; ret (Node NODE_ID v [])
  else
  b <- match_t TOKEN_NUM ;;
  if b then v <- gets (fun P => value (previous P)) ;; ret (Node NODE_NUM v [])
  else
  b <- match_t TOKEN_FLOAT ;;
  if b then v <- gets (fun P => value (previous P)) ;;
            ret (Node NODE_FLOAT v [])
  else
  b <- match_t TOKEN_BOOL ;;
  if b then v <- gets (fun P => value (previous P)) ;;
            ret (Node NODE_BOOLVAL v [])
  else error "Expected operand in expression".

(** The relabelling of a minus sign with no left operand. *)
Definition relabel (op : string) (nodeStack : list TreeNode)
    (opStack : list string) : string :=
  if String.eqb op "-"
     && (match nodeStack with [] => true | _ => false end
         || match opStack with top :: _ => String.eqb top "(" | [] => false end)
  then "neg" else op.

(** One turn of the main loop, [continue_] being the rest of the loop. *)
Definition expr_turn (continue_ : list TreeNode -> list string -> M Stacks)
    (nodeStack : list TreeNode) (opStack : list string) : M Stacks :=
  b <- match_tv TOKEN_SEP "(" ;;
  if b then continue_ nodeStack ("(" :: opStack)
  else
  b <- match_tv TOKEN_SEP ")" ;;
  if b then
    '(nodeStack', opStack') <- reduce_to_paren opStack nodeStack ;;
    match opStack' with
    | [] => error "Unmatched parentheses"
    | _ :: ops => continue_ nodeStack' ops
    end
  else
  b <- match_t TOKEN_OP ;;
  if b then
    v <- gets (fun P => value (previous P)) ;;
    let op := relabel v nodeStack opStack in
    '(nodeStack', opStack') <- reduce_prec op opStack nodeStack ;;
    continue_ nodeStack' (op :: opStack')
  else
    operand <- parseOperand ;;
    continue_ (operand :: nodeStack) opStack.

Fixpoint expr_loop (n : nat) (nodeStack : list TreeNode)
    (opStack : list string) : M Stacks :=
  fun P =>
  if expr_continues P then
    match n with
    | 0 => OutOfFuel
    | S n' => expr_turn (expr_loop n') nodeStack opStack P
    end
  else Ok (nodeStack, opStack) P.

(** The end of [parseArithmeticExpr]: exactly one operand must be left. *)
Definition finish (nodeStack : list TreeNode) : M TreeNode :=
  match nodeStack with
  | [] => error "Empty expression"
  | [top] => ret (Node NODE_EXPR "" [Some top])
  | _ :: _ :: _ => error "Malformed expression"
  end.

Definition parseArithmeticExpr : M TreeNode :=
  empty <- gets (fun P => check_tv P TOKEN_SEP ";") ;;
  if empty : bool then error "Empty expression not allowed here"
  else
    n <- gets remaining ;;
    '(nodeStack, opStack) <- expr_loop n [] [] ;;
    nodeStack' <- drain opStack nodeStack ;;
    finish nodeStack'.

Definition is_comparison (P : Parser) : bool :=
  check_tv P TOKEN_OP ">" || check_tv P TOKEN_OP "<"
  || check_tv P TOKEN_OP ">=" || check_tv P TOKEN_OP "<="
  || check_tv P TOKEN_OP "==" || check_tv P TOKEN_OP "!=".

Definition parseBoolExpr : M TreeNode :=
  lhs <- parseArithmeticExpr ;;
  brace <- gets (fun P => check_tv P TOKEN_SEP "{") ;;
  if brace : bool then ret lhs
  else
    cmp <- gets is_comparison ;;
    if cmp : bool then
      op <- (fun P => let (t, P') := advance P in Ok t P') ;;
      rhs <- parseArithmeticExpr ;;
      ret (Node NODE_BOOL (value op) [Some lhs; Some rhs])
    else ret lhs.

(** ** Declarations *)

Definition previous_value : M string := gets (fun P => value (previous P)).

(** The initialiser of a declarator of type [type]. *)
Definition parseInit (type : string) : M TreeNode :=
  if String.eqb type "bool" then parseBoolExpr else parseArithmeticExpr.

(** [if (match(TOKEN_OP, "=")) declNode->children.push_back(init);] *)
Definition parseOptInit (type : string) (declNode : TreeNode) : M TreeNode :=
  b <- match_tv TOKEN_OP "=" ;;
  if b then initNode <- parseInit type ;;
            ret (push_back declNode (Some initNode))
  else ret declNode.

(** The type keyword; [type] stays empty when none of the three matches. *)
Definition matchType : M string :=
  b <- match_tv TOKEN_KEYWORD "int" ;;
  if b then ret "int" else
  b <- match_tv TOKEN_KEYWORD "float" ;;
  if b then ret "float" else
  b <- match_tv TOKEN_KEYWORD "bool" ;;
  if b then ret "bool" else ret "".

(** The do-while of [parseDecl]: one declarator, then again after a [,]. *)
Fixpoint declList (n : nat) (type : string) (declNode : TreeNode)
    : M TreeNode :=
  match n with
  | 0 => fun _ => OutOfFuel
  | S n' =>
      consume_t TOKEN_ID "Expected variable name" ;;
      v <- previous_value ;;
      declNode <- parseOptInit type (push_back declNode (Some (Node NODE_ID v []))) ;;
      more <- match_tv TOKEN_SEP "," ;;
      if more then declList n' type declNode else ret declNode
  end.

(** [parseDecl]: the declaration in the first clause of a [for]. *)
Definition parseDecl : M TreeNode :=
  type <- matchType ;;
  (if String.eqb type "" then error "Expected type keyword in declaration"
   else ret tt) ;;
  n <- gets remaining ;;
  declNode <- declList (S n) type (Node NODE_LIST "" [Some (Node NODE_TYPE type [])]) ;;
  consume_tv TOKEN_SEP ";" "Expected ';' after declaration" ;;
  ret declNode.

(** The do-while of [parseDecls]: a [;] met where a declarator starts ends
    the loop (the empty declaration). *)
Fixpoint declarators (n : nat) (type : string) (declNode : TreeNode)
    : M TreeNode :=
  match n with
  | 0 => fun _ => OutOfFuel
  | S n' =>
      brk <- match_tv TOKEN_SEP ";" ;;
      if brk then ret declNode
      else
        consume_t TOKEN_ID "Expected variable name in declaration" ;;
        v <- previous_value ;;
        declNode <- parseOptInit type (push_back declNode (Some (Node NODE_ID v []))) ;;
        more <- match_tv TOKEN_SEP "," ;;
        if more then declarators n' type declNode else ret declNode
  end.

Definition is_type_keyword (P : Parser) : bool :=
  check_tv P TOKEN_KEYWORD "int" || check_tv P TOKEN_KEYWORD "float"
  || check_tv P TOKEN_KEYWORD "bool".

(** One turn of the loop of [parseDecls]: one declaration group. *)
Definition parseDeclGroup : M TreeNode :=
  type <- matchType ;;
  n <- gets remaining ;;
  declNode <- declarators (S n) type (Node NODE_LIST "" [Some (Node NODE_TYPE type [])]) ;;
  consume_tv TOKEN_SEP ";" "Expected ';' after declaration" ;;
  ret declNode.

Fixpoint decls_loop (n : nat) (declsNode : TreeNode) : M TreeNode :=
  fun P =>
  if negb (isAtEnd P) && is_type_keyword P then
    match n with
    | 0 => OutOfFuel
    | S n' =>
        (declNode <- parseDeclGroup ;;
         decls_loop n' (push_back declsNode (Some declNode))) P
    end
  else Ok declsNode P.

Definition parseDecls : M TreeNode :=
  n <- gets remaining ;;
  decls_loop n (Node NODE_DECLS "" []).

(** ** Statements *)

(** [if (!inForLoop) consume(TOKEN_SEP, ";", ..);] *)
Definition assignEnd (inForLoop : bool) : M unit :=
  if inForLoop then ret tt
  else consume_tv TOKEN_SEP ";" "Expected ';' after assignment".

Definition starts_bool (P : Parser) : bool :=
  check_t P TOKEN_BOOL || check_tv P TOKEN_OP "!"
  || check_t P TOKEN_ID || check_tv P TOKEN_SEP "(".

Definition parseAssignStmt (inForLoop : bool) : M TreeNode :=
  consume_t TOKEN_ID "Expected identifier in assignment" ;;
  v <- previous_value ;;
  let idNode := Node NODE_ID v [] in
  op <- gets (fun P => value (peek P)) ;;
  if String.eqb op "++" || String.eqb op "--" then
    consume_t TOKEN_OP "Expected operator" ;;
    assignEnd inForLoop ;;
    ret (Node NODE_ASSIGN op [Some idNode])
  else
    consume_t TOKEN_OP "Expected assignment operator" ;;
    rhs <- (if String.eqb op "=" then
              b <- gets starts_bool ;;
              if b : bool then parseBoolExpr else parseArithmeticExpr
            else parseArithmeticExpr) ;;
    assignEnd inForLoop ;;
    ret (Node NODE_ASSIGN op [Some idNode; Some rhs]).

(** [do { consume(TOKEN_ID, message); push } while (match(TOKEN_SEP, ","));] *)
Fixpoint idList (n : nat) (message : string) (node : TreeNode) : M TreeNode :=
  match n with
  | 0 => fun _ => OutOfFuel
  | S n' =>
      consume_t TOKEN_ID message ;;
      v <- previous_value ;;
      let node := push_back node (Some (Node NODE_ID v [])) in
      more <- match_tv TOKEN_SEP "," ;;
      if more then idList n' message node else ret node
  end.

Definition parseReadStmt : M TreeNode :=
  consume_tv TOKEN_KEYWORD "read" "Expected 'read'" ;;
  consume_tv TOKEN_SEP "(" "Expected '(' after 'read'" ;;
  n <- gets remaining ;;
  readNode <- idList (S n) "Expected variable name in read statement"
                (Node NODE_READ "" []) ;;
  consume_tv TOKEN_SEP ")" "Expected ')' after read arguments" ;;
  consume_tv TOKEN_SEP ";" "Expected ';' after read statement" ;;
  ret readNode.

Definition parseWriteStmt : M TreeNode :=
  consume_tv TOKEN_KEYWORD "write" "Expected 'write'" ;;
  paren <- match_tv TOKEN_SEP "(" ;;
  writeNode <-
    (if paren then
       n <- gets remaining ;;
       node <- idList (S n) "Expected variable name in write statement"
                 (Node NODE_WRITE "" []) ;;
       consume_tv TOKEN_SEP ")" "Expected ')' after write arguments" ;;
       ret node
     else
       consume_t TOKEN_ID "Expected variable name in write statement" ;;
       v <- previous_value ;;
       ret (Node NODE_WRITE "" [Some (Node NODE_ID v [])])) ;;
  consume_tv TOKEN_SEP ";" "Expected ';' after write statement" ;;
  ret writeNode.

(** The statements that contain statements call [parseStmt] back. *)
Section Nested.
Variable parseStmt : M TreeNode.

(** [while (!isAtEnd() && !check(TOKEN_SEP, "}")) push(parseStmt());]
    ([parseStmt] returns no null pointer: [error] does not return). *)
Fixpoint stmtList (n : nat) (node : TreeNode) : M TreeNode :=
  fun P =>
  if negb (isAtEnd P) && negb (check_tv P TOKEN_SEP "}") then
    match n with
    | 0 => OutOfFuel
    | S n' =>
        (stmt <- parseStmt ;; stmtList n' (push_back node (Some stmt))) P
    end
  else Ok node P.

Definition parseBlock : M TreeNode :=
  consume_tv TOKEN_SEP "{" "Expected '{' to start block" ;;
  n <- gets remaining ;;
  blockNode <- stmtList n (Node NODE_BLOCK "" []) ;;
  consume_tv TOKEN_SEP "}" "Expected '}' to end block" ;;
  ret blockNode.

Definition parseIfStmt : M TreeNode :=
  consume_tv TOKEN_KEYWORD "if" "Expected 'if'" ;;
  consume_tv TOKEN_SEP "(" "Expected '(' after 'if'" ;;
  cond <- parseBoolExpr ;;
  consume_tv TOKEN_SEP ")" "Expected ')' after condition" ;;
  consume_tv TOKEN_SEP "{" "Expected '{' to start if block" ;;
  brace <- match_tv TOKEN_SEP "{" ;;
  thenBranch <-
    (if brace then parseBlock
     else
       stmt <- parseStmt ;;
       semi <- gets (fun P => check_tv P TOKEN_SEP ";") ;;
       (if semi : bool then (fun P => Ok tt (snd (advance P))) else ret tt) ;;
       ret stmt) ;;
  let ifNode := Node NODE_IF "" [Some cond; Some thenBranch] in
  els <- match_tv TOKEN_KEYWORD "else" ;;
  if els then
    consume_tv TOKEN_SEP "{" "Expected '{' to start else block" ;;
    elseBranch <- parseBlock ;;
    ret (push_back ifNode (Some elseBranch))
  else ret ifNode.

Definition parseWhileStmt : M TreeNode :=
  consume_tv TOKEN_KEYWORD "while" "Expected 'while'" ;;
  consume_tv TOKEN_SEP "(" "Expected '(' after 'while'" ;;
  cond <- parseBoolExpr ;;
  let whileNode := Node NODE_WHILE "" [Some cond] in
  consume_tv TOKEN_SEP ")" "Expected ')' after condition" ;;
  brace <- gets (fun P => check_tv P TOKEN_SEP "{") ;;
  body <- (if brace : bool then parseBlock else parseStmt) ;;
  ret (push_back whileNode (Some body)).

Definition parseForStmt : M TreeNode :=
  consume_tv TOKEN_KEYWORD "for" "Expected 'for'" ;;
  consume_tv TOKEN_SEP "(" "Expected '(' after 'for'" ;;
  let forNode := Node NODE_FOR "" [] in
  (* the initialiser *)
  semi <- gets (fun P => check_tv P TOKEN_SEP ";") ;;
  forNode <-
    (if negb semi then
       decl <- gets is_type_keyword ;;
       if decl : bool then
         d <- parseDecl ;; ret (push_back forNode (Some d))
       else
         assign <- parseAssignStmt false ;;
         consume_tv TOKEN_SEP ";" "Expected ';' after for initializer" ;;
         ret (push_back forNode (Some assign))
     else
       consume_tv TOKEN_SEP ";" "Expected ';' after for initializer" ;;
       ret (push_back forNode None)) ;;
  (* the condition *)
  semi <- gets (fun P => check_tv P TOKEN_SEP ";") ;;
  forNode <-
    (if negb semi then c <- parseBoolExpr ;; ret (push_back forNode (Some c))
     else ret (push_back forNode None)) ;;
  consume_tv TOKEN_SEP ";" "Expected ';' after for condition" ;;
  (* the update *)
  close <- gets (fun P => check_tv P TOKEN_SEP ")") ;;
  forNode <-
    (if negb close then
       updateNode <- parseAssignStmt true ;;
       ret (push_back forNode (Some updateNode))
     else ret (push_back forNode None)) ;;
  consume_tv TOKEN_SEP ")" "Expected ')' after for update" ;;
  (* the body: a block, or one statement wrapped in a block node *)
  brace <- gets (fun P => check_tv P TOKEN_SEP "{") ;;
  body <-
    (if brace : bool then parseBlock
     else stmt <- parseStmt ;; ret (Node NODE_BLOCK "" [Some stmt])) ;;
  ret (push_back forNode (Some body)).

(** The body of [parseStmt]. *)
Definition parseStmt_body : M TreeNode :=
  fun P =>
  if check_tv P TOKEN_SEP "{" then parseBlock P
  else if check_tv P TOKEN_KEYWORD "if" then parseIfStmt P
  else if check_tv P TOKEN_KEYWORD "while" then parseWhileStmt P
  else if check_tv P TOKEN_KEYWORD "for" then parseForStmt P
  else if check_tv P TOKEN_KEYWORD "read" then parseReadStmt P
  else if check_tv P TOKEN_KEYWORD "write" then parseWriteStmt P
  else if check_t P TOKEN_ID then parseAssignStmt false P
  else
    (semi <- match_tv TOKEN_SEP ";" ;;
     if semi then ret (Node NODE_STMTS "empty_stmt" [])
     else
       v <- gets (fun P => value (peek P)) ;;
       error ("Expected statement but found: " ++ v)) P.
End Nested.

(** [parseStmt], [depth] bounding the nesting of statements. *)
Fixpoint parseStmt (depth : nat) : M TreeNode :=
  match depth with
  | 0 => fun _ => OutOfFuel
  | S d => parseStmt_body (parseStmt d)
  end.

(** Every nested statement starts after at least one token of the enclosing
    one, so the nesting is bounded by the number of tokens left. *)
Definition parseStmts : M TreeNode :=
  n <- gets remaining ;;
  stmtList (parseStmt (S n)) n (Node NODE_STMTS "" []).

Definition parse : M TreeNode :=
  let programNode := Node NODE_BLOCK "" [] in
  decls <- parseDecls ;;
  let programNode := push_back programNode (Some decls) in
  stmts <- parseStmts ;;
  ret (push_back programNode (Some stmts)).

(** [Parser parser(tokens); parser.parse()], without the final state. *)
Inductive Outcome :=
| Tree (root : TreeNode)
| Abort (message : string) (at_token : string)
| NoResult.

Definition run (t : list Token) : Outcome :=
  match parse (Parser_new t) with
  | Ok root _ => Tree root
  | Fatal msg tok => Abort msg tok
  | OutOfFuel => NoResult
  end.

(** ** Predicates on the states of the parser, for its properties *)

(** The index invariant: [current] is at most the size of the vector. *)
Definition wf (P : Parser) : Prop := current P <= size P.

(** [keeps P P']: the same token vector, and the invariant carried over. *)
Definition keeps (P P' : Parser) : Prop :=
  tokens P' = tokens P /\ (wf P -> wf P').

(** [runs m P Q]: from the state [P], [m] ends within its bounds; and when
    it ends with a value, the token vector is the same, the index invariant
    is carried over, and the postcondition [Q] holds of the value and of the
    new state. *)
Definition runs {A} (m : M A) (P : Parser) (Q : A -> Parser -> Prop) : Prop :=
  m P <> OutOfFuel
  /\ forall a P', m P = Ok a P' -> keeps P P' /\ Q a P'.

(** ** Token sequences of the example programs of the specification *)

Definition ID := mkToken TOKEN_ID.
Definition NUM := mkToken TOKEN_NUM.
Definition KW := mkToken TOKEN_KEYWORD.
Definition OP := mkToken TOKEN_OP.
Definition SEP := mkToken TOKEN_SEP.

(** [while ( a ) { }] *)
Definition while_tokens : list Token :=
  [KW "while"; SEP "("; ID "a"; SEP ")"; SEP "{"; SEP "}"].

(** [while ( a < 3 ) a ++ ;] *)
Definition while_less_tokens : list Token :=
  [KW "while"; SEP "("; ID "a"; OP "<"; NUM "3"; SEP ")";
   ID "a"; OP "++"; SEP ";"].

(** [if ( a ) { b = 1 ; c = 2 ; }] *)
Definition if_tokens : list Token :=
  [KW "if"; SEP "("; ID "a"; SEP ")"; SEP "{";
   ID "b"; OP "="; NUM "1"; SEP ";"; ID "c"; OP "="; NUM "2"; SEP ";";
   SEP "}"].

(** [a = -1 + 2 ;] and [a = 1 - 2 ;] *)
Definition neg_tokens : list Token :=
  [ID "a"; OP "="; OP "-"; NUM "1"; OP "+"; NUM "2"; SEP ";"].
Definition minus_tokens : list Token :=
  [ID "a"; OP "="; NUM "1"; OP "-"; NUM "2"; SEP ";"].

(** [a = 1 2 ;] and [a = ;] *)
Definition two_operands_tokens : list Token :=
  [ID "a"; OP "="; NUM "1"; NUM "2"; SEP ";"].
Definition no_operand_tokens : list Token := [ID "a"; OP "="; SEP ";"].

(** [for ( ; ; ) { }] *)
Definition for_tokens : list Token :=
  [KW "for"; SEP "("; SEP ";"; SEP ";"; SEP ")"; SEP "{"; SEP "}"].


(** The root of a program with no declaration and the statements [stmts]. *)
Definition program (stmts : list TreeNode) : TreeNode :=
  Node NODE_BLOCK ""
    [Some (Node NODE_DECLS "" []);
     Some (Node NODE_STMTS "" (map Some stmts))].


(** ** More predicates, for the further properties of the parser *)

(** The trees the expression engine builds: an operand with no child, or an
    operator with one child when [processOp] counts it as unary and with two
    children otherwise, each child being such a tree. *)
Inductive expr_tree : TreeNode -> Prop :=
| tree_id v : expr_tree (Node NODE_ID v [])
| tree_num v : expr_tree (Node NODE_NUM v [])
| tree_float v : expr_tree (Node NODE_FLOAT v [])
| tree_boolval v : expr_tree (Node NODE_BOOLVAL v [])
| tree_unary op a :
    is_unary op = true -> expr_tree a ->
    expr_tree (Node NODE_OP op [Some a])
| tree_binary op a b :
    is_unary op = false -> expr_tree a -> expr_tree b ->
    expr_tree (Node NODE_OP op [Some a; Some b]).

(** The leaf that [parseOperand] makes of an operand token. *)
Definition operand_node (t : Token) : option TreeNode :=
  match type t with
  | TOKEN_ID => Some (Node NODE_ID (value t) [])
  | TOKEN_NUM => Some (Node NODE_NUM (value t) [])
  | TOKEN_FLOAT => Some (Node NODE_FLOAT (value t) [])
  | TOKEN_BOOL => Some (Node NODE_BOOLVAL (value t) [])
  | _ => None
  end.

(** The parser with the tokens [pre] behind the cursor and [post] ahead. *)
Definition at_ (pre post : list Token) : Parser :=
  mkParser (pre ++ post)%list (List.length pre).

(** Identifiers separated by commas, as tokens. *)
Fixpoint id_tokens (names : list string) : list Token :=
  match names with
  | [] => []
  | [v] => [ID v]
  | v :: rest => ID v :: SEP "," :: id_tokens rest
  end.

(** The identifier leaves of [names], as children. *)
Definition id_nodes (names : list string) : list (option TreeNode) :=
  map (fun v => Some (Node NODE_ID v [])) names.

(** A token other than the end marker [{TOKEN_ERROR, ""}]. *)
Definition real (t : Token) : bool :=
  negb (TokenType_eqb (type t) TOKEN_ERROR && String.eqb (value t) "").

(** The tokens the main loop of the expression engine stops at. *)
Definition terminator (t : Token) : bool :=
  negb (real t)
  || TokenType_eqb (type t) TOKEN_SEP
     && (String.eqb (value t) ";" || String.eqb (value t) ","
         || String.eqb (value t) "{")
  || TokenType_eqb (type t) TOKEN_KEYWORD
     && (String.eqb (value t) "then" || String.eqb (value t) "do"
         || String.eqb (value t) "else").

(** The tokens [parseStmt] has a branch for. *)
Definition starts_statement (t : Token) : bool :=
  TokenType_eqb (type t) TOKEN_SEP
  && (String.eqb (value t) "{" || String.eqb (value t) ";")
  || TokenType_eqb (type t) TOKEN_KEYWORD
     && (String.eqb (value t) "if" || String.eqb (value t) "while"
         || String.eqb (value t) "for" || String.eqb (value t) "read"
         || String.eqb (value t) "write")
  || TokenType_eqb (type t) TOKEN_ID.


(** A declaration [type v1 , ... , vn ;] without initialisers, as tokens,
    and the node it stands for. *)
Definition is_type (ty : string) : bool :=
  String.eqb ty "int" || String.eqb ty "float" || String.eqb ty "bool".

Definition decl_tokens (g : string * list string) : list Token :=
  (KW (fst g) :: id_tokens (snd g) ++ [SEP ";"])%list.

Definition decl_node (g : string * list string) : TreeNode :=
  Node NODE_LIST "" (Some (Node NODE_TYPE (fst g) []) :: id_nodes (snd g)).

Definition plain_decl (g : string * list string) : Prop :=
  is_type (fst g) = true /\ snd g <> [].

(** ** The trees of accepted programs *)

(** An Expression node over an expression tree. *)
Definition expr_node (t : TreeNode) : Prop :=
  exists top, t = Node NODE_EXPR "" [Some top] /\ expr_tree top.

(** The children of a declaration after its type: identifier leaves and
    initialisers. *)
Inductive decl_item : option TreeNode -> Prop :=
| item_id v : decl_item (Some (Node NODE_ID v []))
| item_init e : expr_node e -> decl_item (Some e).

Definition decl_tree (t : TreeNode) : Prop :=
  exists ty items,
    t = Node NODE_LIST "" (Some (Node NODE_TYPE ty []) :: items)
    /\ is_type ty = true /\ Forall decl_item items.

Inductive assign_tree : TreeNode -> Prop :=
| assign_step v op :
    op = "++" \/ op = "--" ->
    assign_tree (Node NODE_ASSIGN op [Some (Node NODE_ID v [])])
| assign_expr v op e :
    expr_node e ->
    assign_tree (Node NODE_ASSIGN op [Some (Node NODE_ID v []); Some e]).

(** The three clauses of a [for], a null pointer standing for an empty
    clause. *)
Definition for_init (i : option TreeNode) : Prop :=
  match i with
  | None => True
  | Some t => decl_tree t \/ assign_tree t
  end.

Definition for_cond (c : option TreeNode) : Prop :=
  match c with None => True | Some e => expr_node e end.

(** The update is never an assignment with an expression: the expression
    engine would not stop at the closing parenthesis of the [for]. *)
Definition for_update (u : option TreeNode) : Prop :=
  match u with
  | None => True
  | Some t => exists v op, (op = "++" \/ op = "--")
                           /\ t = Node NODE_ASSIGN op [Some (Node NODE_ID v [])]
  end.

(** The statements: there is no If, While or BooleanExpression node among
    them. *)
Inductive stmt_tree : TreeNode -> Prop :=
| stmt_block ss :
    Forall stmt_tree ss -> stmt_tree (Node NODE_BLOCK "" (map Some ss))
| stmt_assign t : assign_tree t -> stmt_tree t
| stmt_for i c u body :
    for_init i -> for_cond c -> for_update u -> Forall stmt_tree body ->
    stmt_tree (Node NODE_FOR ""
                 [i; c; u; Some (Node NODE_BLOCK "" (map Some body))])
| stmt_read names :
    names <> [] -> stmt_tree (Node NODE_READ "" (id_nodes names))
| stmt_write names :
    names <> [] -> stmt_tree (Node NODE_WRITE "" (id_nodes names))
| stmt_empty : stmt_tree (Node NODE_STMTS "empty_stmt" []).

(** The root of a program. *)
Definition program_tree (t : TreeNode) : Prop :=
  exists ds ss,
    t = Node NODE_BLOCK ""
          [Some (Node NODE_DECLS "" (map Some ds));
           Some (Node NODE_STMTS "" (map Some ss))]
    /\ Forall decl_tree ds /\ Forall stmt_tree ss.

(** ** Printing the tree *)

Definition nodeTypeToString (t : NodeType) : string :=
  match t with
  | NODE_EXPR => "EXPR" | NODE_BOOL => "BOOL" | NODE_DECLS => "DECLS"
  | NODE_STMTS => "STMTS" | NODE_ASSIGN => "ASSIGN" | NODE_IF => "IF"
  | NODE_WHILE => "WHILE" | NODE_FOR => "FOR" | NODE_READ => "READ"
  | NODE_WRITE => "WRITE" | NODE_BLOCK => "BLOCK" | NODE_OP => "OP"
  | NODE_ID => "ID" | NODE_NUM => "NUM" | NODE_FLOAT => "FLOAT"
  | NODE_BOOLVAL => "BOOLVAL" | NODE_TYPE => "TYPE" | NODE_LIST => "LIST"
  end.

(** [for (int i = 0; i < depth; ++i) outFile << "  ";] *)
Fixpoint indent (depth : nat) : string :=
  match depth with
  | 0 => ""
  | S d => "  " ++ indent d
  end.

(** [printTree], what is written for a node that is not null: one string
    for the node (its indentation, its label and its value, the value as it
    is) and then the strings of its children, each string being followed by
    [endl] in the file; a null child writes nothing. Such a string is one
    line of the file when the value holds no newline, and more otherwise. *)
Fixpoint printTree (depth : nat) (node : TreeNode) : list string :=
  match node with
  | Node t v cs =>
      (indent depth ++ "[" ++ nodeTypeToString t ++ "]"
         ++ (if String.eqb v "" then "" else " " ++ v))
      :: flat_map (fun child => match child with
                                | Some n => printTree (S depth) n
                                | None => []
                                end) cs
  end.

(** The number of nodes of a tree, the null children left out. *)
Fixpoint nodes (node : TreeNode) : nat :=
  match node with
  | Node _ _ cs =>
      S (list_sum (map (fun child => match child with
                                     | Some n => nodes n
                                     | None => 0
                                     end) cs))
  end.

(** Induction on trees, through the vector of children. *)
Section TreeInduction.
Variable P : TreeNode -> Prop.
Hypothesis step :
  forall t v cs,
    Forall (fun child => match child with Some n => P n | None => True end) cs ->
    P (Node t v cs).

Fixpoint TreeNode_induction (node : TreeNode) : P node :=
  match node with
  | Node t v cs =>
      step t v cs
        ((fix all (l : list (option TreeNode)) :
            Forall (fun child => match child with
                                 | Some n => P n
                                 | None => True
                                 end) l :=
            match l with
            | [] => Forall_nil _
            | child :: l' =>
                Forall_cons child
                  (match child
                     return match child with Some n => P n | None => True end
                   with
                   | Some n => TreeNode_induction n
                   | None => I
                   end)
                  (all l')
            end) cs)
  end.
End TreeInduction.

End Parse.

(** * The token file

    The scanner writes its tokens to [lex_out.txt], one line each, and the
    parser reads them back from that file with [readTokens]. *)

Module TokenFile.
Import Parse.

Definition QUOTE : ascii := "034"%char.

(** [outFile << token.type]: the number of the enumerator, for the
    enumeration of the scanner and for the one of the parser (which is also
    the one of the scanner drafts without positions). *)
Definition scanner_code (t : Lex.TokenType) : Z :=
  match t with
  | Lex.TOKEN_ID => 0 | Lex.TOKEN_NUM => 1 | Lex.TOKEN_FLOAT => 2
  | Lex.TOKEN_BOOL => 3 | Lex.TOKEN_KEYWORD => 4 | Lex.TOKEN_OP => 5
  | Lex.TOKEN_SEP => 6 | Lex.TOKEN_BIT_OP => 7 | Lex.TOKEN_ERROR => 8
  end%Z.

Definition draft_code (t : TokenType) : Z :=
  match t with
  | TOKEN_ID => 0 | TOKEN_NUM => 1 | TOKEN_FLOAT => 2 | TOKEN_BOOL => 3
  | TOKEN_KEYWORD => 4 | TOKEN_OP => 5 | TOKEN_SEP => 6 | TOKEN_ERROR => 7
  end%Z.

(** The line the scanner writes for a token, without its newline: the type,
    the text in double quotes, the line and the column. *)
Definition scanner_line (t : Lex.Token) : string :=
  "(" ++ to_string (scanner_code (Lex.type t)) ++ ", "
      ++ String QUOTE (Lex.value t ++ String QUOTE
           (", " ++ to_string (Lex.line t) ++ ", "
                 ++ to_string (Lex.column t) ++ ")")).

(** The line the scanner drafts without positions write: the type and the
    text. *)
Definition draft_line (t : Token) : string :=
  "(" ++ to_string (draft_code (type t)) ++ ", " ++ value t ++ ")".

Fixpoint write_lines (ls : list string) : string :=
  match ls with
  | [] => ""
  | l :: rest => l ++ String Lex.NL (write_lines rest)
  end.

(** The file written by the [main] of the scanner. *)
Definition lex_out (src : string) : string :=
  write_lines (map scanner_line (Lex.scan src)).

(** [s.find(c)] and [s.rfind(c)], [None] being [npos]. *)
Fixpoint find_char (c : ascii) (s : string) : option nat :=
  match s with
  | "" => None
  | String a s' =>
      if Ascii.eqb a c then Some 0 else option_map S (find_char c s')
  end.

Fixpoint rfind_char (c : ascii) (s : string) : option nat :=
  match s with
  | "" => None
  | String a s' =>
      match rfind_char c s' with
      | Some i => Some (S i)
      | None => if Ascii.eqb a c then Some 0 else None
      end
  end.

(** [a - b] on [size_t]; [None] is a difference that wrapped around. *)
Definition size_sub (a b : nat) : option nat :=
  if b <=? a then Some (a - b) else None.

(** [s.substr(pos, len)] for [pos <= s.size()]: a length that wrapped
    around reaches beyond the end of the string, and gives the rest of it. *)
Definition substr (s : string) (pos : nat) (len : option nat) : string :=
  match len with
  | Some n => substring pos n s
  | None => substring pos (String.length s) s
  end.

(** [value.erase(remove_if(value.begin(), value.end(), ::isspace),
    value.end())] *)
Fixpoint remove_spaces (s : string) : string :=
  match s with
  | "" => ""
  | String a s' =>
      if Lex.isspace a then remove_spaces s' else String a (remove_spaces s')
  end.

Definition type_of (typeStr : string) : TokenType :=
  if String.eqb typeStr "0" then TOKEN_ID
  else if String.eqb typeStr "1" then TOKEN_NUM
  else if String.eqb typeStr "2" then TOKEN_FLOAT
  else if String.eqb typeStr "3" then TOKEN_BOOL
  else if String.eqb typeStr "4" then TOKEN_KEYWORD
  else if String.eqb typeStr "5" then TOKEN_OP
  else if String.eqb typeStr "6" then TOKEN_SEP
  else TOKEN_ERROR.

(** One turn of the loop of [readTokens]: the token of a line, or [None]
    for a line that is skipped. *)
Definition readLine (line : string) : option Token :=
  if String.eqb line "" then None
  else
    match find_char "(" line, find_char ")" line with
    | Some open, Some _ =>
        let typeStart := open + 1 in
        match find_char "," line with
        | None => None
        | Some typeEnd =>
            let typeStr := substr line typeStart (size_sub typeEnd typeStart) in
            match rfind_char ")" line with
            | None => None
            | Some close =>
                let value :=
                  substr line (typeEnd + 1) (size_sub close (typeEnd + 1)) in
                let value := remove_spaces (remove_spaces value) in
                Some (mkToken (type_of typeStr) value)
            end
        end
    | _, _ => None
    end.

(** The lines [getline] returns, one after the other, for the text of a
    file. *)
Fixpoint getlines (text : string) : list string :=
  match text with
  | "" => []
  | String c rest =>
      if Ascii.eqb c Lex.NL then "" :: getlines rest
      else match getlines rest with
           | [] => [String c ""]
           | l :: ls => String c l :: ls
           end
  end.

(** [readTokens], from the text of the file. *)
Definition readTokens (text : string) : list Token :=
  flat_map (fun line => match readLine line with
                        | Some t => [t]
                        | None => []
                        end) (getlines text).

(** A text with no newline, one with no white space. *)
Definition one_line (v : string) : bool :=
  Lex.string_forall (fun c => negb (Ascii.eqb c Lex.NL)) v.

Definition no_space (v : string) : bool :=
  Lex.string_forall (fun c => negb (Lex.isspace c)) v.

(** What [readTokens] makes of a token of the scanner: the type, with the
    bitwise operators and the errors both read as errors, and as text the
    quoted text, the line and the column. *)
Definition read_type (t : Lex.TokenType) : TokenType :=
  match t with
  | Lex.TOKEN_ID => TOKEN_ID | Lex.TOKEN_NUM => TOKEN_NUM
  | Lex.TOKEN_FLOAT => TOKEN_FLOAT | Lex.TOKEN_BOOL => TOKEN_BOOL
  | Lex.TOKEN_KEYWORD => TOKEN_KEYWORD | Lex.TOKEN_OP => TOKEN_OP
  | Lex.TOKEN_SEP => TOKEN_SEP
  | Lex.TOKEN_BIT_OP | Lex.TOKEN_ERROR => TOKEN_ERROR
  end.

Definition as_read (t : Lex.Token) : Token :=
  mkToken (read_type (Lex.type t))
    (String QUOTE (remove_spaces (Lex.value t) ++ String QUOTE
       ("," ++ to_string (Lex.line t) ++ "," ++ to_string (Lex.column t)))).

(** A token vector whose texts all start with a double quote. *)
Definition quoted (t : Token) : Prop := exists s, value t = String QUOTE s.

(** ** The file of the printed tree *)

(** The text [printTree] writes to the file of [outputTree]. *)
Definition printed (depth : nat) (node : TreeNode) : string :=
  write_lines (printTree depth node).

(** A tree none of whose values holds a newline. *)
Fixpoint plain_values (node : TreeNode) : bool :=
  match node with
  | Node _ v cs =>
      one_line v
      && forallb (fun child => match child with
                               | Some n => plain_values n
                               | None => true
                               end) cs
  end.

End TokenFile.

(** * Properties of the scanner *)

Module LexFacts.
Import Lex.

(** ** The cursor only moves forward, and never past the end *)

Lemma follows_refl L : follows L L.
Proof. repeat split; auto. Qed.

Lemma follows_trans L1 L2 L3 : follows L1 L2 -> follows L2 L3 -> follows L1 L3.
Proof.
  intros (s12 & p12 & b12) (s23 & p23 & b23). rewrite s12 in *.
  repeat split; [congruence | lia | auto].
Qed.

Lemma peek_char L : peek L <> NUL -> pos L < String.length (source L).
Proof.
  unfold peek.
  destruct (Nat.ltb_spec (pos L) (String.length (source L))) as [Hlt|Hge].
  - auto.
  - intros Hn; now elim Hn.
Qed.

Lemma advance_follows L : follows L (snd (advance L)).
Proof.
  unfold advance, follows.
  destruct (Nat.ltb_spec (pos L) (String.length (source L)));
    destruct (Ascii.eqb (peek L) NL); simpl; repeat split; lia.
Qed.

Lemma advance_moves L :
  pos L < String.length (source L) -> pos (snd (advance L)) = S (pos L).
Proof.
  unfold advance. intros Hlt.
  destruct (Nat.ltb_spec (pos L) (String.length (source L))); [|lia].
  now destruct (Ascii.eqb (peek L) NL).
Qed.

Lemma consume_while_follows n cond :
  forall L v, follows L (snd (consume_while n cond L v)).
Proof.
  induction n as [|n IH]; intros L v; simpl.
  - destruct (cond (peek L)); apply follows_refl.
  - destruct (cond (peek L)); [|apply follows_refl].
    pose proof (advance_follows L) as Ha.
    destruct (advance L) as [c L1]; simpl in Ha.
    eapply follows_trans; [exact Ha | apply IH].
Qed.

(** A loop whose condition holds on a real character consumes it. *)
Lemma consume_while_moves n cond L v :
  cond (peek L) = true -> cond NUL = false -> 0 < n ->
  pos L < pos (snd (consume_while n cond L v)).
Proof.
  intros Hc H0 Hn. destruct n as [|n]; [lia|]. simpl. rewrite Hc.
  assert (Hp : pos L < String.length (source L)).
  { apply peek_char. intros E. rewrite E in Hc. congruence. }
  pose proof (advance_moves L Hp) as Hm.
  destruct (advance L) as [c L1]; simpl in Hm.
  pose proof (consume_while_follows n cond L1 (v ++ string1 c)) as (_ & Hle & _).
  lia.
Qed.

Lemma skip_block_follows n : forall L, follows L (snd (skip_block n L)).
Proof.
  induction n as [|n IH]; intros L; simpl.
  - destruct (_ && _); [apply follows_refl|].
    destruct (Ascii.eqb (peek L) NUL); apply follows_refl.
  - destruct (_ && _); [apply follows_refl|].
    destruct (Ascii.eqb (peek L) NUL); [apply follows_refl|].
    eapply follows_trans; [apply advance_follows | apply IH].
Qed.

Lemma advance2_follows L : follows L (snd (advance (snd (advance L)))).
Proof. eapply follows_trans; apply advance_follows. Qed.

Lemma skipWhitespace_loop_follows n :
  forall L, follows L (skipWhitespace_loop n L).
Proof.
  induction n as [|n IH]; intros L; simpl.
  - destruct (_ || _); [apply follows_refl|].
    destruct (_ && _).
    + pose proof (skip_block_follows
                    (chars_left (snd (advance (snd (advance L)))))
                    (snd (advance (snd (advance L))))) as Hb.
      destruct (skip_block _ _) as [[] L2]; simpl in Hb.
      * apply follows_refl.
      * eapply follows_trans; [apply advance2_follows | exact Hb].
    + destruct (isspace (peek L)); apply follows_refl.
  - destruct (_ || _).
    { eapply follows_trans; [apply consume_while_follows | apply IH]. }
    destruct (_ && _).
    + pose proof (skip_block_follows
                    (chars_left (snd (advance (snd (advance L)))))
                    (snd (advance (snd (advance L))))) as Hb.
      destruct (skip_block _ _) as [[] L2]; simpl in Hb.
      * eapply follows_trans; [apply advance2_follows|].
        eapply follows_trans; [exact Hb|].
        eapply follows_trans; [apply advance2_follows | apply IH].
      * eapply follows_trans; [apply advance2_follows | exact Hb].
    + destruct (isspace (peek L)); [|apply follows_refl].
      eapply follows_trans; [apply advance_follows | apply IH].
Qed.

Lemma skipWhitespace_follows L : follows L (skipWhitespace L).
Proof. apply skipWhitespace_loop_follows. Qed.

(** Chains of [follows] facts found among the hypotheses. *)
Ltac follows_chain :=
  simpl;
  first [ assumption
        | apply follows_refl
        | match goal with
          | H : follows ?a ?b |- follows ?a _ =>
              apply (follows_trans _ _ _ H); follows_chain
          end ].

(** One step through a recogniser: name the state after a loop or after an
    [advance], or split on a test. *)
Ltac scan_step :=
  match goal with
  | |- context [if ?b then _ else _] => destruct b
  | |- context [consume_while ?n ?c ?L ?v] =>
      let H := fresh "Hf" in
      pose proof (consume_while_follows n c L v) as H;
      destruct (consume_while n c L v) as [? ?]; simpl in H
  | |- context [advance ?L] =>
      let H := fresh "Hf" in
      pose proof (advance_follows L) as H;
      destruct (advance L) as [? ?]; simpl in H
  end.

Lemma recognizeIdOrKeyword_follows L : follows L (snd (recognizeIdOrKeyword L)).
Proof. unfold recognizeIdOrKeyword. repeat scan_step; follows_chain. Qed.

Lemma recognizeNumber_follows L : follows L (snd (recognizeNumber L)).
Proof. unfold recognizeNumber. repeat scan_step; follows_chain. Qed.

Lemma recognizeOpOrSep_follows L : follows L (snd (recognizeOpOrSep L)).
Proof. unfold recognizeOpOrSep. repeat scan_step; follows_chain. Qed.

Lemma getNextToken_follows L : follows L (snd (getNextToken L)).
Proof.
  unfold getNextToken.
  pose proof (skipWhitespace_follows L) as Hs.
  destruct (_ || _);
    [eapply follows_trans; [exact Hs | apply recognizeIdOrKeyword_follows]|].
  destruct (isdigit _);
    [eapply follows_trans; [exact Hs | apply recognizeNumber_follows]|].
  destruct (_ || _);
    [eapply follows_trans; [exact Hs | apply recognizeOpOrSep_follows]|].
  destruct (Ascii.eqb _ NUL); [exact Hs|].
  repeat scan_step; follows_chain.
Qed.

(** ** Every token but the end sentinel consumes at least one character *)

Lemma id_start c :
  isalpha c || Ascii.eqb c "_" = true ->
  isdigit c = false /\ is_id_char c = true.
Proof.
  destruct c as [[] [] [] [] [] [] [] []]; vm_compute; intuition congruence.
Qed.

Lemma table_char_not_NUL c :
  count operators (string1 c) || count separators (string1 c) = true ->
  c <> NUL.
Proof. intros H E. subst c. vm_compute in H. discriminate. Qed.

Lemma recognizeIdOrKeyword_moves L :
  isalpha (peek L) || Ascii.eqb (peek L) "_" = true ->
  pos L < pos (snd (recognizeIdOrKeyword L)).
Proof.
  intros H. destruct (id_start _ H) as [Hd Hi].
  assert (Hp : pos L < String.length (source L)).
  { apply peek_char. intros E. rewrite E in Hi. vm_compute in Hi. discriminate. }
  pose proof (consume_while_moves (chars_left L) is_id_char L "" Hi eq_refl) as Hm.
  unfold recognizeIdOrKeyword. rewrite Hd.
  destruct (consume_while (chars_left L) is_id_char L "") as [v L1].
  simpl in Hm. unfold chars_left in Hm.
  destruct (count keywords v); simpl; lia.
Qed.

Lemma recognizeNumber_moves L :
  isdigit (peek L) = true -> pos L < pos (snd (recognizeNumber L)).
Proof.
  intros Hd.
  assert (Hp : pos L < String.length (source L)).
  { apply peek_char. intros E. rewrite E in Hd. vm_compute in Hd. discriminate. }
  pose proof (consume_while_moves (chars_left L) isdigit L "" Hd eq_refl) as Hm.
  unfold chars_left in Hm.
  assert (Hgo : forall L1, pos L < pos L1 ->
                follows L1 (snd (recognizeNumber L)) ->
                pos L < pos (snd (recognizeNumber L))).
  { intros L1 H1 (_ & H2 & _). lia. }
  apply (Hgo (snd (consume_while (chars_left L) isdigit L ""))).
  - apply Hm. lia.
  - unfold recognizeNumber.
    destruct (consume_while (chars_left L) isdigit L "") as [v L1]. simpl.
    repeat scan_step; follows_chain.
Qed.

Lemma recognizeOpOrSep_moves L :
  peek L <> NUL -> pos L < pos (snd (recognizeOpOrSep L)).
Proof.
  intros Hn. pose proof (advance_moves L (peek_char L Hn)) as Hm.
  assert (Hf : follows (snd (advance L)) (snd (recognizeOpOrSep L))).
  { unfold recognizeOpOrSep. destruct (advance L) as [c L1]. simpl.
    repeat scan_step; follows_chain. }
  destruct Hf as (_ & Hle & _). lia.
Qed.

(** Progress of the scanner: a call of [getNextToken] either returns the end
    sentinel or moves the cursor forward. *)
Lemma getNextToken_progress L :
  is_end (fst (getNextToken L)) = false ->
  pos L < pos (snd (getNextToken L)).
Proof.
  unfold getNextToken.
  pose proof (skipWhitespace_follows L) as (_ & Hs & _).
  set (L0 := skipWhitespace L) in *.
  destruct (isalpha (peek L0) || Ascii.eqb (peek L0) "_") eqn:Eid.
  { intros _. pose proof (recognizeIdOrKeyword_moves L0 Eid). lia. }
  destruct (isdigit (peek L0)) eqn:Ed.
  { intros _. pose proof (recognizeNumber_moves L0 Ed). lia. }
  destruct (count operators (string1 (peek L0))
            || count separators (string1 (peek L0))) eqn:Eop.
  { intros _.
    pose proof (recognizeOpOrSep_moves L0 (table_char_not_NUL _ Eop)). lia. }
  destruct (Ascii.eqb_spec (peek L0) NUL) as [E0|E0].
  { simpl. discriminate. }
  intros _. pose proof (advance_moves L0 (peek_char L0 E0)) as Hm.
  destruct (advance L0) as [c L1]. simpl in *. lia.
Qed.


(** ** The bounds of the loops are never reached

    Each loop of the scanner goes on only on a character that is not NUL, so
    it ends within the number of characters left, the bound it is given: a
    larger bound gives the same result. *)

Lemma chars_left_advance L :
  pos L < String.length (source L) ->
  chars_left L = S (chars_left (snd (advance L))).
Proof.
  intros H. pose proof (advance_moves L H) as Hm.
  pose proof (advance_follows L) as (Hs & _ & _).
  unfold chars_left. rewrite Hs, Hm. lia.
Qed.

Lemma consume_while_enough cond n :
  cond NUL = false ->
  forall m L v, chars_left L <= n -> chars_left L <= m ->
                consume_while n cond L v = consume_while m cond L v.
Proof.
  intros H0. induction n as [|n IH]; intros m L v Hn Hm.
  - destruct m as [|m]; [reflexivity|]. simpl.
    destruct (cond (peek L)) eqn:Ec; [|reflexivity].
    assert (pos L < String.length (source L)).
    { apply peek_char. intros E. rewrite E in Ec. congruence. }
    unfold chars_left in Hn. lia.
  - simpl. destruct (cond (peek L)) eqn:Ec.
    + assert (Hp : pos L < String.length (source L)).
      { apply peek_char. intros E. rewrite E in Ec. congruence. }
      pose proof (chars_left_advance L Hp) as Hc.
      destruct m as [|m]; [lia|]. simpl. rewrite Ec.
      destruct (advance L) as [c L1]. simpl in Hc. apply IH; lia.
    + destruct m; simpl; now rewrite Ec.
Qed.

Lemma skip_block_enough n :
  forall m L, chars_left L <= n -> chars_left L <= m ->
              skip_block n L = skip_block m L.
Proof.
  induction n as [|n IH]; intros m L Hn Hm.
  - destruct m as [|m]; [reflexivity|]. simpl.
    destruct (_ && _); [reflexivity|].
    destruct (Ascii.eqb_spec (peek L) NUL) as [E|E]; [reflexivity|].
    pose proof (peek_char L E). unfold chars_left in Hn. lia.
  - simpl. destruct (Ascii.eqb (peek L) "*" && Ascii.eqb (peek2 L) "/") eqn:Ec.
    { destruct m; simpl; now rewrite Ec. }
    destruct (Ascii.eqb_spec (peek L) NUL) as [E|E].
    { destruct m; simpl; rewrite Ec;
        destruct (Ascii.eqb_spec (peek L) NUL); congruence. }
    pose proof (chars_left_advance L (peek_char L E)) as Hc.
    destruct m as [|m]; [lia|]. simpl. rewrite Ec.
    destruct (Ascii.eqb_spec (peek L) NUL); [congruence|].
    apply IH; lia.
Qed.

Lemma chars_left_follows L L' :
  follows L L' -> pos L < pos L' -> pos L < String.length (source L) ->
  chars_left L' < chars_left L.
Proof. intros (Hs & _ & _) Hlt Hp. unfold chars_left. rewrite Hs. lia. Qed.

Lemma skipWhitespace_loop_enough n :
  forall m L, chars_left L <= n -> chars_left L <= m ->
              skipWhitespace_loop n L = skipWhitespace_loop m L.
Proof.
  induction n as [|n IH]; intros m L Hn Hm.
  - (* no character left: the cursor is on NUL *)
    assert (Hz : peek L = NUL).
    { unfold peek, chars_left in *.
      destruct (Nat.ltb_spec (pos L) (String.length (source L))); [lia | auto]. }
    destruct m; simpl; rewrite Hz; reflexivity.
  - destruct m as [|m].
    { symmetry. assert (Hz : peek L = NUL).
      { unfold peek, chars_left in *.
        destruct (Nat.ltb_spec (pos L) (String.length (source L)));
          [lia | auto]. }
      simpl. rewrite Hz. reflexivity. }
    simpl.
    destruct (Ascii.eqb (peek L) "#"
              || Ascii.eqb (peek L) "/" && Ascii.eqb (peek2 L) "/") eqn:E1.
    { assert (Hne : not_eol (peek L) = true).
      { unfold not_eol.
        destruct (Ascii.eqb_spec (peek L) "#") as [->|_]; [reflexivity|].
        destruct (Ascii.eqb_spec (peek L) "/") as [->|_];
          [reflexivity | discriminate]. }
      assert (Hp : pos L < String.length (source L)).
      { apply peek_char. intros E. rewrite E in Hne. discriminate. }
      assert (Hl : 0 < chars_left L) by (unfold chars_left; lia).
      pose proof (consume_while_moves (chars_left L) not_eol L ""
                    Hne eq_refl Hl) as Hmv.
      pose proof (consume_while_follows (chars_left L) not_eol L "") as Hf.
      pose proof (chars_left_follows _ _ Hf Hmv Hp).
      apply IH; lia. }
    destruct (Ascii.eqb (peek L) "/" && Ascii.eqb (peek2 L) "*") eqn:E2.
    { apply andb_true_iff in E2. destruct E2 as [E2 _].
      apply Ascii.eqb_eq in E2.
      assert (Hp : pos L < String.length (source L)).
      { apply peek_char. rewrite E2. discriminate. }
      pose proof (advance_moves L Hp) as Hm1.
      pose proof (advance_follows L) as Hf1.
      pose proof (advance_follows (snd (advance L))) as Hf2.
      pose proof (skip_block_follows
                    (chars_left (snd (advance (snd (advance L)))))
                    (snd (advance (snd (advance L))))) as Hf3.
      destruct (skip_block _ _) as [[] L2]; [|reflexivity]. simpl in Hf3.
      pose proof (advance2_follows L2) as Hf4.
      assert (Hf : follows L (snd (advance (snd (advance L2))))).
      { eapply follows_trans; [exact Hf1|].
        eapply follows_trans; [exact Hf2|].
        eapply follows_trans; [exact Hf3 | exact Hf4]. }
      assert (Hlt : pos L < pos (snd (advance (snd (advance L2))))).
      { destruct Hf2 as (_ & Ha & _). destruct Hf3 as (_ & Hb & _).
        destruct Hf4 as (_ & Hc & _). lia. }
      pose proof (chars_left_follows _ _ Hf Hlt Hp).
      apply IH; lia. }
    destruct (isspace (peek L)) eqn:E3; [|reflexivity].
    assert (Hp : pos L < String.length (source L)).
    { apply peek_char. intros E. rewrite E in E3. discriminate. }
    pose proof (chars_left_advance L Hp). apply IH; lia.
Qed.

(** ** The driver reaches the end sentinel within its bound *)

Lemma scan_loop_enough n :
  forall m L, pos L <= String.length (source L) ->
              chars_left L < n -> chars_left L < m ->
              scan_loop n L = scan_loop m L.
Proof.
  induction n as [|n IH]; intros m L Hb Hn Hm; [lia|].
  destruct m as [|m]; [lia|]. simpl.
  pose proof (getNextToken_follows L) as (Hs & _ & Hub).
  pose proof (getNextToken_progress L) as Hp.
  destruct (getNextToken L) as [tok L']. simpl in *.
  destruct (is_end tok); [reflexivity|].
  specialize (Hp eq_refl). specialize (Hub Hb).
  f_equal. unfold chars_left in *.
  apply IH; rewrite Hs; lia.
Qed.

(** [scan] does not depend on its bound: more turns give the same tokens. *)
Corollary scan_complete src n :
  scan_loop (S (String.length src) + n) (Lexer_new src) = scan src.
Proof.
  unfold scan. apply scan_loop_enough; unfold chars_left; simpl; lia.
Qed.

Lemma advance_char L : fst (advance L) = peek L.
Proof. unfold advance. now destruct (Ascii.eqb (peek L) NL). Qed.

Lemma bare_error_value text : value (bare_error ("非法字符: " ++ text)) <> "".
Proof. simpl. discriminate. Qed.

(** ** One-character symbols *)

(** C4 (as amended). At a token start on a symbol character that begins no
    two-character operator, the token kind is the one of the first table, in
    the order operator, bitwise, separator, that holds the character, and a
    character of none of the three tables gives a LexError token, the cursor
    moving past it.  The characters whose first table is the bitwise one are
    left out; a lone ampersand or bar is in the operator table, hence an
    Operator token. *)
Theorem one_char_symbol_kind (L : Lexer) :
  let L0 := skipWhitespace L in
  let ch := peek L0 in
  let two := string1 ch ++ string1 (peek (snd (advance L0))) in
  isalpha ch || Ascii.eqb ch "_" || isdigit ch = false ->
  ch <> NUL ->
  count operators two || count bit_operators two = false ->
  one_char_kind (string1 ch) <> Some TOKEN_BIT_OP ->
  pos (snd (getNextToken L)) = S (pos L0)
  /\ match one_char_kind (string1 ch) with
     | Some k => type (fst (getNextToken L)) = k
                 /\ value (fst (getNextToken L)) = string1 ch
     | None => type (fst (getNextToken L)) = TOKEN_ERROR
               /\ value (fst (getNextToken L)) <> ""
     end.
Proof.
  intros L0 ch two Hsym Hnul Htwo Hbit.
  pose proof (advance_moves L0 (peek_char L0 Hnul)) as Hmove.
  pose proof (advance_char L0) as Hc.
  apply orb_false_iff in Hsym. destruct Hsym as [Hid Hdig].
  unfold getNextToken, recognizeOpOrSep. fold L0.
  subst two. destruct (advance L0) as [c L1] eqn:Ea.
  cbn [snd fst] in Hmove, Hc, Htwo. subst c. fold ch. fold ch in Htwo.
  rewrite Hid, Hdig, Htwo.
  unfold one_char_kind in *.
  destruct (count operators (string1 ch)) eqn:Eop; simpl.
  { split; [exact Hmove | split; reflexivity]. }
  destruct (count bit_operators (string1 ch)) eqn:Ebit.
  { now elim Hbit. }
  destruct (count separators (string1 ch)) eqn:Esep; simpl.
  { split; [exact Hmove | split; reflexivity]. }
  destruct (Ascii.eqb_spec ch NUL) as [E0|E0]; [contradiction|].
  simpl. split; [exact Hmove | split; [reflexivity | discriminate]].
Qed.

Lemma one_char_symbol_kind_witness :
  type (fst (getNextToken (Lexer_new "a |b"))) = TOKEN_ID
  /\ pos (snd (getNextToken (snd (getNextToken (Lexer_new "a |b"))))) = 3
  /\ type (fst (getNextToken (snd (getNextToken (Lexer_new "a |b"))))) = TOKEN_OP
  /\ value (fst (getNextToken (snd (getNextToken (Lexer_new "a |b"))))) = "|".
Proof.
  split; [reflexivity|].
  pose proof (one_char_symbol_kind (snd (getNextToken (Lexer_new "a |b")))) as H.
  cbv zeta in H.
  assert (H1 : isalpha (peek (skipWhitespace (snd (getNextToken (Lexer_new "a |b")))))
               || Ascii.eqb (peek (skipWhitespace (snd (getNextToken (Lexer_new "a |b"))))) "_"
               || isdigit (peek (skipWhitespace (snd (getNextToken (Lexer_new "a |b")))))
               = false) by reflexivity.
  assert (H2 : peek (skipWhitespace (snd (getNextToken (Lexer_new "a |b")))) <> NUL)
    by (vm_compute; discriminate).
  assert (H3 : count operators
                 (string1 (peek (skipWhitespace (snd (getNextToken (Lexer_new "a |b")))))
                  ++ string1 (peek (snd (advance (skipWhitespace (snd (getNextToken (Lexer_new "a |b"))))))))
               || count bit_operators
                 (string1 (peek (skipWhitespace (snd (getNextToken (Lexer_new "a |b")))))
                  ++ string1 (peek (snd (advance (skipWhitespace (snd (getNextToken (Lexer_new "a |b"))))))))
               = false) by reflexivity.
  assert (H4 : one_char_kind
                 (string1 (peek (skipWhitespace (snd (getNextToken (Lexer_new "a |b"))))))
               <> Some TOKEN_BIT_OP) by (vm_compute; discriminate).
  destruct (H H1 H2 H3 H4) as [Hp Hk].
  split; [exact Hp|]. exact Hk.
Defined.

(** C4, the claim as it stands fails: a lone ampersand, and a lone bar, are
    emitted as Operator tokens, not as BitwiseOperator tokens. *)
Lemma lone_ampersand_is_operator :
  map (fun t => (type t, value t)) (scan "&") = [(TOKEN_OP, "&")]
  /\ map (fun t => (type t, value t)) (scan "|") = [(TOKEN_OP, "|")]
  /\ one_char_kind "&" = Some TOKEN_OP
  /\ ~ (exists t, In t (scan "&") /\ type t = TOKEN_BIT_OP).
Proof.
  repeat split; try reflexivity.
  intros (t & Hin & Ht). vm_compute in Hin.
  destruct Hin as [<-|[]]. discriminate.
Qed.

(** ** Positions *)

Lemma char_at_past s : forall i, String.length s <= i -> char_at s i = NUL.
Proof.
  unfold char_at. induction s as [|c s IH]; intros i H; simpl.
  - now destruct i.
  - destruct i as [|i]; simpl in *; [lia|]. apply IH. lia.
Qed.

Lemma position_from_next s :
  forall i ln col, i < String.length s ->
    position_from s (S i) ln col
    = (let (l, c) := position_from s i ln col in
       if Ascii.eqb (char_at s i) NL then (l + 1, 1) else (l, c + 1))%Z.
Proof.
  induction s as [|c s IH]; intros i ln col H; simpl in H; [lia|].
  destruct i as [|i].
  - simpl. unfold char_at. simpl. now destruct (Ascii.eqb c NL).
  - change (char_at (String c s) (S i)) with (char_at s i).
    change (position_from (String c s) (S (S i)) ln col)
      with (if Ascii.eqb c NL then position_from s (S i) (ln + 1)%Z 1%Z
            else position_from s (S i) ln (col + 1)%Z).
    change (position_from (String c s) (S i) ln col)
      with (if Ascii.eqb c NL then position_from s i (ln + 1)%Z 1%Z
            else position_from s i ln (col + 1)%Z).
    destruct (Ascii.eqb c NL); apply IH; lia.
Qed.

Lemma position_from_bounds s :
  forall i ln col, (1 <= col)%Z ->
    (1 <= snd (position_from s i ln col) <= col + Z.of_nat i)%Z.
Proof.
  induction s as [|c s IH]; intros i ln col H.
  - destruct i; simpl; lia.
  - destruct i as [|i]; [simpl; lia|].
    change (position_from (String c s) (S i) ln col)
      with (if Ascii.eqb c NL then position_from s i (ln + 1)%Z 1%Z
            else position_from s i ln (col + 1)%Z).
    destruct (Ascii.eqb c NL).
    + pose proof (IH i (ln + 1)%Z 1%Z). lia.
    + pose proof (IH i ln (col + 1)%Z). lia.
Qed.

Lemma peek_is_char L :
  pos L < String.length (source L) -> peek L = char_at (source L) (pos L).
Proof.
  intros H. unfold peek.
  destruct (Nat.ltb_spec (pos L) (String.length (source L))); [auto | lia].
Qed.

Lemma advance_sync L : peek L <> NUL -> sync L -> sync (snd (advance L)).
Proof.
  intros Hn [Hb Hp]. pose proof (peek_char L Hn) as Hlt.
  pose proof (peek_is_char L Hlt) as Hc.
  unfold sync, advance, position_of in *.
  destruct (Nat.ltb_spec (pos L) (String.length (source L))); [|lia].
  rewrite Hc.
  destruct (Ascii.eqb (char_at (source L) (pos L)) NL) eqn:E;
    cbn [snd source pos cur_line cur_column];
    (split; [lia|]); rewrite position_from_next by exact Hlt;
    rewrite <- Hp, E; reflexivity.
Qed.

Lemma peek_after_advance L :
  pos L < String.length (source L) -> peek (snd (advance L)) = peek2 L.
Proof.
  intros H. pose proof (advance_moves L H) as Hm.
  pose proof (advance_follows L) as (Hs & _ & _).
  unfold peek, peek2. rewrite Hs, Hm, Nat.add_1_r.
  destruct (Nat.ltb_spec (S (pos L)) (String.length (source L))) as [|Hge];
    [reflexivity|].
  symmetry. apply char_at_past. exact Hge.
Qed.

Lemma advance2_sync L :
  peek L <> NUL -> peek2 L <> NUL ->
  sync L -> sync (snd (advance (snd (advance L)))).
Proof.
  intros H1 H2 Hs. apply advance_sync; [|apply advance_sync; assumption].
  rewrite peek_after_advance; [exact H2 | apply peek_char, H1].
Qed.

Lemma consume_while_sync cond n :
  cond NUL = false ->
  forall L v, sync L -> sync (snd (consume_while n cond L v)).
Proof.
  intros H0. induction n as [|n IH]; intros L v Hs; simpl.
  - now destruct (cond (peek L)).
  - destruct (cond (peek L)) eqn:Ec; [|exact Hs].
    assert (Hn : peek L <> NUL) by (intros E; rewrite E in Ec; congruence).
    pose proof (advance_sync L Hn Hs) as Ha.
    destruct (advance L) as [c L1]. apply IH. exact Ha.
Qed.

Lemma skip_block_sync n :
  forall L, sync L -> sync (snd (skip_block n L)).
Proof.
  induction n as [|n IH]; intros L Hs; simpl.
  - destruct (_ && _); [exact Hs|].
    destruct (Ascii.eqb (peek L) NUL); exact Hs.
  - destruct (_ && _); [exact Hs|].
    destruct (Ascii.eqb_spec (peek L) NUL) as [E|E]; [exact Hs|].
    apply IH, advance_sync; assumption.
Qed.

Lemma eqb_not_NUL (c d : ascii) : Ascii.eqb c d = true -> d <> NUL -> c <> NUL.
Proof. intros E Hd. apply Ascii.eqb_eq in E. congruence. Qed.

Lemma skipWhitespace_loop_sync n :
  forall L, sync L -> sync (skipWhitespace_loop n L).
Proof.
  induction n as [|n IH]; intros L Hs; simpl.
  - destruct (_ || _); [exact Hs|].
    destruct (Ascii.eqb (peek L) "/" && Ascii.eqb (peek2 L) "*") eqn:E2.
    + apply andb_true_iff in E2. destruct E2 as [Ea Eb].
      pose proof (skip_block_sync
                    (chars_left (snd (advance (snd (advance L)))))
                    (snd (advance (snd (advance L))))) as Hb.
      destruct (skip_block _ _) as [[] L2]; [exact Hs|].
      apply Hb, advance2_sync;
        [eapply eqb_not_NUL | eapply eqb_not_NUL | exact Hs];
        try eassumption; discriminate.
    + destruct (isspace (peek L)); exact Hs.
  - destruct (_ || _).
    { apply IH, consume_while_sync; [reflexivity | exact Hs]. }
    destruct (Ascii.eqb (peek L) "/" && Ascii.eqb (peek2 L) "*") eqn:E2.
    + apply andb_true_iff in E2. destruct E2 as [Ea Eb].
      assert (Hs1 : sync (snd (advance (snd (advance L))))).
      { apply advance2_sync;
          [eapply eqb_not_NUL | eapply eqb_not_NUL | exact Hs];
          try eassumption; discriminate. }
      pose proof (skip_block_sync
                    (chars_left (snd (advance (snd (advance L))))) _ Hs1)
        as Hb.
      destruct (skip_block _ _) as [[] L2] eqn:Eb2; simpl in Hb;
        [|exact Hb].
      apply IH.
      assert (Hstar : Ascii.eqb (peek L2) "*" && Ascii.eqb (peek2 L2) "/" = true).
      { clear - Eb2. revert Eb2.
        generalize (chars_left (snd (advance (snd (advance L))))).
        generalize (snd (advance (snd (advance L)))).
        intros L0 k. revert L0. induction k as [|k IHk]; intros L0; simpl.
        - destruct (Ascii.eqb (peek L0) "*" && Ascii.eqb (peek2 L0) "/") eqn:E.
          + intros H. injection H as <-. exact E.
          + destruct (Ascii.eqb (peek L0) NUL); discriminate.
        - destruct (Ascii.eqb (peek L0) "*" && Ascii.eqb (peek2 L0) "/") eqn:E.
          + intros H. injection H as <-. exact E.
          + destruct (Ascii.eqb (peek L0) NUL); [discriminate|]. apply IHk. }
      apply andb_true_iff in Hstar. destruct Hstar as [Hc Hd].
      apply advance2_sync;
        [eapply eqb_not_NUL | eapply eqb_not_NUL | exact Hb];
        try eassumption; discriminate.
    + destruct (isspace (peek L)) eqn:E3; [|exact Hs].
      apply IH, advance_sync; [|exact Hs].
      intros E. rewrite E in E3. discriminate.
Qed.

Lemma skipWhitespace_sync L : sync L -> sync (skipWhitespace L).
Proof. apply skipWhitespace_loop_sync. Qed.

Lemma length_app_char v c : String.length (v ++ string1 c) = S (String.length v).
Proof. induction v as [|a v IH]; simpl; [reflexivity | now rewrite IH]. Qed.

Lemma advance_reading L0 L v :
  peek L <> NUL -> peek L <> NL -> reading L0 L v ->
  reading L0 (snd (advance L)) (v ++ string1 (fst (advance L))).
Proof.
  intros Hn Hl [Hs [Hln Hcol]]. split; [apply advance_sync; assumption|].
  unfold on_line. rewrite length_app_char. unfold advance.
  destruct (Ascii.eqb_spec (peek L) NL) as [E|_]; [contradiction|].
  simpl. split; [exact Hln | lia].
Qed.

Lemma consume_while_reading cond n :
  cond NUL = false -> cond NL = false ->
  forall L0 L v, reading L0 L v ->
    reading L0 (snd (consume_while n cond L v)) (fst (consume_while n cond L v)).
Proof.
  intros H0 Hl L0. induction n as [|n IH]; intros L v Hr; simpl.
  - now destruct (cond (peek L)).
  - destruct (cond (peek L)) eqn:Ec; [|exact Hr].
    assert (Hn : peek L <> NUL) by (intros E; rewrite E in Ec; congruence).
    assert (Hnl : peek L <> NL) by (intros E; rewrite E in Ec; congruence).
    pose proof (advance_reading L0 L v Hn Hnl Hr) as Ha.
    destruct (advance L) as [c L1]. apply IH. exact Ha.
Qed.

Lemma to_int_small z : (0 <= z < 2 ^ 31)%Z -> to_int (z mod 2 ^ 64) = z.
Proof.
  intros H. unfold to_int.
  rewrite (Z.mod_small z (2 ^ 64)) by lia.
  rewrite (Z.mod_small (z + 2 ^ 31) (2 ^ 32)) by lia. lia.
Qed.

(** [makeToken] recovers the line and the column where the reading began. *)
Lemma makeToken_position L0 L t v :
  (0 <= cur_column L0 < 2 ^ 31)%Z -> on_line L0 L v ->
  line (makeToken L t v) = cur_line L0
  /\ column (makeToken L t v) = cur_column L0.
Proof.
  intros Hc [Hln Hcol]. unfold makeToken. simpl. rewrite Hcol.
  split; [exact Hln | apply to_int_small, Hc].
Qed.

Lemma placed_token L0 L t v :
  reading L0 L v -> placed L0 (makeToken L t v, L).
Proof.
  intros [Hs Ho]. split; [exact Hs|]. intros Hc _.
  apply makeToken_position; assumption.
Qed.

Lemma placed_error L0 L msg : sync L -> placed L0 (makeError L msg, L).
Proof. intros Hs. split; [exact Hs|]. intros _ H. now elim H. Qed.

Lemma table_char_not_NL c :
  count operators (string1 c) || count separators (string1 c) = true ->
  c <> NL.
Proof. intros H E. subst c. vm_compute in H. discriminate. Qed.

Lemma two_char_second a b :
  count operators (string1 a ++ string1 b)
  || count bit_operators (string1 a ++ string1 b) = true ->
  b <> NUL /\ b <> NL.
Proof.
  intros H. split; intros ->;
    destruct a as [[] [] [] [] [] [] [] []]; vm_compute in H; discriminate.
Qed.

Lemma dot_char c : Ascii.eqb c "." = true -> c <> NUL /\ c <> NL.
Proof. intros E. apply Ascii.eqb_eq in E. subst c. split; discriminate. Qed.

(** One step through a recogniser, the reading so far among the hypotheses. *)
Ltac read_step :=
  match goal with
  | |- context [if ?b then _ else _] => destruct b eqn:?
  | H : reading ?L0 ?L ?v |- context [consume_while ?n ?c ?L ?v] =>
      let H' := fresh "Hr" in
      pose proof (consume_while_reading c n eq_refl eq_refl L0 L v H) as H';
      destruct (consume_while n c L v) as [? ?]; simpl in H'
  | H : reading ?L0 ?L ?v, E : Ascii.eqb (peek ?L) "." = true
    |- context [advance ?L] =>
      let H' := fresh "Hr" in
      pose proof (advance_reading L0 L v (proj1 (dot_char _ E))
                    (proj2 (dot_char _ E)) H) as H';
      destruct (advance L) as [? ?]; simpl in H'
  end.

Ltac read_end :=
  first [ apply placed_error; match goal with H : reading _ _ _ |- _ => apply H end
        | apply placed_token; assumption ].

Lemma reading_start L : sync L -> reading L L "".
Proof. intros Hs. split; [exact Hs|]. split; [reflexivity | simpl; lia]. Qed.

Lemma recognizeIdOrKeyword_placed L :
  sync L -> placed L (recognizeIdOrKeyword L).
Proof.
  intros Hs. pose proof (reading_start L Hs) as Hr0.
  unfold recognizeIdOrKeyword. repeat read_step; read_end.
Qed.

Lemma recognizeNumber_placed L : sync L -> placed L (recognizeNumber L).
Proof.
  intros Hs. pose proof (reading_start L Hs) as Hr0.
  unfold recognizeNumber. repeat read_step; read_end.
Qed.

Lemma recognizeOpOrSep_placed L :
  sync L ->
  count operators (string1 (peek L)) || count separators (string1 (peek L))
  = true ->
  placed L (recognizeOpOrSep L).
Proof.
  intros Hs Hd. pose proof (reading_start L Hs) as Hr0.
  pose proof (advance_reading L L "" (table_char_not_NUL _ Hd)
                (table_char_not_NL _ Hd) Hr0) as Hr1.
  unfold recognizeOpOrSep.
  destruct (advance L) as [c L1]. simpl in Hr1.
  destruct (count operators (string1 c ++ string1 (peek L1))
            || count bit_operators (string1 c ++ string1 (peek L1))) eqn:E2.
  - destruct (two_char_second _ _ E2) as [Hn Hl].
    pose proof (advance_reading L L1 _ Hn Hl Hr1) as Hr2.
    destruct (advance L1) as [c2 L2]. simpl in Hr2.
    apply placed_token; assumption.
  - repeat read_step; read_end.
Qed.

Lemma getNextToken_placed_from L :
  sync L -> placed (skipWhitespace L) (getNextToken L).
Proof.
  intros Hs. pose proof (skipWhitespace_sync L Hs) as Hs0.
  unfold getNextToken.
  destruct (_ || _); [now apply recognizeIdOrKeyword_placed|].
  destruct (isdigit _); [now apply recognizeNumber_placed|].
  destruct (count operators _ || count separators _) eqn:Ed;
    [now apply recognizeOpOrSep_placed|].
  destruct (Ascii.eqb_spec (peek (skipWhitespace L)) NUL) as [E0|E0].
  - split; [exact Hs0|]. intros _ H. now elim H.
  - pose proof (advance_sync _ E0 Hs0) as Ha.
    destruct (advance (skipWhitespace L)) as [c L1]. simpl in Ha.
    split; [exact Ha|]. intros _ H. now elim H.
Qed.

(** Whatever the token, the cursor is in step with the source after it. *)
Lemma getNextToken_sync L : sync L -> sync (snd (getNextToken L)).
Proof. intros Hs. apply (getNextToken_placed_from L Hs). Qed.

(** The position a token that is no LexError records is the line and column
    of the character on which its recognition began, the first one after the
    skipped blanks and comments. *)
Lemma getNextToken_placed L :
  (Z.of_nat (String.length (source L)) < 2 ^ 31 - 1)%Z -> sync L ->
  type (fst (getNextToken L)) <> TOKEN_ERROR ->
  (line (fst (getNextToken L)), column (fst (getNextToken L)))
  = position_of (source L) (pos (skipWhitespace L)).
Proof.
  intros Hlen Hs Ht.
  pose proof (skipWhitespace_sync L Hs) as Hs0.
  pose proof (skipWhitespace_follows L) as (Hsrc & _ & _).
  assert (Hc : (0 <= cur_column (skipWhitespace L) < 2 ^ 31)%Z).
  { destruct Hs0 as [Hb Hp].
    pose proof (position_from_bounds (source (skipWhitespace L))
                  (pos (skipWhitespace L)) 1 1 ltac:(lia)) as Hpb.
    unfold position_of in Hp. rewrite <- Hp in Hpb. cbn [snd] in Hpb.
    rewrite Hsrc in Hb. lia. }
  destruct (getNextToken_placed_from L Hs) as [_ Hpos].
  destruct (Hpos Hc Ht) as [Hl Hcol].
  destruct Hs0 as [_ Hp]. rewrite Hsrc in Hp. rewrite <- Hp. congruence.
Qed.

Lemma scan_starts_tokens n : forall L, map snd (scan_starts n L) = scan_loop n L.
Proof.
  induction n as [|n IH]; intros L; simpl; [reflexivity|].
  destruct (getNextToken L) as [tok L'].
  destruct (is_end tok); simpl; [reflexivity | now rewrite IH].
Qed.

(** Position correctness of the tokens that are no LexError, for every
    source (of less than 2^31 - 1 characters, so that no [int] overflows). *)
Lemma scan_positions src :
  (Z.of_nat (String.length src) < 2 ^ 31 - 1)%Z ->
  Forall (fun it => type (snd it) <> TOKEN_ERROR ->
                    (line (snd it), column (snd it)) = position_of src (fst it))
         (scan_starts (S (String.length src)) (Lexer_new src)).
Proof.
  intros Hlen.
  assert (Hgen : forall n L, source L = src -> sync L ->
            Forall (fun it => type (snd it) <> TOKEN_ERROR ->
                              (line (snd it), column (snd it))
                              = position_of src (fst it))
                   (scan_starts n L)).
  { induction n as [|n IH]; intros L Hsrc Hs; simpl; [constructor|].
    pose proof (getNextToken_placed L) as Hp. rewrite Hsrc in Hp.
    pose proof (Hp Hlen Hs) as Hpos.
    pose proof (getNextToken_sync L Hs) as Hs'.
    pose proof (getNextToken_follows L) as (Hsrc' & _ & _).
    destruct (getNextToken L) as [tok L']. simpl in *.
    destruct (is_end tok); constructor.
    - exact Hpos.
    - apply IH; [congruence | exact Hs']. }
  apply Hgen; [reflexivity|]. split; simpl; [lia | reflexivity].
Qed.

(** ** Positions of error tokens *)

(** [makeError] records the cursor as it is when the error is built, after
    the offending characters. *)
Lemma makeError_position L msg :
  line (makeError L msg) = cur_line L /\ column (makeError L msg) = cur_column L.
Proof. split; reflexivity. Qed.

(** C5, where the scanner departs from the claim. The tokens that are no
    LexError record the line and column of their first character, for every
    source. A LexError token does not: the one of [12abc], whose first
    character is at line 1, column 1, records column 6, the column after the
    run; the one of a character of no table, here at line 1, column 4,
    records line 0 and column 0. *)
Theorem error_token_position :
  (map (fun t => (type t, line t, column t)) (scan "12abc")
   = [(TOKEN_ERROR, 1, 6)%Z]
   /\ position_of "12abc" 0 = (1, 1)%Z)
  /\ (map (fun t => (type t, line t, column t)) (scan "ab @")
      = [(TOKEN_ID, 1, 1)%Z; (TOKEN_ERROR, 0, 0)%Z]
      /\ position_of "ab @" 3 = (1, 4)%Z)
  /\ forall src : string,
       (Z.of_nat (String.length src) < 2 ^ 31 - 1)%Z ->
       map snd (scan_starts (S (String.length src)) (Lexer_new src)) = scan src
       /\ Forall (fun it => type (snd it) <> TOKEN_ERROR ->
                            (line (snd it), column (snd it))
                            = position_of src (fst it))
                 (scan_starts (S (String.length src)) (Lexer_new src)).
Proof.
  split; [split; reflexivity|]. split; [split; reflexivity|].
  intros src Hlen. split; [apply scan_starts_tokens | now apply scan_positions].
Qed.

Lemma error_token_position_witness :
  Forall (fun it => type (snd it) <> TOKEN_ERROR ->
                    (line (snd it), column (snd it))
                    = position_of "ab @" (fst it))
         (scan_starts 5 (Lexer_new "ab @")).
Proof.
  destruct error_token_position as (_ & _ & H).
  destruct (H "ab @") as [_ Hf]; [simpl; lia | exact Hf].
Defined.

(** The characters of the bitwise table alone never reach
    [recognizeOpOrSep]: [getNextToken] sends them to its last branch. *)
Lemma bitwise_only_characters :
  map (fun t => (type t, value t)) (scan "~ ^")
  = [(TOKEN_ERROR, "非法字符: ~"); (TOKEN_ERROR, "非法字符: ^")]
  /\ map (fun t => (type t, value t)) (scan "<< >>")
     = [(TOKEN_BIT_OP, "<<"); (TOKEN_BIT_OP, ">>")].
Proof. split; reflexivity. Qed.

(** ** Lexical errors are tokens, and the scan goes on *)

(** C6. The inputs [12abc] and [1.2.3] each give exactly one token, a
    LexError that takes the whole run (the cursor ends at offset 5); and after
    any LexError token the cursor has moved forward within the same source,
    its line and column are still those of the character it is on, and the
    driver goes on with the next token: no lexical error ends the scan. *)
Theorem lexical_errors_do_not_stop_the_scan :
  (scan "12abc" = [mkToken TOKEN_ERROR "非法数字格式: 12abc at line 1:6" 1 6]
   /\ pos (snd (getNextToken (Lexer_new "12abc"))) = 5)
  /\ (scan "1.2.3" = [mkToken TOKEN_ERROR "非法数字格式: 1.2.3 at line 1:6" 1 6]
      /\ pos (snd (getNextToken (Lexer_new "1.2.3"))) = 5)
  /\ forall L : Lexer,
       type (fst (getNextToken L)) = TOKEN_ERROR ->
       value (fst (getNextToken L)) <> "" ->
       pos L < pos (snd (getNextToken L))
       /\ follows L (snd (getNextToken L))
       /\ (sync L -> sync (snd (getNextToken L)))
       /\ forall n, scan_loop (S n) L
                    = fst (getNextToken L) :: scan_loop n (snd (getNextToken L)).
Proof.
  split; [split; reflexivity|]. split; [split; reflexivity|].
  intros L Ht Hv.
  assert (He : is_end (fst (getNextToken L)) = false).
  { unfold is_end. rewrite Ht. simpl.
    destruct (String.eqb_spec (value (fst (getNextToken L))) ""); congruence. }
  split; [apply getNextToken_progress; exact He|].
  split; [apply getNextToken_follows|].
  split; [apply getNextToken_sync|].
  intros n. simpl. destruct (getNextToken L) as [tok L']. simpl in *.
  now rewrite He.
Qed.

Lemma lexical_errors_do_not_stop_the_scan_witness :
  pos (Lexer_new "1.2.3.4 x") < pos (snd (getNextToken (Lexer_new "1.2.3.4 x")))
  /\ map type (scan "1.2.3.4 x")
     = [TOKEN_ERROR; TOKEN_ERROR; TOKEN_NUM; TOKEN_ID].
Proof.
  destruct lexical_errors_do_not_stop_the_scan as (_ & _ & H).
  destruct (H (Lexer_new "1.2.3.4 x")) as (Hp & _ & _ & _).
  - reflexivity.
  - vm_compute. discriminate.
  - split; [exact Hp | reflexivity].
Defined.


(** * Further properties of the scanner *)

(** ** The number of tokens *)

Lemma scan_loop_length n :
  forall L, pos L <= String.length (source L) ->
            List.length (scan_loop n L) <= chars_left L.
Proof.
  induction n as [|n IH]; intros L Hb; simpl; [lia|].
  pose proof (getNextToken_follows L) as (Hs & _ & Hub).
  pose proof (getNextToken_progress L) as Hp.
  destruct (getNextToken L) as [tok L']. simpl in *.
  destruct (is_end tok); simpl; [lia|].
  specialize (Hp eq_refl). specialize (Hub Hb).
  assert (Hb' : pos L' <= String.length (source L')) by (rewrite Hs; exact Hub).
  specialize (IH L' Hb'). unfold chars_left in *. rewrite Hs in IH. lia.
Qed.

(** X1. The driver ends: whatever the bound above the length of the source,
    the tokens are the same, and there are at most as many tokens as the
    source has characters. *)
Theorem scan_is_bounded (src : string) (n : nat) :
  scan_loop (S (String.length src) + n) (Lexer_new src) = scan src
  /\ List.length (scan src) <= String.length src.
Proof.
  split; [apply scan_complete|].
  pose proof (scan_loop_length (S (String.length src)) (Lexer_new src)
                (Nat.le_0_l _)) as H.
  change (chars_left (Lexer_new src)) with (String.length src - 0) in H.
  unfold scan. lia.
Qed.

(** ** What [skipWhitespace] leaves under the cursor *)

Lemma peek_none L : chars_left L = 0 -> peek L = NUL.
Proof.
  unfold chars_left, peek. intros H.
  destruct (Nat.ltb_spec (pos L) (String.length (source L))); [lia | auto].
Qed.

Lemma starts_blank_NUL L : peek L = NUL -> starts_blank L = false.
Proof. intros H. unfold starts_blank. rewrite H. reflexivity. Qed.

Lemma skip_block_false n :
  forall L, chars_left L <= n -> fst (skip_block n L) = false ->
            peek (snd (skip_block n L)) = NUL.
Proof.
  induction n as [|n IH]; intros L Hn; simpl.
  - destruct (_ && _); simpl; [discriminate|].
    destruct (Ascii.eqb_spec (peek L) NUL) as [E|E]; simpl; [auto|].
    intros _. apply peek_none. lia.
  - destruct (_ && _); simpl; [discriminate|].
    destruct (Ascii.eqb_spec (peek L) NUL) as [E|E]; simpl; [auto|].
    pose proof (chars_left_advance L (peek_char L E)). apply IH. lia.
Qed.

Lemma skipWhitespace_loop_id n L :
  starts_blank L = false -> skipWhitespace_loop n L = L.
Proof.
  unfold starts_blank. intros H.
  apply orb_false_iff in H. destruct H as [H H3].
  apply orb_false_iff in H. destruct H as [H1 H2].
  destruct n; simpl; now rewrite H1, H2, H3.
Qed.

Lemma skipWhitespace_loop_done n :
  forall L, chars_left L <= n -> starts_blank (skipWhitespace_loop n L) = false.
Proof.
  induction n as [|n IH]; intros L Hn.
  - assert (Hz : peek L = NUL) by (apply peek_none; lia).
    rewrite skipWhitespace_loop_id; apply starts_blank_NUL; exact Hz.
  - simpl.
    destruct (Ascii.eqb (peek L) "#"
              || Ascii.eqb (peek L) "/" && Ascii.eqb (peek2 L) "/") eqn:E1.
    { assert (Hne : not_eol (peek L) = true).
      { unfold not_eol.
        destruct (Ascii.eqb_spec (peek L) "#") as [->|_]; [reflexivity|].
        destruct (Ascii.eqb_spec (peek L) "/") as [->|_];
          [reflexivity | discriminate]. }
      assert (Hp : pos L < String.length (source L)).
      { apply peek_char. intros E. rewrite E in Hne. discriminate. }
      assert (Hl : 0 < chars_left L) by (unfold chars_left; lia).
      pose proof (consume_while_moves (chars_left L) not_eol L ""
                    Hne eq_refl Hl) as Hmv.
      pose proof (consume_while_follows (chars_left L) not_eol L "") as Hf.
      pose proof (chars_left_follows _ _ Hf Hmv Hp).
      apply IH. lia. }
    destruct (Ascii.eqb (peek L) "/" && Ascii.eqb (peek2 L) "*") eqn:E2.
    { pose proof E2 as E2'. apply andb_true_iff in E2'. destruct E2' as [Ea _].
      apply Ascii.eqb_eq in Ea.
      assert (Hp : pos L < String.length (source L)).
      { apply peek_char. rewrite Ea. discriminate. }
      pose proof (advance_follows L) as Hf1.
      pose proof (advance_follows (snd (advance L))) as Hf2.
      pose proof (skip_block_follows
                    (chars_left (snd (advance (snd (advance L)))))
                    (snd (advance (snd (advance L))))) as Hf3.
      pose proof (skip_block_false
                    (chars_left (snd (advance (snd (advance L)))))
                    (snd (advance (snd (advance L)))) (Nat.le_refl _)) as Hnul.
      pose proof (advance_moves L Hp) as Hm1.
      destruct (skip_block _ _) as [[] L2]; simpl in Hf3, Hnul.
      - pose proof (advance2_follows L2) as Hf4.
        assert (Hf : follows L (snd (advance (snd (advance L2))))).
        { eapply follows_trans; [exact Hf1|].
          eapply follows_trans; [exact Hf2|].
          eapply follows_trans; [exact Hf3 | exact Hf4]. }
        assert (Hlt : pos L < pos (snd (advance (snd (advance L2))))).
        { destruct Hf2 as (_ & Ha & _). destruct Hf3 as (_ & Hb & _).
          destruct Hf4 as (_ & Hc & _). lia. }
        pose proof (chars_left_follows _ _ Hf Hlt Hp).
        apply IH. lia.
      - apply starts_blank_NUL, Hnul. reflexivity. }
    destruct (isspace (peek L)) eqn:E3.
    { assert (Hp : pos L < String.length (source L)).
      { apply peek_char. intros E. rewrite E in E3. discriminate. }
      pose proof (chars_left_advance L Hp). apply IH. lia. }
    unfold starts_blank. now rewrite E1, E2, E3.
Qed.

(** X2. After [skipWhitespace] the cursor is on no blank and at the start of
    no comment (it is on the first character of a token, or on NUL), so a
    second call changes nothing. *)
Theorem skipWhitespace_idempotent (L : Lexer) :
  starts_blank (skipWhitespace L) = false
  /\ skipWhitespace (skipWhitespace L) = skipWhitespace L.
Proof.
  assert (H : starts_blank (skipWhitespace L) = false)
    by (apply skipWhitespace_loop_done; lia).
  split; [exact H|]. apply skipWhitespace_loop_id, H.
Qed.

(** ** The text of a token *)

Lemma app_char_assoc v c w : (v ++ string1 c) ++ w = v ++ String c w.
Proof. induction v as [|a v IH]; simpl; [reflexivity | now rewrite IH]. Qed.

Lemma app_empty_r v : v ++ "" = v.
Proof. induction v as [|a v IH]; simpl; [reflexivity | now rewrite IH]. Qed.

Lemma substring_zero s : forall a, substring a 0 s = "".
Proof.
  induction s as [|c s IH]; intros [|a]; simpl; try reflexivity. apply IH.
Qed.

Lemma substring_snoc s :
  forall a k, a + k < String.length s ->
    substring a (S k) s = substring a k s ++ string1 (char_at s (a + k)).
Proof.
  induction s as [|c s IH]; intros a k H; simpl in H; [lia|].
  destruct a as [|a].
  - destruct k as [|k].
    + simpl. now rewrite substring_zero.
    + change (substring 0 (S (S k)) (String c s))
        with (String c (substring 0 (S k) s)).
      change (substring 0 (S k) (String c s))
        with (String c (substring 0 k s)).
      change (char_at (String c s) (0 + S k)) with (char_at s (0 + k)).
      rewrite IH by (simpl; lia). reflexivity.
  - change (substring (S a) (S k) (String c s)) with (substring a (S k) s).
    change (substring (S a) k (String c s)) with (substring a k s).
    change (char_at (String c s) (S a + k)) with (char_at s (a + k)).
    apply IH. lia.
Qed.

Lemma spelled_start L :
  pos L <= String.length (source L) -> spelled L L "".
Proof.
  intros H. repeat split; try lia.
  rewrite Nat.sub_diag. symmetry. apply substring_zero.
Qed.

Lemma advance_spelled L0 L v :
  peek L <> NUL -> spelled L0 L v ->
  spelled L0 (snd (advance L)) (v ++ string1 (fst (advance L))).
Proof.
  intros Hn (Hs & [Hlo Hhi] & Hv).
  pose proof (peek_char L Hn) as Hlt.
  pose proof (advance_moves L Hlt) as Hm.
  pose proof (advance_follows L) as (Hs' & _ & _).
  rewrite advance_char, (peek_is_char L Hlt).
  repeat split.
  - congruence.
  - lia.
  - rewrite <- Hs. lia.
  - rewrite Hm. replace (S (pos L) - pos L0) with (S (pos L - pos L0)) by lia.
    rewrite substring_snoc by (rewrite <- Hs; lia).
    rewrite <- Hv, Hs. do 3 f_equal. lia.
Qed.

Lemma consume_while_spelled cond n :
  cond NUL = false ->
  forall L0 L v, spelled L0 L v ->
    spelled L0 (snd (consume_while n cond L v)) (fst (consume_while n cond L v)).
Proof.
  intros H0 L0. induction n as [|n IH]; intros L v Hr; simpl.
  - now destruct (cond (peek L)).
  - destruct (cond (peek L)) eqn:Ec; [|exact Hr].
    assert (Hn : peek L <> NUL) by (intros E; rewrite E in Ec; congruence).
    pose proof (advance_spelled L0 L v Hn Hr) as Ha.
    destruct (advance L) as [c L1]. apply IH. exact Ha.
Qed.

(** One step through a recogniser, the text so far among the hypotheses. *)
Ltac spell_step :=
  match goal with
  | |- context [if ?b then _ else _] => destruct b eqn:?
  | H : spelled ?L0 ?L ?v |- context [consume_while ?n ?c ?L ?v] =>
      let H' := fresh "Hsp" in
      pose proof (consume_while_spelled c n eq_refl L0 L v H) as H';
      destruct (consume_while n c L v) as [? ?]; simpl in H'
  | H : spelled ?L0 ?L ?v, E : Ascii.eqb (peek ?L) "." = true
    |- context [advance ?L] =>
      let H' := fresh "Hsp" in
      pose proof (advance_spelled L0 L v (proj1 (dot_char _ E)) H) as H';
      destruct (advance L) as [? ?]; simpl in H'
  end.

Ltac spell_end :=
  simpl; intros Hty;
  first [ now elim Hty
        | match goal with
          | H : spelled _ ?L ?v |- ?v = substring _ (pos ?L - _) _ =>
              exact (proj2 (proj2 H))
          end ].

Lemma recognizeIdOrKeyword_text L :
  pos L <= String.length (source L) ->
  type (fst (recognizeIdOrKeyword L)) <> TOKEN_ERROR ->
  value (fst (recognizeIdOrKeyword L))
  = substring (pos L) (pos (snd (recognizeIdOrKeyword L)) - pos L) (source L).
Proof.
  intros Hb. pose proof (spelled_start L Hb) as Hsp0.
  unfold recognizeIdOrKeyword. repeat spell_step; spell_end.
Qed.

Lemma recognizeNumber_text L :
  pos L <= String.length (source L) ->
  type (fst (recognizeNumber L)) <> TOKEN_ERROR ->
  value (fst (recognizeNumber L))
  = substring (pos L) (pos (snd (recognizeNumber L)) - pos L) (source L).
Proof.
  intros Hb. pose proof (spelled_start L Hb) as Hsp0.
  unfold recognizeNumber. repeat spell_step; spell_end.
Qed.

Lemma recognizeOpOrSep_text L :
  pos L <= String.length (source L) ->
  count operators (string1 (peek L)) || count separators (string1 (peek L))
  = true ->
  type (fst (recognizeOpOrSep L)) <> TOKEN_ERROR ->
  value (fst (recognizeOpOrSep L))
  = substring (pos L) (pos (snd (recognizeOpOrSep L)) - pos L) (source L).
Proof.
  intros Hb Hd. pose proof (spelled_start L Hb) as Hsp0.
  pose proof (advance_spelled L L "" (table_char_not_NUL _ Hd) Hsp0) as Hsp1.
  unfold recognizeOpOrSep.
  destruct (advance L) as [c L1]. simpl in Hsp1.
  destruct (count operators (string1 c ++ string1 (peek L1))
            || count bit_operators (string1 c ++ string1 (peek L1))) eqn:E2.
  - destruct (two_char_second _ _ E2) as [Hn _].
    pose proof (advance_spelled L L1 _ Hn Hsp1) as Hsp2.
    destruct (advance L1) as [c2 L2]. simpl in Hsp2.
    spell_end.
  - repeat spell_step; spell_end.
Qed.

(** X3. The lexeme of a token that is no LexError is the exact text of the
    source from the first character after the skipped blanks and comments to
    the cursor after the token. *)
Theorem token_text (L : Lexer) :
  pos L <= String.length (source L) ->
  type (fst (getNextToken L)) <> TOKEN_ERROR ->
  value (fst (getNextToken L))
  = substring (pos (skipWhitespace L))
      (pos (snd (getNextToken L)) - pos (skipWhitespace L)) (source L).
Proof.
  intros Hb.
  pose proof (skipWhitespace_follows L) as (Hsrc & _ & Hub).
  specialize (Hub Hb). rewrite <- Hsrc in Hub. rewrite <- Hsrc.
  unfold getNextToken.
  destruct (_ || _); [now apply recognizeIdOrKeyword_text|].
  destruct (isdigit _); [now apply recognizeNumber_text|].
  destruct (count operators _ || count separators _) eqn:Ed;
    [now apply recognizeOpOrSep_text|].
  destruct (Ascii.eqb (peek (skipWhitespace L)) NUL).
  - intros H. now elim H.
  - destruct (advance (skipWhitespace L)). intros H. now elim H.
Qed.

Lemma token_text_witness :
  value (fst (getNextToken (Lexer_new "  /* c */ while(x)"))) = "while".
Proof.
  exact (token_text (Lexer_new "  /* c */ while(x)")
           ltac:(simpl; lia) ltac:(vm_compute; discriminate)).
Defined.

(** ** Identifiers and keywords *)

Lemma string_forall_one cond c w :
  cond c = true -> string_forall cond w = true ->
  string_forall cond (String c w) = true.
Proof. intros Hc Hw. simpl. now rewrite Hc, Hw. Qed.

(** What a loop [while (cond(peek())) value += advance();] appends: a run
    of characters that satisfy [cond], up to a character that does not. *)
Lemma consume_while_spec cond n :
  cond NUL = false ->
  forall L v, chars_left L <= n ->
    exists w,
      fst (consume_while n cond L v) = v ++ w
      /\ string_forall cond w = true
      /\ cond (peek (snd (consume_while n cond L v))) = false
      /\ (cond (peek L) = true -> w <> "").
Proof.
  intros H0. induction n as [|n IH]; intros L v Hn; simpl.
  - destruct (cond (peek L)) eqn:Ec.
    + assert (pos L < String.length (source L)).
      { apply peek_char. intros E. rewrite E in Ec. congruence. }
      unfold chars_left in Hn. lia.
    + exists "". rewrite app_empty_r. simpl. repeat split; auto. discriminate.
  - destruct (cond (peek L)) eqn:Ec.
    + assert (Hp : pos L < String.length (source L)).
      { apply peek_char. intros E. rewrite E in Ec. congruence. }
      pose proof (chars_left_advance L Hp) as Hc.
      pose proof (advance_char L) as Hch.
      destruct (advance L) as [c L1]. simpl in Hc, Hch. subst c.
      destruct (IH L1 (v ++ string1 (peek L)) ltac:(lia))
        as (w & Hw & Hall & Hstop & _).
      exists (String (peek L) w). rewrite Hw, app_char_assoc.
      repeat split; auto.
      * now apply string_forall_one.
      * discriminate.
    + exists "". rewrite app_empty_r. simpl. repeat split; auto. discriminate.
Qed.

(** X4. At a letter or an underscore the scanner takes the longest run of
    letters, digits and underscores: the lexeme is not empty and holds only
    such characters, the character after it is none, and the kind is the one
    the keyword table gives the lexeme, Identifier when it has none. *)
Theorem identifier_token (L : Lexer) :
  isalpha (peek (skipWhitespace L))
  || Ascii.eqb (peek (skipWhitespace L)) "_" = true ->
  value (fst (getNextToken L)) <> ""
  /\ string_forall is_id_char (value (fst (getNextToken L))) = true
  /\ is_id_char (peek (snd (getNextToken L))) = false
  /\ type (fst (getNextToken L))
     = match find keywords (value (fst (getNextToken L))) with
       | Some t => t
       | None => TOKEN_ID
       end.
Proof.
  intros H. destruct (id_start _ H) as [Hd Hi].
  unfold getNextToken. rewrite H. unfold recognizeIdOrKeyword. rewrite Hd.
  destruct (consume_while_spec is_id_char (chars_left (skipWhitespace L))
              eq_refl (skipWhitespace L) "" (Nat.le_refl _))
    as (w & Hw & Hall & Hstop & Hne).
  destruct (consume_while _ is_id_char (skipWhitespace L) "") as [v L1].
  simpl in Hw, Hstop. subst v. specialize (Hne Hi).
  unfold count, at_key.
  destruct (find keywords w) as [t|] eqn:Ef;
    cbn [fst snd value type makeToken]; rewrite Ef; repeat split; auto.
Qed.

Lemma identifier_token_witness :
  type (fst (getNextToken (Lexer_new " floaty = 1")))
  = match find keywords (value (fst (getNextToken (Lexer_new " floaty = 1")))) with
    | Some t => t
    | None => TOKEN_ID
    end.
Proof.
  exact (proj2 (proj2 (proj2
           (identifier_token (Lexer_new " floaty = 1") eq_refl)))).
Defined.

(** ** Numbers *)

Lemma digit_start c :
  isdigit c = true -> isalpha c || Ascii.eqb c "_" = false.
Proof.
  destruct c as [[] [] [] [] [] [] [] []]; vm_compute; intuition congruence.
Qed.

(** X5. A number token is never cut short. At a digit, a token that is no
    LexError is an IntLiteral made of digits only, or a FloatLiteral made of
    digits, one decimal point and digits; and the character after it is no
    digit, no decimal point, no letter and no underscore. *)
Theorem number_token (L : Lexer) :
  isdigit (peek (skipWhitespace L)) = true ->
  type (fst (getNextToken L)) <> TOKEN_ERROR ->
  (isdigit (peek (snd (getNextToken L)))
   || Ascii.eqb (peek (snd (getNextToken L))) "."
   || is_alpha_or_underscore (peek (snd (getNextToken L))) = false)
  /\ ((type (fst (getNextToken L)) = TOKEN_NUM
       /\ value (fst (getNextToken L)) <> ""
       /\ string_forall isdigit (value (fst (getNextToken L))) = true)
      \/ (type (fst (getNextToken L)) = TOKEN_FLOAT
          /\ exists i f,
               value (fst (getNextToken L)) = i ++ "." ++ f
               /\ i <> "" /\ f <> ""
               /\ string_forall isdigit i = true
               /\ string_forall isdigit f = true)).
Proof.
  intros Hd. unfold getNextToken. rewrite (digit_start _ Hd), Hd.
  unfold recognizeNumber.
  destruct (consume_while_spec isdigit (chars_left (skipWhitespace L))
              eq_refl (skipWhitespace L) "" (Nat.le_refl _))
    as (w1 & Hw1 & Hall1 & Hstop1 & Hne1).
  specialize (Hne1 Hd).
  destruct (consume_while _ isdigit (skipWhitespace L) "") as [v1 L1].
  simpl in Hw1, Hstop1. subst v1.
  destruct (Ascii.eqb (peek L1) ".") eqn:E1.
  - pose proof (advance_char L1) as Hc.
    destruct (advance L1) as [c La]. simpl in Hc. subst c.
    apply Ascii.eqb_eq in E1. rewrite E1.
    destruct (isdigit (peek La)) eqn:E2; cbn [negb].
    + destruct (consume_while_spec isdigit (chars_left La) eq_refl La
                  (w1 ++ string1 ".") (Nat.le_refl _))
        as (w2 & Hw2 & Hall2 & Hstop2 & Hne2).
      specialize (Hne2 E2).
      destruct (consume_while _ isdigit La (w1 ++ string1 ".")) as [v2 Lb].
      simpl in Hw2, Hstop2. subst v2.
      destruct (Ascii.eqb (peek Lb) ".") eqn:E3.
      * destruct (advance Lb) as [c2 Lc].
        destruct (consume_while _ isdigit Lc _) as [v3 Ld].
        destruct (is_alpha_or_underscore (peek Ld));
          [destruct (consume_while _ is_id_char Ld v3)|];
          simpl; intros Ht; now elim Ht.
      * destruct (is_alpha_or_underscore (peek Lb)) eqn:E4.
        { destruct (consume_while _ is_id_char Lb _).
          simpl. intros Ht. now elim Ht. }
        simpl. intros _. rewrite Hstop2, E3, E4. split; [reflexivity|].
        right. split; [reflexivity|]. exists w1, w2.
        rewrite app_char_assoc. repeat split; auto.
    + destruct (Ascii.eqb (peek La) ".").
      * destruct (advance La) as [c2 Lc].
        destruct (consume_while _ isdigit Lc _) as [v3 Ld].
        destruct (is_alpha_or_underscore (peek Ld));
          [destruct (consume_while _ is_id_char Ld v3)|];
          simpl; intros Ht; now elim Ht.
      * destruct (is_alpha_or_underscore (peek La));
          [destruct (consume_while _ is_id_char La _)|];
          simpl; intros Ht; now elim Ht.
  - destruct (is_alpha_or_underscore (peek L1)) eqn:E4.
    { destruct (consume_while _ is_id_char L1 _).
      simpl. intros Ht. now elim Ht. }
    simpl. intros _. rewrite Hstop1, E1, E4. split; [reflexivity|].
    left. repeat split; auto.
Qed.

Lemma number_token_witness :
  type (fst (getNextToken (Lexer_new "x = 3.14;")))
  = TOKEN_ID
  /\ is_alpha_or_underscore
       (peek (snd (getNextToken
                     (snd (getNextToken (snd (getNextToken
                                                (Lexer_new "x = 3.14;"))))))))
     = false.
Proof.
  split; [reflexivity|].
  destruct (number_token
              (snd (getNextToken (snd (getNextToken (Lexer_new "x = 3.14;")))))
              eq_refl ltac:(vm_compute; discriminate)) as [Hnext _].
  apply orb_false_iff in Hnext. apply Hnext.
Defined.

(** ** Two-character operators *)

Lemma operators_kind k : count operators k = true -> at_key operators k = TOKEN_OP.
Proof.
  unfold count, at_key, operators. cbn [find].
  repeat match goal with
  | |- context [String.eqb ?a k] => destruct (String.eqb a k)
  end; intros; first [reflexivity | discriminate].
Qed.

Lemma bit_operators_kind k :
  count bit_operators k = true -> at_key bit_operators k = TOKEN_BIT_OP.
Proof.
  unfold count, at_key, bit_operators. cbn [find].
  repeat match goal with
  | |- context [String.eqb ?a k] => destruct (String.eqb a k)
  end; intros; first [reflexivity | discriminate].
Qed.

(** The first character of a two-character operator is itself an operator. *)
Lemma two_char_first a b :
  count operators (string1 a ++ string1 b)
  || count bit_operators (string1 a ++ string1 b) = true ->
  count operators (string1 a) = true.
Proof.
  intros H.
  destruct a as [[] [] [] [] [] [] [] []]; try reflexivity;
    cbv in H; discriminate.
Qed.

Lemma operator_char c :
  count operators (string1 c) = true ->
  isalpha c || Ascii.eqb c "_" = false /\ isdigit c = false /\ c <> NUL.
Proof.
  intros H. split; [|split].
  - destruct c as [[] [] [] [] [] [] [] []]; try reflexivity;
      vm_compute in H; discriminate.
  - destruct c as [[] [] [] [] [] [] [] []]; try reflexivity;
      vm_compute in H; discriminate.
  - intros E. subst c. vm_compute in H. discriminate.
Qed.

(** X6. The longest operator wins. When the character at the start of a
    token and the one after it form a two-character entry of the operator or
    of the bitwise table, the token is this entry, of the kind of its table
    (the operator table first), and the cursor moves past both characters. *)
Theorem two_char_operator (L : Lexer) :
  let L0 := skipWhitespace L in
  let two := string1 (peek L0) ++ string1 (peek2 L0) in
  count operators two || count bit_operators two = true ->
  type (fst (getNextToken L))
  = (if count operators two then TOKEN_OP else TOKEN_BIT_OP)
  /\ value (fst (getNextToken L)) = two
  /\ pos (snd (getNextToken L)) = pos L0 + 2.
Proof.
  intros L0 two Htwo. subst two.
  pose proof (two_char_first _ _ Htwo) as Hop.
  destruct (operator_char _ Hop) as (Hid & Hdig & Hnul).
  pose proof (peek_char L0 Hnul) as Hlt.
  pose proof (peek_after_advance L0 Hlt) as Hnext.
  pose proof (advance_moves L0 Hlt) as Hm1.
  pose proof (advance_char L0) as Hc1.
  unfold getNextToken. fold L0. rewrite Hid, Hdig, Hop. cbn [orb].
  unfold recognizeOpOrSep.
  destruct (advance L0) as [c L1]. cbn [fst snd] in Hnext, Hm1, Hc1. subst c.
  rewrite Hnext, Htwo.
  destruct (two_char_second _ _ Htwo) as [Hn2 _].
  rewrite <- Hnext in Hn2.
  pose proof (advance_moves L1 (peek_char L1 Hn2)) as Hm2.
  pose proof (advance_char L1) as Hc2.
  destruct (advance L1) as [c2 L2]. cbn [fst snd] in Hm2, Hc2. subst c2.
  cbn [fst snd type value makeToken]. rewrite Hnext.
  split; [|split; [reflexivity | lia]].
  destruct (count operators (string1 (peek L0) ++ string1 (peek2 L0))) eqn:E.
  - now apply operators_kind.
  - apply bit_operators_kind. exact Htwo.
Qed.

Lemma two_char_operator_witness :
  type (fst (getNextToken (Lexer_new ">>= 1"))) = TOKEN_BIT_OP
  /\ value (fst (getNextToken (Lexer_new ">>= 1"))) = ">>"
  /\ pos (snd (getNextToken (Lexer_new ">>= 1"))) = 2.
Proof. exact (two_char_operator (Lexer_new ">>= 1") eq_refl). Defined.

(** ** A block comment that is not closed *)




End LexFacts.

(** * Properties of the parser *)

Module ParseFacts.
Import Parse.

(** ** The token accessors *)

Lemma keeps_refl P : keeps P P.
Proof. split; auto. Qed.

Lemma keeps_trans P1 P2 P3 : keeps P1 P2 -> keeps P2 P3 -> keeps P1 P3.
Proof. intros [t12 w12] [t23 w23]. split; [congruence | auto]. Qed.

Lemma isAtEnd_false_lt P : isAtEnd P = false -> current P < size P.
Proof.
  unfold isAtEnd, peek.
  destruct (Nat.ltb_spec (current P) (size P)) as [Hlt|Hge]; [auto|].
  simpl. discriminate.
Qed.

Lemma advance_keeps P : keeps P (snd (advance P)).
Proof.
  unfold advance. destruct (isAtEnd P) eqn:E; simpl; [apply keeps_refl|].
  pose proof (isAtEnd_false_lt P E) as Hlt.
  split; [reflexivity|]. unfold wf, size in *. simpl. lia.
Qed.

Lemma advance_consumes P :
  isAtEnd P = false -> remaining (snd (advance P)) + 1 <= remaining P.
Proof.
  intros H. pose proof (isAtEnd_false_lt P H) as Hlt.
  unfold advance. rewrite H. simpl. unfold remaining, size in *. simpl. lia.
Qed.

Lemma advance_mono P : remaining (snd (advance P)) <= remaining P.
Proof.
  destruct (isAtEnd P) eqn:E.
  - unfold advance. rewrite E. simpl. lia.
  - pose proof (advance_consumes P E). lia.
Qed.

Lemma check_tv_not_end P t v : check_tv P t v = true -> isAtEnd P = false.
Proof. unfold check_tv. destruct (isAtEnd P); [discriminate | auto]. Qed.

Lemma check_t_not_end P t : check_t P t = true -> isAtEnd P = false.
Proof. unfold check_t. destruct (isAtEnd P); [discriminate | auto]. Qed.

(** ** A weakest-precondition reading of the parser's computations *)

Lemma runs_ret {A} (a : A) P (Q : A -> Parser -> Prop) :
  Q a P -> runs (ret a) P Q.
Proof.
  intros H. split; [discriminate|].
  intros a' P' E. injection E as <- <-. split; [apply keeps_refl | exact H].
Qed.

Lemma runs_error {A} msg P (Q : A -> Parser -> Prop) : runs (error msg) P Q.
Proof. split; discriminate. Qed.

Lemma runs_gets {A} (f : Parser -> A) P (Q : A -> Parser -> Prop) :
  Q (f P) P -> runs (gets f) P Q.
Proof.
  intros H. split; [discriminate|].
  intros a' P' E. injection E as <- <-. split; [apply keeps_refl | exact H].
Qed.

Lemma runs_bind {A B} (m : M A) (k : A -> M B) P (Q : B -> Parser -> Prop) :
  runs m P (fun a P' => runs (k a) P' Q) -> runs (bind m k) P Q.
Proof.
  intros [Hn Hp]. unfold runs, bind in *.
  destruct (m P) as [a P1| |].
  - destruct (Hp a P1 eq_refl) as [Hk [Hn1 Hp1]]. split; [exact Hn1|].
    intros b P' E. destruct (Hp1 b P' E) as [Hk1 HQ].
    split; [eapply keeps_trans; eassumption | exact HQ].
  - split; discriminate.
  - now elim Hn.
Qed.

Lemma runs_weaken {A} (m : M A) P (Q1 Q : A -> Parser -> Prop) :
  runs m P Q1 -> (forall a P', Q1 a P' -> Q a P') -> runs m P Q.
Proof.
  intros [Hn Hp] H. split; [exact Hn|].
  intros a P' E. destruct (Hp a P' E) as [Hk HQ]. split; [exact Hk | auto].
Qed.

(** A computation whose result is known. *)
Lemma runs_Ok {A} (m : M A) (a : A) P P' (Q : A -> Parser -> Prop) :
  m P = Ok a P' -> keeps P P' -> Q a P' -> runs m P Q.
Proof.
  intros Em Hk H. unfold runs. rewrite Em. split; [discriminate|].
  intros a' P1 E. injection E as <- <-. split; assumption.
Qed.

Lemma runs_Fatal {A} (m : M A) msg tok P (Q : A -> Parser -> Prop) :
  m P = Fatal msg tok -> runs m P Q.
Proof. intros Em. unfold runs. rewrite Em. split; discriminate. Qed.

(** A computation with no successful end is a fatal error. *)
Lemma runs_False_Fatal {A} (m : M A) P :
  runs m P (fun _ _ => False) -> exists msg tok, m P = Fatal msg tok.
Proof.
  intros [Hn Hp]. destruct (m P) as [a P1|msg tok|].
  - now elim (Hp a P1 eq_refl).
  - now exists msg, tok.
  - now elim Hn.
Qed.

Lemma runs_match_tv t v P (Q : bool -> Parser -> Prop) :
  (check_tv P t v = true ->
   remaining (snd (advance P)) + 1 <= remaining P -> Q true (snd (advance P))) ->
  (check_tv P t v = false -> Q false P) ->
  runs (match_tv t v) P Q.
Proof.
  intros Ht Hf. destruct (check_tv P t v) eqn:E.
  - apply (runs_Ok _ true P (snd (advance P)));
      [unfold match_tv; now rewrite E | apply advance_keeps |].
    apply Ht; [reflexivity|]. apply advance_consumes, (check_tv_not_end _ _ _ E).
  - apply (runs_Ok _ false P P);
      [unfold match_tv; now rewrite E | apply keeps_refl | now apply Hf].
Qed.

Lemma runs_match_t t P (Q : bool -> Parser -> Prop) :
  (check_t P t = true ->
   remaining (snd (advance P)) + 1 <= remaining P -> Q true (snd (advance P))) ->
  (check_t P t = false -> Q false P) ->
  runs (match_t t) P Q.
Proof.
  intros Ht Hf. destruct (check_t P t) eqn:E.
  - apply (runs_Ok _ true P (snd (advance P)));
      [unfold match_t; now rewrite E | apply advance_keeps |].
    apply Ht; [reflexivity|]. apply advance_consumes, (check_t_not_end _ _ E).
  - apply (runs_Ok _ false P P);
      [unfold match_t; now rewrite E | apply keeps_refl | now apply Hf].
Qed.

Lemma runs_consume_tv t v msg P (Q : unit -> Parser -> Prop) :
  (check_tv P t v = true ->
   remaining (snd (advance P)) + 1 <= remaining P -> Q tt (snd (advance P))) ->
  runs (consume_tv t v msg) P Q.
Proof.
  intros Ht. destruct (check_tv P t v) eqn:E.
  - apply (runs_Ok _ tt P (snd (advance P)));
      [unfold consume_tv; now rewrite E | apply advance_keeps |].
    apply Ht; [reflexivity|]. apply advance_consumes, (check_tv_not_end _ _ _ E).
  - eapply runs_Fatal. unfold consume_tv, error. now rewrite E.
Qed.

Lemma runs_consume_t t msg P (Q : unit -> Parser -> Prop) :
  (check_t P t = true ->
   remaining (snd (advance P)) + 1 <= remaining P -> Q tt (snd (advance P))) ->
  runs (consume_t t msg) P Q.
Proof.
  intros Ht. destruct (check_t P t) eqn:E.
  - apply (runs_Ok _ tt P (snd (advance P)));
      [unfold consume_t; now rewrite E | apply advance_keeps |].
    apply Ht; [reflexivity|]. apply advance_consumes, (check_t_not_end _ _ E).
  - eapply runs_Fatal. unfold consume_t, error. now rewrite E.
Qed.

(** One step through a computation built from the primitives. *)
Ltac run1 :=
  lazymatch goal with
  | |- runs (bind _ _) _ _ => apply runs_bind
  | |- runs (ret _) _ _ => apply runs_ret
  | |- runs (error _) _ _ => apply runs_error
  | |- runs (gets _) _ _ => apply runs_gets
  | |- runs previous_value _ _ => apply runs_gets
  | |- runs (match_tv _ _) _ _ => apply runs_match_tv; [intros ? ?|intros ?]
  | |- runs (match_t _) _ _ => apply runs_match_t; [intros ? ?|intros ?]
  | |- runs (consume_tv _ _ _) _ _ => apply runs_consume_tv; intros ? ?
  | |- runs (consume_t _ _) _ _ => apply runs_consume_t; intros ? ?
  | |- runs (if ?b then _ else _) _ _ => destruct b eqn:?
  end; cbv beta iota.

Ltac run := repeat run1.

(** ** The expression engine *)

(** The reductions work on the stacks alone. *)
Lemma runs_processOp op ns P (Q : list TreeNode -> Parser -> Prop) :
  (forall ns', Q ns' P) -> runs (processOp op ns) P Q.
Proof.
  intros H. unfold processOp. destruct (is_unary op).
  - destruct ns; run; apply H.
  - destruct ns as [|a [|b ns]]; run; apply H.
Qed.

Lemma runs_reduce_to_paren os :
  forall ns P (Q : Stacks -> Parser -> Prop),
    (forall r, Q r P) -> runs (reduce_to_paren os ns) P Q.
Proof.
  induction os as [|op os IH]; intros ns P Q H; simpl.
  - run. apply H.
  - destruct (String.eqb op "("); run; [apply H|].
    apply runs_processOp. intros ns'. apply IH, H.
Qed.

Lemma runs_reduce_prec op os :
  forall ns P (Q : Stacks -> Parser -> Prop),
    (forall r, Q r P) -> runs (reduce_prec op os ns) P Q.
Proof.
  induction os as [|top os IH]; intros ns P Q H; simpl.
  - run. apply H.
  - destruct (_ && _); run; [|apply H].
    apply runs_processOp. intros ns'. apply IH, H.
Qed.

Lemma runs_drain os :
  forall ns P (Q : list TreeNode -> Parser -> Prop),
    (forall r, Q r P) -> runs (drain os ns) P Q.
Proof.
  induction os as [|op os IH]; intros ns P Q H; simpl.
  - run. apply H.
  - destruct (String.eqb op "("); run.
    apply runs_processOp. intros ns'. apply IH, H.
Qed.

Lemma runs_finish ns P (Q : TreeNode -> Parser -> Prop) :
  (forall t, Q t P) -> runs (finish ns) P Q.
Proof. intros H. destruct ns as [|a [|b ns]]; simpl; run; apply H. Qed.

Lemma runs_parseOperand P (Q : TreeNode -> Parser -> Prop) :
  (forall t P', remaining P' + 1 <= remaining P -> Q t P') ->
  runs parseOperand P Q.
Proof. intros H. unfold parseOperand. run; apply H; assumption. Qed.

Lemma expr_continues_not_end P : expr_continues P = true -> 0 < remaining P.
Proof.
  unfold expr_continues. destruct (isAtEnd P) eqn:E; [discriminate|].
  intros _. pose proof (isAtEnd_false_lt P E). unfold remaining. lia.
Qed.

(** The main loop ends within the number of tokens left, and where it ends
    its condition is false. *)
Lemma runs_expr_loop n :
  forall ns os P (Q : Stacks -> Parser -> Prop),
    remaining P <= n ->
    (forall r P', remaining P' <= remaining P ->
                  expr_continues P' = false -> Q r P') ->
    runs (expr_loop n ns os) P Q.
Proof.
  induction n as [|n IH]; intros ns os P Q Hn HQ.
  - destruct (expr_continues P) eqn:E.
    + apply expr_continues_not_end in E. lia.
    + apply (runs_Ok _ (ns, os) P P);
        [simpl; now rewrite E | apply keeps_refl |].
      apply HQ; [lia | exact E].
  - destruct (expr_continues P) eqn:E.
    + assert (Hgo : runs (expr_turn (expr_loop n) ns os) P Q).
      { unfold expr_turn. run.
        * apply IH; [lia|]. intros; apply HQ; [lia | assumption].
        * apply runs_reduce_to_paren. intros [ns' os']. cbv beta iota.
          destruct os'; run.
          apply IH; [lia|]. intros; apply HQ; [lia | assumption].
        * apply runs_reduce_prec. intros [ns' os']. cbv beta iota.
          apply IH; [lia|]. intros; apply HQ; [lia | assumption].
        * apply runs_parseOperand. intros t P' Hr.
          apply IH; [lia|]. intros; apply HQ; [lia | assumption]. }
      unfold runs in *. simpl. rewrite E. exact Hgo.
    + apply (runs_Ok _ (ns, os) P P);
        [simpl; now rewrite E | apply keeps_refl |].
      apply HQ; [lia | exact E].
Qed.

Lemma runs_parseArithmeticExpr P (Q : TreeNode -> Parser -> Prop) :
  (forall t P', remaining P' <= remaining P ->
                expr_continues P' = false -> Q t P') ->
  runs parseArithmeticExpr P Q.
Proof.
  intros H. unfold parseArithmeticExpr. run.
  apply runs_expr_loop; [lia|]. intros [ns os] P' Hr Hs. cbv beta iota.
  apply runs_bind, runs_drain. intros ns'.
  apply runs_finish. intros t. now apply H.
Qed.

(** Where the main loop stops, the current token is neither an operator
    nor a closing parenthesis. *)
Lemma stop_token P :
  expr_continues P = false ->
  check_t P TOKEN_OP = false /\ check_tv P TOKEN_SEP ")" = false.
Proof.
  unfold expr_continues, check_t, check_tv. intros H.
  destruct (isAtEnd P); [split; reflexivity|].
  destruct (type (peek P)); simpl in *; try discriminate;
    (split; [reflexivity|]); try reflexivity.
  destruct (String.eqb_spec (value (peek P)) ")") as [E|E]; [|reflexivity].
  rewrite E in H. simpl in H. discriminate.
Qed.

Lemma check_tv_t P t v : check_tv P t v = true -> check_t P t = true.
Proof.
  unfold check_tv, check_t. destruct (isAtEnd P); [auto|].
  intros H. now apply andb_true_iff in H.
Qed.

Lemma stop_no_comparison P : expr_continues P = false -> is_comparison P = false.
Proof.
  intros H. destruct (stop_token P H) as [Hop _]. unfold is_comparison.
  repeat match goal with
  | |- context [check_tv P TOKEN_OP ?v] =>
      let E := fresh in
      destruct (check_tv P TOKEN_OP v) eqn:E;
      [apply check_tv_t in E; congruence|]
  end.
  reflexivity.
Qed.

(** [parseBoolExpr] ends where [parseArithmeticExpr] ends: its comparison
    branch needs an operator token there, and the main loop stops at none. *)
Lemma runs_parseBoolExpr P (Q : TreeNode -> Parser -> Prop) :
  (forall t P', remaining P' <= remaining P ->
                expr_continues P' = false -> Q t P') ->
  runs parseBoolExpr P Q.
Proof.
  intros H. unfold parseBoolExpr.
  apply runs_bind, runs_parseArithmeticExpr. intros lhs P1 Hr Hs.
  run; try (now apply H).
  rewrite (stop_no_comparison P1 Hs) in *. discriminate.
Qed.

Ltac run2 :=
  first
    [ run1
    | lazymatch goal with
      | |- runs parseArithmeticExpr _ _ =>
          apply runs_parseArithmeticExpr; intros ? ? ? ?
      | |- runs parseBoolExpr _ _ => apply runs_parseBoolExpr; intros ? ? ? ?
      end; cbv beta iota ].

(** ** [while] and [if] *)

(** Where the expression engine stops, the token is not a closing
    parenthesis, so the [consume] after the condition never succeeds. *)
Lemma parseWhileStmt_fatal (parseStmt : M TreeNode) (P : Parser) :
  runs (parseWhileStmt parseStmt) P (fun _ _ => False).
Proof.
  unfold parseWhileStmt.
  repeat run2;
  match goal with
  | Hs : expr_continues _ = false |- _ =>
      destruct (stop_token _ Hs) as [_ Hp]
  end;
  congruence.
Qed.

Lemma parseIfStmt_fatal (parseStmt : M TreeNode) (P : Parser) :
  runs (parseIfStmt parseStmt) P (fun _ _ => False).
Proof.
  unfold parseIfStmt.
  repeat run2;
  match goal with
  | Hs : expr_continues _ = false |- _ =>
      destruct (stop_token _ Hs) as [_ Hp]
  end;
  congruence.
Qed.

(** C1, where the parser departs from the claim. The expression engine does
    not stop at the closing parenthesis of the condition: it takes it for an
    unmatched one, and where it does stop the token is not a closing
    parenthesis, so [parseWhileStmt] ends in a fatal error from every state,
    whatever parses the body; for [while ( a ) { }] and for
    [while ( a < 3 ) a ++ ;] the error is "Unmatched parentheses". *)
Theorem while_statement_aborts :
  (forall (parseStmt : M TreeNode) (P : Parser),
      exists msg tok, parseWhileStmt parseStmt P = Fatal msg tok)
  /\ run while_tokens = Abort "Unmatched parentheses" "{"
  /\ run while_less_tokens = Abort "Unmatched parentheses" "a".
Proof.
  split; [|split; reflexivity].
  intros ps P. apply runs_False_Fatal, parseWhileStmt_fatal.
Qed.

(** C2, where the parser departs from the claim. For the same reason
    [parseIfStmt] ends in a fatal error from every state, before any branch
    is read: no If node is ever built. *)
Theorem if_statement_aborts :
  (forall (parseStmt : M TreeNode) (P : Parser),
      exists msg tok, parseIfStmt parseStmt P = Fatal msg tok)
  /\ run if_tokens = Abort "Unmatched parentheses" "{".
Proof.
  split; [|reflexivity].
  intros ps P. apply runs_False_Fatal, parseIfStmt_fatal.
Qed.

(** ** Unary minus *)

(** C3, where the parser departs from the claim. A minus sign with no left
    operand is relabelled [neg], but [processOp] does not count [neg] among
    the unary operators: it reduces it as a binary one and asks for two
    operands, so with the single operand of a negation the run ends in a
    fatal error, as it does for [a = -1 + 2 ;]. The binary minus of
    [a = 1 - 2 ;] gives Op(-, 1, 2). *)
Theorem unary_minus_is_reduced_as_binary :
  run neg_tokens = Abort "Missing operands for binary operator" ";"
  /\ run minus_tokens
     = Tree (program
               [Node NODE_ASSIGN "="
                  [Some (Node NODE_ID "a" []);
                   Some (Node NODE_EXPR ""
                           [Some (Node NODE_OP "-"
                                    [Some (Node NODE_NUM "1" []);
                                     Some (Node NODE_NUM "2" [])])])]])
  /\ relabel "-" [] [] = "neg"
  /\ is_unary "neg" = false
  /\ forall (operand : TreeNode) (P : Parser),
       processOp "neg" [operand] P
       = Fatal "Missing operands for binary operator" (value (peek P)).
Proof. repeat split; reflexivity. Qed.

(** ** The end of an expression *)

(** An accepted expression is an Expression node over one operand. *)
Lemma parseArithmeticExpr_shape P t P' :
  parseArithmeticExpr P = Ok t P' -> exists top, t = Node NODE_EXPR "" [Some top].
Proof.
  unfold parseArithmeticExpr, bind, gets.
  destruct (check_tv P TOKEN_SEP ";"); [discriminate|].
  destruct (expr_loop (remaining P) [] [] P) as [[ns os] P1| |];
    try discriminate.
  destruct (drain os ns P1) as [ns' P2| |]; try discriminate.
  destruct ns' as [|top [|b rest]]; simpl; try discriminate.
  intros H. injection H as <- _. now exists top.
Qed.

(** C7. [a = 1 2 ;] and [a = ;] end the whole run in a fatal error, with no
    tree; and after the operators are drained, the expression is accepted
    exactly when one operand is left: none is the fatal error "Empty
    expression", more than one the fatal error "Malformed expression". *)
Theorem malformed_expressions_are_fatal :
  run two_operands_tokens = Abort "Malformed expression" ";"
  /\ run no_operand_tokens = Abort "Empty expression not allowed here" ";"
  /\ (forall (P : Parser),
        finish [] P = Fatal "Empty expression" (value (peek P))
        /\ (forall top, finish [top] P = Ok (Node NODE_EXPR "" [Some top]) P)
        /\ (forall a b rest,
               finish (a :: b :: rest) P
               = Fatal "Malformed expression" (value (peek P))))
  /\ forall (P : Parser) t P',
       parseArithmeticExpr P = Ok t P' ->
       exists top, t = Node NODE_EXPR "" [Some top].
Proof.
  split; [reflexivity|]. split; [reflexivity|].
  split; [intros P; repeat split; reflexivity|].
  exact parseArithmeticExpr_shape.
Qed.

Lemma malformed_expressions_are_fatal_witness :
  exists top,
    Node NODE_EXPR "" [Some (Node NODE_NUM "1" [])] = Node NODE_EXPR "" [Some top].
Proof.
  destruct malformed_expressions_are_fatal as (_ & _ & _ & H).
  exact (H (mkParser [ID "a"; OP "="; NUM "1"; SEP ";"] 2)
           (Node NODE_EXPR "" [Some (Node NODE_NUM "1" [])])
           (mkParser [ID "a"; OP "="; NUM "1"; SEP ";"] 3) eq_refl).
Defined.

(** ** [for] with no clause *)

(** C8. [for ( ; ; ) { }] gives a For node with four children in the order
    initialiser, condition, update, body: three null children and an empty
    Block; this whatever parses nested statements, as the body has none. *)
Theorem for_without_clauses :
  run for_tokens
  = Tree (program
            [Node NODE_FOR "" [None; None; None; Some (Node NODE_BLOCK "" [])]])
  /\ forall parseStmt : M TreeNode,
       parseForStmt parseStmt (Parser_new for_tokens)
       = Ok (Node NODE_FOR "" [None; None; None; Some (Node NODE_BLOCK "" [])])
            (mkParser for_tokens 7).
Proof. split; [reflexivity|]. intros ps. reflexivity. Qed.

(** ** Declarations without a declarator *)


(** ** Every run of the parser ends

    Each loop is given the number of tokens left as its bound, and each of
    its turns consumes a token or ends the run; a nested statement starts
    after a token of the enclosing one. So no bound is ever reached. *)

Lemma runs_parseOptInit type declNode P (Q : TreeNode -> Parser -> Prop) :
  (forall d P', remaining P' <= remaining P -> Q d P') ->
  runs (parseOptInit type declNode) P Q.
Proof.
  intros HQ. unfold parseOptInit, parseInit.
  repeat run2; apply HQ; lia.
Qed.

Lemma runs_matchType P (Q : string -> Parser -> Prop) :
  (forall ty P', remaining P' <= remaining P ->
                 (is_type_keyword P = true -> remaining P' + 1 <= remaining P) ->
                 Q ty P') ->
  runs matchType P Q.
Proof.
  intros HQ. unfold matchType.
  repeat run2; apply HQ; try lia.
  intros Hk. unfold is_type_keyword in Hk.
  repeat match goal with
  | E : check_tv _ _ _ = false |- _ => rewrite E in Hk; clear E
  end.
  discriminate.
Qed.

Lemma runs_declarators n :
  forall type declNode P (Q : TreeNode -> Parser -> Prop),
    remaining P < n ->
    (forall d P', remaining P' <= remaining P -> Q d P') ->
    runs (declarators n type declNode) P Q.
Proof.
  induction n as [|n IH]; intros type declNode P Q Hn HQ; [lia|].
  cbn [declarators]. repeat run2; try (apply HQ; lia).
  apply runs_parseOptInit. intros d P' Hr.
  repeat run2; try (apply HQ; lia).
  apply IH; [lia|]. intros; apply HQ; lia.
Qed.

Lemma runs_declList n :
  forall type declNode P (Q : TreeNode -> Parser -> Prop),
    remaining P < n ->
    (forall d P', remaining P' <= remaining P -> Q d P') ->
    runs (declList n type declNode) P Q.
Proof.
  induction n as [|n IH]; intros type declNode P Q Hn HQ; [lia|].
  cbn [declList]. repeat run2; try (apply HQ; lia).
  apply runs_parseOptInit. intros d P' Hr.
  repeat run2; try (apply HQ; lia).
  apply IH; [lia|]. intros; apply HQ; lia.
Qed.

Lemma runs_idList n :
  forall message node P (Q : TreeNode -> Parser -> Prop),
    remaining P < n ->
    (forall d P', remaining P' <= remaining P -> Q d P') ->
    runs (idList n message node) P Q.
Proof.
  induction n as [|n IH]; intros message node P Q Hn HQ; [lia|].
  cbn [idList]. repeat run2; try (apply HQ; lia).
  apply IH; [lia|]. intros; apply HQ; lia.
Qed.

Lemma runs_parseDeclGroup P (Q : TreeNode -> Parser -> Prop) :
  is_type_keyword P = true ->
  (forall d P', remaining P' + 1 <= remaining P -> Q d P') ->
  runs parseDeclGroup P Q.
Proof.
  intros Hk HQ. unfold parseDeclGroup.
  apply runs_bind, runs_matchType. intros ty P1 Hr1 Hs1. specialize (Hs1 Hk).
  repeat run2. apply runs_declarators; [lia|]. intros d P2 Hr2.
  repeat run2. apply HQ. lia.
Qed.

Lemma runs_parseDecl P (Q : TreeNode -> Parser -> Prop) :
  (forall d P', remaining P' <= remaining P -> Q d P') ->
  runs parseDecl P Q.
Proof.
  intros HQ. unfold parseDecl.
  apply runs_bind, runs_matchType. intros ty P1 Hr1 _.
  repeat run2. apply runs_declList; [lia|]. intros d P2 Hr2.
  repeat run2. apply HQ. lia.
Qed.

Lemma not_end_remaining P : isAtEnd P = false -> 0 < remaining P.
Proof. intros E. pose proof (isAtEnd_false_lt P E). unfold remaining. lia. Qed.

Lemma runs_decls_loop n :
  forall declsNode P (Q : TreeNode -> Parser -> Prop),
    remaining P <= n ->
    (forall d P', remaining P' <= remaining P -> Q d P') ->
    runs (decls_loop n declsNode) P Q.
Proof.
  induction n as [|n IH]; intros declsNode P Q Hn HQ;
    destruct (negb (isAtEnd P) && is_type_keyword P) eqn:E.
  - apply andb_true_iff in E. destruct E as [E _].
    apply negb_true_iff, not_end_remaining in E. lia.
  - apply (runs_Ok _ declsNode P P);
      [simpl; now rewrite E | apply keeps_refl | apply HQ; lia].
  - assert (Hgo : runs (declNode <- parseDeclGroup ;;
                        decls_loop n (push_back declsNode (Some declNode)))
                       P Q).
    { apply andb_true_iff in E. destruct E as [_ Hk].
      apply runs_bind, runs_parseDeclGroup; [exact Hk|]. intros d P' Hr.
      apply IH; [lia|]. intros; apply HQ; lia. }
    unfold runs in *. simpl. rewrite E. exact Hgo.
  - apply (runs_Ok _ declsNode P P);
      [simpl; now rewrite E | apply keeps_refl | apply HQ; lia].
Qed.

Lemma runs_parseDecls P (Q : TreeNode -> Parser -> Prop) :
  (forall d P', remaining P' <= remaining P -> Q d P') ->
  runs parseDecls P Q.
Proof.
  intros HQ. unfold parseDecls. repeat run2.
  apply runs_decls_loop; [lia | exact HQ].
Qed.

Lemma runs_assignEnd b P (Q : unit -> Parser -> Prop) :
  (forall P', remaining P' <= remaining P -> Q tt P') ->
  runs (assignEnd b) P Q.
Proof. intros HQ. unfold assignEnd. repeat run2; apply HQ; lia. Qed.

Lemma runs_parseAssignStmt b P (Q : TreeNode -> Parser -> Prop) :
  (forall t P', remaining P' + 1 <= remaining P -> Q t P') ->
  runs (parseAssignStmt b) P Q.
Proof.
  intros HQ. unfold parseAssignStmt.
  repeat run2;
    (apply runs_assignEnd; intros; repeat run2; apply HQ; lia).
Qed.

Lemma runs_parseReadStmt P (Q : TreeNode -> Parser -> Prop) :
  (forall t P', remaining P' + 1 <= remaining P -> Q t P') ->
  runs parseReadStmt P Q.
Proof.
  intros HQ. unfold parseReadStmt. repeat run2.
  apply runs_idList; [lia|]. intros d P' Hr.
  repeat run2. apply HQ. lia.
Qed.

Lemma runs_parseWriteStmt P (Q : TreeNode -> Parser -> Prop) :
  (forall t P', remaining P' + 1 <= remaining P -> Q t P') ->
  runs parseWriteStmt P Q.
Proof.
  intros HQ. unfold parseWriteStmt. repeat run2; try (apply HQ; lia).
  apply runs_idList; [lia|]. intros d P' Hr.
  repeat run2. apply HQ. lia.
Qed.

Section NestedRuns.
Variable parseStmt : M TreeNode.
Variable depth : nat.

(** What is known of the statement parser one level down. *)
Hypothesis runs_nested :
  forall P (Q : TreeNode -> Parser -> Prop),
    remaining P < depth ->
    (forall t P', remaining P' + 1 <= remaining P -> Q t P') ->
    runs parseStmt P Q.

Lemma runs_stmtList n :
  forall node P (Q : TreeNode -> Parser -> Prop),
    remaining P <= n -> remaining P < depth ->
    (forall t P', remaining P' <= remaining P -> Q t P') ->
    runs (stmtList parseStmt n node) P Q.
Proof.
  induction n as [|n IH]; intros node P Q Hn Hd HQ;
    destruct (negb (isAtEnd P) && negb (check_tv P TOKEN_SEP "}")) eqn:E.
  - apply andb_true_iff in E. destruct E as [E _].
    apply negb_true_iff, not_end_remaining in E. lia.
  - apply (runs_Ok _ node P P);
      [simpl; now rewrite E | apply keeps_refl | apply HQ; lia].
  - assert (Hgo : runs (stmt <- parseStmt ;;
                        stmtList parseStmt n (push_back node (Some stmt)))
                       P Q).
    { apply runs_bind, runs_nested; [exact Hd|]. intros t P' Hr.
      apply IH; [lia | lia |]. intros; apply HQ; lia. }
    unfold runs in *. simpl. rewrite E. exact Hgo.
  - apply (runs_Ok _ node P P);
      [simpl; now rewrite E | apply keeps_refl | apply HQ; lia].
Qed.

Lemma runs_parseBlock P (Q : TreeNode -> Parser -> Prop) :
  remaining P <= depth ->
  (forall t P', remaining P' + 1 <= remaining P -> Q t P') ->
  runs (parseBlock parseStmt) P Q.
Proof.
  intros Hd HQ. unfold parseBlock. repeat run2.
  apply runs_stmtList; [lia | lia |]. intros t P' Hr.
  repeat run2. apply HQ. lia.
Qed.

Lemma runs_parseForStmt P (Q : TreeNode -> Parser -> Prop) :
  remaining P <= depth ->
  (forall t P', remaining P' + 1 <= remaining P -> Q t P') ->
  runs (parseForStmt parseStmt) P Q.
Proof.
  intros Hd HQ. unfold parseForStmt.
  repeat first
    [ run2
    | apply runs_parseDecl; intros ? ? ?
    | apply runs_parseAssignStmt; intros ? ? ?
    | apply runs_parseBlock; [lia | intros ? ? ?]
    | apply runs_nested; [lia | intros ? ? ?] ];
  apply HQ; lia.
Qed.

Lemma runs_parseStmt_body P (Q : TreeNode -> Parser -> Prop) :
  remaining P <= depth ->
  (forall t P', remaining P' + 1 <= remaining P -> Q t P') ->
  runs (parseStmt_body parseStmt) P Q.
Proof.
  intros Hd HQ. unfold runs, parseStmt_body.
  destruct (check_tv P TOKEN_SEP "{");
    [apply (runs_parseBlock P Q Hd HQ)|].
  destruct (check_tv P TOKEN_KEYWORD "if").
  { apply (runs_weaken _ P _ Q (parseIfStmt_fatal parseStmt P)).
    intros ? ? []. }
  destruct (check_tv P TOKEN_KEYWORD "while").
  { apply (runs_weaken _ P _ Q (parseWhileStmt_fatal parseStmt P)).
    intros ? ? []. }
  destruct (check_tv P TOKEN_KEYWORD "for");
    [apply (runs_parseForStmt P Q Hd HQ)|].
  destruct (check_tv P TOKEN_KEYWORD "read");
    [apply (runs_parseReadStmt P Q HQ)|].
  destruct (check_tv P TOKEN_KEYWORD "write");
    [apply (runs_parseWriteStmt P Q HQ)|].
  destruct (check_t P TOKEN_ID);
    [apply (runs_parseAssignStmt false P Q HQ)|].
  match goal with
  | |- ?m P <> _ /\ _ => change (runs m P Q)
  end.
  repeat run2. apply HQ. lia.
Qed.
End NestedRuns.

Lemma runs_parseStmt depth :
  forall P (Q : TreeNode -> Parser -> Prop),
    remaining P < depth ->
    (forall t P', remaining P' + 1 <= remaining P -> Q t P') ->
    runs (parseStmt depth) P Q.
Proof.
  induction depth as [|d IH]; intros P Q Hd HQ; [lia|].
  cbn [parseStmt]. apply (runs_parseStmt_body (parseStmt d) d IH); [lia | exact HQ].
Qed.

Lemma runs_parseStmts P (Q : TreeNode -> Parser -> Prop) :
  (forall t P', remaining P' <= remaining P -> Q t P') ->
  runs parseStmts P Q.
Proof.
  intros HQ. unfold parseStmts. repeat run2.
  apply (runs_stmtList _ (S (remaining P)));
    [apply runs_parseStmt | lia | lia | exact HQ].
Qed.

(** From every state, [parse] ends with a tree or with a fatal error; the
    token vector is untouched and the index stays within it. *)
Lemma runs_parse P : runs parse P (fun _ P' => remaining P' <= remaining P).
Proof.
  unfold parse.
  apply runs_bind, runs_parseDecls. intros d P1 Hr1.
  apply runs_bind, runs_parseStmts. intros t P2 Hr2.
  repeat run2. lia.
Qed.


(** ** The token accessors never leave the vector *)

Lemma peek_past_end P : size P <= current P -> peek P = end_token.
Proof.
  intros H. unfold peek.
  destruct (Nat.ltb_spec (current P) (size P)); [lia | reflexivity].
Qed.

Lemma peek_in_bounds P :
  current P < size P -> nth_error (tokens P) (current P) = Some (peek P).
Proof.
  intros H. unfold peek.
  destruct (Nat.ltb_spec (current P) (size P)); [|lia].
  apply nth_error_nth'. exact H.
Qed.

Lemma previous_in_bounds P :
  wf P -> 0 < current P ->
  nth_error (tokens P) (current P - 1) = Some (previous P).
Proof.
  unfold wf. intros Hw H. unfold previous.
  destruct (Nat.ltb_spec 0 (current P)); [|lia].
  apply nth_error_nth'. unfold size in Hw. lia.
Qed.

Lemma advance_at_end P : isAtEnd P = true -> snd (advance P) = P.
Proof. intros H. unfold advance. now rewrite H. Qed.

(** C10. In every state: at or past the end [peek] is the empty error token
    and [isAtEnd] holds; at index 0 [previous] is that token too; once
    [isAtEnd] holds [advance] changes nothing. [peek] only indexes the vector
    below its size, and so does [previous] in every state whose index is at
    most the size, which holds at the start and after every [advance].
    Hence, from every state and for every token sequence, with or without an
    end sentinel, the parse ends, with a tree or with a fatal error, on the
    same token vector and with its index within it. *)
Theorem token_accessors_are_total (P : Parser) :
  (size P <= current P -> peek P = end_token /\ isAtEnd P = true)
  /\ (current P = 0 -> previous P = end_token)
  /\ (isAtEnd P = true -> snd (advance P) = P)
  /\ (current P < size P -> nth_error (tokens P) (current P) = Some (peek P))
  /\ (wf P -> 0 < current P ->
      nth_error (tokens P) (current P - 1) = Some (previous P))
  /\ (wf P -> wf (snd (advance P)))
  /\ tokens (snd (advance P)) = tokens P
  /\ parse P <> OutOfFuel
  /\ (forall root P', parse P = Ok root P' ->
                      tokens P' = tokens P /\ (wf P -> wf P'))
  /\ forall t : list Token, wf (Parser_new t) /\ run t <> NoResult.
Proof.
  split.
  { intros H. pose proof (peek_past_end P H) as E. split; [exact E|].
    unfold isAtEnd. now rewrite E. }
  split.
  { intros H. unfold previous. now rewrite H. }
  split; [apply advance_at_end|].
  split; [apply peek_in_bounds|].
  split; [apply previous_in_bounds|].
  destruct (advance_keeps P) as [Ht Hw].
  split; [exact Hw|]. split; [exact Ht|].
  destruct (runs_parse P) as [Hn Hp].
  split; [exact Hn|].
  split.
  { intros root P' E. destruct (Hp root P' E) as [Hk _]. exact Hk. }
  intros t. split; [unfold wf, size; simpl; lia|].
  unfold run. destruct (runs_parse (Parser_new t)) as [Hn' _].
  destruct (parse (Parser_new t)); [discriminate | discriminate | now elim Hn'].
Qed.

Lemma token_accessors_are_total_witness :
  peek (mkParser for_tokens 7) = end_token
  /\ isAtEnd (mkParser for_tokens 7) = true
  /\ snd (advance (mkParser for_tokens 7)) = mkParser for_tokens 7
  /\ nth_error for_tokens 6 = Some (previous (mkParser for_tokens 7))
  /\ previous (Parser_new for_tokens) = end_token.
Proof.
  destruct (token_accessors_are_total (mkParser for_tokens 7))
    as (H1 & _ & H3 & _ & H5 & _).
  destruct (token_accessors_are_total (Parser_new for_tokens))
    as (_ & H2 & _).
  assert (Hs : size (mkParser for_tokens 7) <= current (mkParser for_tokens 7))
    by (vm_compute; lia).
  destruct (H1 Hs) as [Hp He].
  split; [exact Hp|]. split; [exact He|].
  split; [exact (H3 He)|].
  split.
  - apply (H5 Hs). simpl. lia.
  - apply H2. reflexivity.
Defined.


(** * Further properties of the parser *)

(** ** Results, one computation at a time *)

Lemma bind_Ok {A B} (m : M A) (k : A -> M B) P b P' :
  bind m k P = Ok b P' -> exists a P1, m P = Ok a P1 /\ k a P1 = Ok b P'.
Proof.
  unfold bind. destruct (m P) as [a P1| |]; try discriminate.
  intros H. now exists a, P1.
Qed.

(** What [runs] says of a result. *)
Lemma runs_result {A} (m : M A) P (Q : A -> Parser -> Prop) a P' :
  runs m P Q -> m P = Ok a P' -> Q a P'.
Proof. intros [_ H] E. now destruct (H a P' E). Qed.

Lemma parseArithmeticExpr_stops P t P' :
  parseArithmeticExpr P = Ok t P' -> expr_continues P' = false.
Proof.
  apply (runs_result parseArithmeticExpr P
           (fun _ P' => expr_continues P' = false)).
  apply runs_parseArithmeticExpr. auto.
Qed.

(** ** The comparison of [parseBoolExpr] *)

Lemma parseBoolExpr_eq P : parseBoolExpr P = parseArithmeticExpr P.
Proof.
  unfold parseBoolExpr, bind.
  destruct (parseArithmeticExpr P) as [lhs P1| |] eqn:Ea; try reflexivity.
  pose proof (parseArithmeticExpr_stops _ _ _ Ea) as Hs.
  unfold gets. destruct (check_tv P1 TOKEN_SEP "{"); [reflexivity|].
  now rewrite (stop_no_comparison P1 Hs).
Qed.

(** X8. [parseBoolExpr] is [parseArithmeticExpr]: the expression engine
    takes a comparison operator as a binary operator of its own and only
    stops at the end of the tokens, at [;], [,], an opening brace or
    then/do/else, so the branch of [parseBoolExpr] that would read a
    comparison and build a BooleanExpression node is never taken. *)
Theorem parseBoolExpr_is_parseArithmeticExpr (P : Parser) :
  parseBoolExpr P = parseArithmeticExpr P
  /\ forall t P', parseBoolExpr P = Ok t P' ->
                  expr_continues P' = false /\ is_comparison P' = false.
Proof.
  pose proof (parseBoolExpr_eq P) as E.
  split; [exact E|]. rewrite E. intros t P' H.
  pose proof (parseArithmeticExpr_stops _ _ _ H) as Hs.
  split; [exact Hs | now apply stop_no_comparison].
Qed.

Lemma parseBoolExpr_is_parseArithmeticExpr_witness :
  expr_continues (mkParser [ID "a"; OP "<"; NUM "3"; SEP ";"] 3) = false
  /\ is_comparison (mkParser [ID "a"; OP "<"; NUM "3"; SEP ";"] 3) = false.
Proof.
  exact (proj2 (parseBoolExpr_is_parseArithmeticExpr
                  (Parser_new [ID "a"; OP "<"; NUM "3"; SEP ";"]))
           _ _ eq_refl).
Defined.

(** ** The shape of expression trees *)

Lemma processOp_trees op ns P ns' P' :
  Forall expr_tree ns -> processOp op ns P = Ok ns' P' ->
  Forall expr_tree ns'.
Proof.
  intros Hns. unfold processOp. destruct (is_unary op) eqn:Eu.
  - destruct ns as [|a ns]; [discriminate|]. intros H. injection H as <- _.
    inversion Hns; subst. constructor; [now constructor | assumption].
  - destruct ns as [|a [|b ns]]; try discriminate.
    intros H. injection H as <- _.
    inversion Hns as [|? ? Ha Hns1]; subst.
    inversion Hns1 as [|? ? Hb Hns2]; subst.
    constructor; [now constructor | assumption].
Qed.

Lemma reduce_to_paren_trees os :
  forall ns P r P', Forall expr_tree ns ->
    reduce_to_paren os ns P = Ok r P' -> Forall expr_tree (fst r).
Proof.
  induction os as [|op os IH]; intros ns P r P' Hns; simpl.
  - intros H. injection H as <- _. exact Hns.
  - destruct (String.eqb op "(").
    + intros H. injection H as <- _. exact Hns.
    + intros H. apply bind_Ok in H. destruct H as (ns1 & P1 & H1 & H2).
      eapply IH; [|exact H2]. eapply processOp_trees; eassumption.
Qed.

Lemma reduce_prec_trees op os :
  forall ns P r P', Forall expr_tree ns ->
    reduce_prec op os ns P = Ok r P' -> Forall expr_tree (fst r).
Proof.
  induction os as [|top os IH]; intros ns P r P' Hns; simpl.
  - intros H. injection H as <- _. exact Hns.
  - destruct (_ && _).
    + intros H. apply bind_Ok in H. destruct H as (ns1 & P1 & H1 & H2).
      eapply IH; [|exact H2]. eapply processOp_trees; eassumption.
    + intros H. injection H as <- _. exact Hns.
Qed.

Lemma drain_trees os :
  forall ns P r P', Forall expr_tree ns ->
    drain os ns P = Ok r P' -> Forall expr_tree r.
Proof.
  induction os as [|op os IH]; intros ns P r P' Hns; simpl.
  - intros H. injection H as <- _. exact Hns.
  - destruct (String.eqb op "("); [discriminate|].
    intros H. apply bind_Ok in H. destruct H as (ns1 & P1 & H1 & H2).
    eapply IH; [|exact H2]. eapply processOp_trees; eassumption.
Qed.

Lemma parseOperand_tree P t P' : parseOperand P = Ok t P' -> expr_tree t.
Proof.
  unfold parseOperand, bind, match_t, gets, ret, error.
  repeat match goal with
  | |- context [check_t P ?ty] => destruct (check_t P ty)
  end; try discriminate; intros H; injection H as <- _; constructor.
Qed.

Lemma expr_loop_trees n :
  forall ns os P r P', Forall expr_tree ns ->
    expr_loop n ns os P = Ok r P' -> Forall expr_tree (fst r).
Proof.
  induction n as [|n IH]; intros ns os P r P' Hns; simpl;
    destruct (expr_continues P); try discriminate;
    try (intros H; injection H as <- _; exact Hns).
  unfold expr_turn. intros H.
  apply bind_Ok in H. destruct H as ([] & P1 & _ & H).
  { eapply IH; eassumption. }
  apply bind_Ok in H. destruct H as ([] & P2 & _ & H).
  { apply bind_Ok in H. destruct H as ([ns1 os1] & P3 & H1 & H).
    pose proof (reduce_to_paren_trees _ _ _ _ _ Hns H1) as Hns1.
    destruct os1; [discriminate|]. eapply IH; eassumption. }
  apply bind_Ok in H. destruct H as ([] & P3 & _ & H).
  { apply bind_Ok in H. destruct H as (v & P4 & _ & H).
    apply bind_Ok in H. destruct H as ([ns1 os1] & P5 & H1 & H).
    pose proof (reduce_prec_trees _ _ _ _ _ _ Hns H1) as Hns1.
    eapply IH; eassumption. }
  apply bind_Ok in H. destruct H as (operand & P4 & H1 & H).
  eapply IH; [|exact H]. constructor; [|exact Hns].
  eapply parseOperand_tree; eassumption.
Qed.

(** X9. The arity of the trees of the expression engine. An accepted
    expression is an Expression node over one tree whose leaves are
    identifier or literal nodes and whose operator nodes have one child for
    the operators [processOp] counts as unary and two children for all
    others, none of them null. *)
Theorem expression_trees (P : Parser) (t : TreeNode) (P' : Parser) :
  parseArithmeticExpr P = Ok t P' ->
  exists top, t = Node NODE_EXPR "" [Some top] /\ expr_tree top.
Proof.
  unfold parseArithmeticExpr. intros H.
  apply bind_Ok in H. destruct H as ([] & P1 & _ & H); [discriminate|].
  apply bind_Ok in H. destruct H as (n & P2 & _ & H).
  apply bind_Ok in H. destruct H as ([ns os] & P3 & H1 & H).
  apply bind_Ok in H. destruct H as (ns' & P4 & H2 & H).
  pose proof (expr_loop_trees _ _ _ _ _ _ (Forall_nil _) H1) as Hns.
  pose proof (drain_trees _ _ _ _ _ Hns H2) as Hns'.
  destruct ns' as [|top [|b rest]]; try discriminate.
  injection H as <- _. exists top. split; [reflexivity|].
  now inversion Hns'.
Qed.

Lemma expression_trees_witness :
  exists top,
    Node NODE_EXPR ""
      [Some (Node NODE_OP "+"
               [Some (Node NODE_NUM "1" []);
                Some (Node NODE_OP "*"
                        [Some (Node NODE_NUM "2" []);
                         Some (Node NODE_NUM "3" [])])])]
    = Node NODE_EXPR "" [Some top] /\ expr_tree top.
Proof.
  exact (expression_trees
           (Parser_new [NUM "1"; OP "+"; NUM "2"; OP "*"; NUM "3"; SEP ";"])
           _ _ eq_refl).
Defined.


(** ** The parser in the middle of a token sequence *)

Lemma peek_at pre t post : peek (at_ pre (t :: post)) = t.
Proof.
  unfold peek, at_, size. cbn [tokens current].
  rewrite length_app. cbn [List.length].
  replace (List.length pre <? List.length pre + S (List.length post))
    with true by (symmetry; apply Nat.ltb_lt; lia).
  apply nth_middle.
Qed.

Lemma peek_at_nil pre : peek (at_ pre []) = end_token.
Proof.
  unfold peek, at_, size. cbn [tokens current].
  rewrite app_nil_r, Nat.ltb_irrefl. reflexivity.
Qed.

Lemma isAtEnd_at pre t post : isAtEnd (at_ pre (t :: post)) = negb (real t).
Proof.
  unfold isAtEnd, real. rewrite peek_at. now rewrite negb_involutive.
Qed.

Lemma check_tv_at pre t post ty v :
  check_tv (at_ pre (t :: post)) ty v
  = real t && (TokenType_eqb (type t) ty && String.eqb (value t) v).
Proof.
  unfold check_tv. rewrite isAtEnd_at, peek_at. now destruct (real t).
Qed.

Lemma check_t_at pre t post ty :
  check_t (at_ pre (t :: post)) ty = real t && TokenType_eqb (type t) ty.
Proof.
  unfold check_t. rewrite isAtEnd_at, peek_at. now destruct (real t).
Qed.

Lemma at_snoc pre t post : at_ (pre ++ [t]) post = mkParser (pre ++ t :: post) (List.length pre + 1).
Proof.
  unfold at_. rewrite <- app_assoc, length_app. reflexivity.
Qed.

Lemma advance_at pre t post :
  real t = true -> snd (advance (at_ pre (t :: post))) = at_ (pre ++ [t]) post.
Proof.
  intros H. unfold advance. rewrite isAtEnd_at, H. cbn [negb snd].
  now rewrite at_snoc.
Qed.

Lemma previous_at pre t post : previous (at_ (pre ++ [t]) post) = t.
Proof.
  rewrite at_snoc. unfold previous. cbn [tokens current].
  replace (0 <? List.length pre + 1) with true
    by (symmetry; apply Nat.ltb_lt; lia).
  replace (List.length pre + 1 - 1) with (List.length pre) by lia.
  apply nth_middle.
Qed.

Lemma remaining_at pre post : remaining (at_ pre post) = List.length post.
Proof.
  unfold remaining, size, at_. cbn [tokens current]. rewrite length_app. lia.
Qed.

Lemma terminator_stops pre t post :
  terminator t = true -> expr_continues (at_ pre (t :: post)) = false.
Proof.
  unfold expr_continues. rewrite isAtEnd_at, !check_tv_at.
  unfold terminator. destruct t as [ty v]. cbn [type value].
  destruct (real (mkToken ty v)); cbn [negb orb andb]; [|reflexivity].
  destruct ty; cbn [TokenType_eqb andb orb negb]; try discriminate.
  - destruct (String.eqb v "then"), (String.eqb v "do"),
      (String.eqb v "else"); cbn; try reflexivity; discriminate.
  - destruct (String.eqb v ";"), (String.eqb v ","),
      (String.eqb v "{"); cbn; try reflexivity; discriminate.
Qed.

(** Evaluation at a known current token. *)
Ltac at_steps :=
  repeat first
    [ progress rewrite ?isAtEnd_at, ?check_tv_at, ?check_t_at, ?previous_at
    | rewrite advance_at by reflexivity
    | progress cbn -[advance isAtEnd check_tv check_t previous peek at_
                     expr_loop reduce_prec reduce_to_paren drain relabel
                     precedence is_unary remaining idList declarators
                     declList id_tokens id_nodes String.append
                     parseArithmeticExpr parseBoolExpr parseAssignStmt] ].

(** The turns of the main loop of the expression engine, by the current
    token. *)
Lemma expr_loop_operand k ns os pre t post n :
  operand_node t = Some n ->
  expr_loop (S k) ns os (at_ pre (t :: post))
  = expr_loop k (n :: ns) os (at_ (pre ++ [t]) post).
Proof.
  destruct t as [ty v]. unfold operand_node. cbn [type value].
  destruct ty; try discriminate; intros H; injection H as <-;
    cbn [expr_loop]; unfold expr_continues, expr_turn, parseOperand, bind,
      match_tv, match_t, gets, ret;
    at_steps; reflexivity.
Qed.

Lemma expr_loop_operator k ns os pre o post :
  expr_loop (S k) ns os (at_ pre (OP o :: post))
  = bind (reduce_prec (relabel o ns os) os ns)
      (fun r => expr_loop k (fst r) (relabel o ns os :: snd r))
      (at_ (pre ++ [OP o]) post).
Proof.
  cbn [expr_loop]. unfold expr_continues, expr_turn, bind,
      match_tv, match_t, gets, ret.
  at_steps.
  destruct (reduce_prec _ _ _ _) as [[ns1 os1] P1| |]; reflexivity.
Qed.

Lemma expr_loop_open k ns os pre post :
  expr_loop (S k) ns os (at_ pre (SEP "(" :: post))
  = expr_loop k ns ("(" :: os) (at_ (pre ++ [SEP "("]) post).
Proof.
  cbn [expr_loop]. unfold expr_continues, expr_turn, bind,
      match_tv, match_t, gets, ret.
  at_steps. reflexivity.
Qed.

Lemma expr_loop_close k ns os pre post :
  expr_loop (S k) ns os (at_ pre (SEP ")" :: post))
  = bind (reduce_to_paren os ns)
      (fun r => match snd r with
                | [] => error "Unmatched parentheses"
                | _ :: ops => expr_loop k (fst r) ops
                end)
      (at_ (pre ++ [SEP ")"]) post).
Proof.
  cbn [expr_loop]. unfold expr_continues, expr_turn, bind,
      match_tv, match_t, gets, ret.
  at_steps.
  destruct (reduce_to_paren _ _ _) as [[ns1 os1] P1| |]; reflexivity.
Qed.

Lemma expr_loop_stop k ns os pre t post :
  terminator t = true ->
  expr_loop k ns os (at_ pre (t :: post)) = Ok (ns, os) (at_ pre (t :: post)).
Proof.
  intros H. destruct k; cbn [expr_loop];
    now rewrite (terminator_stops _ _ _ H).
Qed.

Lemma relabel_binary o n ns os :
  match os with top :: _ => String.eqb top "(" | [] => false end = false ->
  relabel o (n :: ns) os = o.
Proof.
  intros H. unfold relabel. rewrite H. cbn [orb].
  now rewrite andb_false_r.
Qed.

Lemma parseArithmeticExpr_at pre t post :
  check_tv (at_ pre (t :: post)) TOKEN_SEP ";" = false ->
  parseArithmeticExpr (at_ pre (t :: post))
  = bind (expr_loop (S (List.length post)) [] [])
      (fun r => bind (drain (snd r) (fst r)) finish) (at_ pre (t :: post)).
Proof.
  intros H. unfold parseArithmeticExpr, bind at 1 2, gets.
  rewrite H, remaining_at. cbn [List.length]. unfold bind.
  destruct (expr_loop _ _ _ _) as [[ns1 os1] P1| |]; reflexivity.
Qed.

Lemma operand_not_semi pre t post n :
  operand_node t = Some n ->
  check_tv (at_ pre (t :: post)) TOKEN_SEP ";" = false.
Proof.
  rewrite check_tv_at. destruct t as [ty v]. unfold operand_node.
  cbn [type value]. destruct ty; try discriminate; intros _;
    cbn [TokenType_eqb andb]; apply andb_false_r.
Qed.


(** ** Precedence and grouping *)

(** X10. Two binary operators between three operands. In [x o1 y o2 z]
    followed by a terminator, the first operator is reduced first, so that
    its node becomes the left operand of the second, when the precedence of
    the second is not higher (equal precedences group to the left, and so do
    operators of no known precedence); otherwise the second operator binds
    [y] and [z] and its node becomes the right operand of the first. The
    terminator is left as the current token. *)
Theorem two_binary_operators (pre : list Token) (x y z t : Token)
    (o1 o2 : string) (rest : list Token) (nx ny nz : TreeNode) :
  operand_node x = Some nx -> operand_node y = Some ny ->
  operand_node z = Some nz ->
  is_unary o1 = false -> is_unary o2 = false ->
  String.eqb o1 "(" = false -> String.eqb o2 "(" = false ->
  terminator t = true ->
  parseArithmeticExpr
    (at_ pre (x :: OP o1 :: y :: OP o2 :: z :: t :: rest))
  = Ok (Node NODE_EXPR ""
          [Some (if precedence o2 <=? precedence o1
                 then Node NODE_OP o2
                        [Some (Node NODE_OP o1 [Some nx; Some ny]); Some nz]
                 else Node NODE_OP o1
                        [Some nx; Some (Node NODE_OP o2 [Some ny; Some nz])])])
       (at_ (pre ++ [x; OP o1; y; OP o2; z]) (t :: rest)).
Proof.
  intros Hx Hy Hz Hu1 Hu2 Ho1 Ho2 Ht.
  rewrite parseArithmeticExpr_at by (eapply operand_not_semi; eassumption).
  unfold bind at 1. cbn [List.length].
  rewrite (expr_loop_operand _ _ _ _ _ _ _ Hx).
  rewrite expr_loop_operator, relabel_binary by reflexivity.
  unfold bind at 1. cbn [reduce_prec ret fst snd].
  rewrite (expr_loop_operand _ _ _ _ _ _ _ Hy).
  rewrite expr_loop_operator, relabel_binary by exact Ho1.
  cbn [reduce_prec]. rewrite Ho1. cbn [negb andb].
  replace (at_ (pre ++ [x; OP o1; y; OP o2; z]) (t :: rest))
    with (at_ (((((pre ++ [x]) ++ [OP o1]) ++ [y]) ++ [OP o2]) ++ [z])
            (t :: rest))
    by (now rewrite <- !app_assoc).
  destruct (precedence o2 <=? precedence o1).
  - unfold bind at 1 2, processOp at 1. rewrite Hu1.
    cbn [ret reduce_prec fst snd].
    rewrite (expr_loop_operand _ _ _ _ _ _ _ Hz).
    rewrite expr_loop_stop by exact Ht.
    unfold bind. cbn [fst snd drain]. rewrite Ho2.
    unfold processOp. rewrite Hu2. reflexivity.
  - unfold bind at 1. cbn [ret fst snd].
    rewrite (expr_loop_operand _ _ _ _ _ _ _ Hz).
    rewrite expr_loop_stop by exact Ht.
    unfold bind. cbn [fst snd drain]. rewrite Ho2, Ho1.
    unfold processOp. rewrite Hu2, Hu1. reflexivity.
Qed.

Lemma two_binary_operators_witness :
  parseArithmeticExpr
    (at_ [ID "r"; OP "="]
       [ID "a"; OP "-"; NUM "2"; OP "*"; ID "b"; SEP ";"])
  = Ok (Node NODE_EXPR ""
          [Some (Node NODE_OP "-"
                   [Some (Node NODE_ID "a" []);
                    Some (Node NODE_OP "*"
                            [Some (Node NODE_NUM "2" []);
                             Some (Node NODE_ID "b" [])])])])
       (at_ [ID "r"; OP "="; ID "a"; OP "-"; NUM "2"; OP "*"; ID "b"]
          [SEP ";"]).
Proof.
  exact (two_binary_operators [ID "r"; OP "="] (ID "a") (NUM "2") (ID "b")
           (SEP ";") "-" "*" [] _ _ _
           eq_refl eq_refl eq_refl eq_refl eq_refl eq_refl eq_refl eq_refl).
Defined.

(** X11. Parentheses. In [( x o1 y ) o2 z] followed by a terminator the
    parenthesised operator is reduced at the closing parenthesis, whatever
    the two precedences, and its node is the left operand of [o2]. A minus
    sign as [o1] is relabelled [neg], the top of the operator stack being
    the opening parenthesis, and is then reduced as a binary operator: the
    tree of [(x - y)] is a [neg] node with the two children [x] and [y]. *)
Theorem parenthesised_operand (pre : list Token) (x y z t : Token)
    (o1 o2 : string) (rest : list Token) (nx ny nz : TreeNode) :
  operand_node x = Some nx -> operand_node y = Some ny ->
  operand_node z = Some nz ->
  is_unary o1 = false -> is_unary o2 = false ->
  String.eqb o1 "(" = false -> String.eqb o2 "(" = false ->
  terminator t = true ->
  parseArithmeticExpr
    (at_ pre (SEP "(" :: x :: OP o1 :: y :: SEP ")" :: OP o2 :: z :: t :: rest))
  = Ok (Node NODE_EXPR ""
          [Some (Node NODE_OP o2
                   [Some (Node NODE_OP (if String.eqb o1 "-" then "neg" else o1)
                            [Some nx; Some ny]);
                    Some nz])])
       (at_ (pre ++ [SEP "("; x; OP o1; y; SEP ")"; OP o2; z]) (t :: rest)).
Proof.
  intros Hx Hy Hz Hu1 Hu2 Ho1 Ho2 Ht.
  rewrite parseArithmeticExpr_at by (now rewrite check_tv_at).
  unfold bind at 1. cbn [List.length].
  rewrite expr_loop_open.
  rewrite (expr_loop_operand _ _ _ _ _ _ _ Hx).
  rewrite expr_loop_operator.
  assert (El : relabel o1 [nx] ["("] = if String.eqb o1 "-" then "neg" else o1).
  { unfold relabel. cbn. now rewrite andb_true_r. }
  rewrite El. clear El.
  set (l1 := if String.eqb o1 "-" then "neg" else o1).
  assert (Hl1 : String.eqb l1 "(" = false /\ is_unary l1 = false).
  { subst l1. destruct (String.eqb o1 "-"); [split; reflexivity | now split]. }
  destruct Hl1 as [Hl1 Hul1].
  unfold bind at 1. cbn [reduce_prec String.eqb Ascii.eqb Bool.eqb negb andb
                          ret fst snd].
  rewrite (expr_loop_operand _ _ _ _ _ _ _ Hy).
  rewrite expr_loop_close.
  unfold bind at 1. cbn [reduce_to_paren]. rewrite Hl1.
  unfold bind at 1, processOp at 1. rewrite Hul1.
  cbn [ret reduce_to_paren String.eqb Ascii.eqb Bool.eqb fst snd].
  rewrite expr_loop_operator, relabel_binary by reflexivity.
  unfold bind at 1. cbn [reduce_prec ret fst snd].
  rewrite (expr_loop_operand _ _ _ _ _ _ _ Hz).
  rewrite expr_loop_stop by exact Ht.
  unfold bind. cbn [fst snd drain]. rewrite Ho2.
  unfold processOp. rewrite Hu2. cbn [ret finish].
  now rewrite <- !app_assoc.
Qed.

Lemma parenthesised_operand_witness :
  parseArithmeticExpr
    (at_ [] [SEP "("; ID "a"; OP "-"; ID "b"; SEP ")"; OP "*"; NUM "2";
             SEP ";"])
  = Ok (Node NODE_EXPR ""
          [Some (Node NODE_OP "*"
                   [Some (Node NODE_OP "neg"
                            [Some (Node NODE_ID "a" []);
                             Some (Node NODE_ID "b" [])]);
                    Some (Node NODE_NUM "2" [])])])
       (at_ [SEP "("; ID "a"; OP "-"; ID "b"; SEP ")"; OP "*"; NUM "2"]
          [SEP ";"]).
Proof.
  exact (parenthesised_operand [] (ID "a") (ID "b") (NUM "2") (SEP ";")
           "-" "*" [] _ _ _
           eq_refl eq_refl eq_refl eq_refl eq_refl eq_refl eq_refl eq_refl).
Defined.


(** ** Lists of identifiers: [read] and [write] *)

Lemma id_tokens_cons a b names :
  id_tokens (a :: b :: names) = ID a :: SEP "," :: id_tokens (b :: names).
Proof. reflexivity. Qed.

Lemma length_id_tokens names :
  List.length names <= List.length (id_tokens names).
Proof.
  induction names as [|a [|b names] IH]; [reflexivity | reflexivity |].
  rewrite id_tokens_cons. cbn [List.length] in *. lia.
Qed.

Lemma idList_at msg names :
  forall n t v c pre post,
    names <> [] -> List.length names <= n ->
    check_tv (at_ (pre ++ id_tokens names) post) TOKEN_SEP "," = false ->
    idList n msg (Node t v c) (at_ pre (id_tokens names ++ post))
    = Ok (Node t v (c ++ id_nodes names)) (at_ (pre ++ id_tokens names) post).
Proof.
  induction names as [|a names IH]; [congruence|].
  intros n t v c pre post _ Hn Hc.
  destruct n as [|n]; [cbn in Hn; lia|].
  destruct names as [|b names].
  - cbn [id_tokens app] in *. cbn [idList].
    unfold bind, consume_t, previous_value, gets, match_tv, ret.
    at_steps. rewrite Hc. reflexivity.
  - rewrite id_tokens_cons in *. cbn [app]. cbn [idList].
    unfold bind, consume_t, previous_value, gets, match_tv, ret.
    at_steps. rewrite IH.
    + unfold id_nodes. cbn [map]. rewrite <- !app_assoc. reflexivity.
    + discriminate.
    + cbn [List.length] in *. lia.
    + rewrite <- !app_assoc. exact Hc.
Qed.

(** X12. A read statement. The tokens of [read ( v1 , ... , vn ) ;] with
    at least one name, anywhere in the token sequence, are accepted by
    [parseStmt] as a Read node whose children are the identifier leaves of
    the names in their order, and the cursor is left after the [;]. *)
Theorem read_statement (d : nat) (pre : list Token) (names : list string)
    (rest : list Token) :
  names <> [] ->
  parseStmt (S d)
    (at_ pre (KW "read" :: SEP "(" :: id_tokens names
              ++ SEP ")" :: SEP ";" :: rest))
  = Ok (Node NODE_READ "" (id_nodes names))
       (at_ (pre ++ KW "read" :: SEP "(" :: id_tokens names
             ++ [SEP ")"; SEP ";"]) rest).
Proof.
  intros Hn. cbn [parseStmt]. unfold parseStmt_body. at_steps.
  unfold parseReadStmt, bind, consume_tv, gets, ret. at_steps.
  rewrite remaining_at, idList_at.
  - at_steps. rewrite <- !app_assoc. reflexivity.
  - exact Hn.
  - rewrite length_app. pose proof (length_id_tokens names). lia.
  - now rewrite check_tv_at.
Qed.

Lemma read_statement_witness :
  parseStmt 1
    (at_ [] [KW "read"; SEP "("; ID "a"; SEP ","; ID "b"; SEP ")"; SEP ";"])
  = Ok (Node NODE_READ "" [Some (Node NODE_ID "a" []);
                           Some (Node NODE_ID "b" [])])
       (at_ [KW "read"; SEP "("; ID "a"; SEP ","; ID "b"; SEP ")"; SEP ";"]
          []).
Proof.
  refine (read_statement 0 [] ["a"; "b"] [] _). discriminate.
Defined.

(** X13. A write statement, in its two forms. [write ( v1 , ... , vn ) ;]
    with at least one name gives a Write node over the identifier leaves of
    the names, and [write v ;] gives the same node as [write ( v ) ;]. *)
Theorem write_statement (d : nat) (pre : list Token) (names : list string)
    (rest : list Token) :
  names <> [] ->
  parseStmt (S d)
    (at_ pre (KW "write" :: SEP "(" :: id_tokens names
              ++ SEP ")" :: SEP ";" :: rest))
  = Ok (Node NODE_WRITE "" (id_nodes names))
       (at_ (pre ++ KW "write" :: SEP "(" :: id_tokens names
             ++ [SEP ")"; SEP ";"]) rest)
  /\ forall v,
       parseStmt (S d) (at_ pre (KW "write" :: ID v :: SEP ";" :: rest))
       = Ok (Node NODE_WRITE "" (id_nodes [v]))
            (at_ (pre ++ [KW "write"; ID v; SEP ";"]) rest).
Proof.
  intros Hn. split.
  - cbn [parseStmt]. unfold parseStmt_body. at_steps.
    unfold parseWriteStmt, bind, consume_tv, match_tv, gets, ret. at_steps.
    rewrite remaining_at, idList_at.
    + at_steps. rewrite <- !app_assoc. reflexivity.
    + exact Hn.
    + rewrite length_app. pose proof (length_id_tokens names). lia.
    + now rewrite check_tv_at.
  - intros v. cbn [parseStmt]. unfold parseStmt_body. at_steps.
    unfold parseWriteStmt, bind, consume_tv, consume_t, match_tv,
      previous_value, gets, ret.
    at_steps. rewrite <- !app_assoc. reflexivity.
Qed.

Lemma write_statement_witness :
  parseStmt 1
    (at_ [] [KW "write"; SEP "("; ID "a"; SEP ","; ID "b"; SEP ")"; SEP ";"])
  = Ok (Node NODE_WRITE "" [Some (Node NODE_ID "a" []);
                            Some (Node NODE_ID "b" [])])
       (at_ [KW "write"; SEP "("; ID "a"; SEP ","; ID "b"; SEP ")"; SEP ";"]
          []).
Proof.
  refine (proj1 (write_statement 0 [] ["a"; "b"] [] _)). discriminate.
Defined.


(** ** Declarations without initialisers *)

Lemma declarators_at ty names :
  forall n c pre post,
    names <> [] -> List.length names <= n ->
    check_tv (at_ (pre ++ id_tokens names) post) TOKEN_SEP "," = false ->
    check_tv (at_ (pre ++ id_tokens names) post) TOKEN_OP "=" = false ->
    declarators n ty (Node NODE_LIST "" c) (at_ pre (id_tokens names ++ post))
    = Ok (Node NODE_LIST "" (c ++ id_nodes names))
         (at_ (pre ++ id_tokens names) post).
Proof.
  induction names as [|a names IH]; [congruence|].
  intros n c pre post _ Hn Hc He.
  destruct n as [|n]; [cbn in Hn; lia|].
  destruct names as [|b names].
  - cbn [id_tokens app] in *. cbn [declarators].
    unfold bind, consume_t, previous_value, parseOptInit, bind, gets,
      match_tv, ret.
    at_steps. rewrite He, Hc. reflexivity.
  - rewrite id_tokens_cons in *. cbn [app]. cbn [declarators].
    unfold bind, consume_t, previous_value, parseOptInit, bind, gets,
      match_tv, ret.
    at_steps. rewrite IH.
    + unfold id_nodes. cbn [map]. rewrite <- !app_assoc. reflexivity.
    + discriminate.
    + cbn [List.length] in *. lia.
    + rewrite <- !app_assoc. exact Hc.
    + rewrite <- !app_assoc. exact He.
Qed.

Lemma declList_at ty names :
  forall n c pre post,
    names <> [] -> List.length names <= n ->
    check_tv (at_ (pre ++ id_tokens names) post) TOKEN_SEP "," = false ->
    check_tv (at_ (pre ++ id_tokens names) post) TOKEN_OP "=" = false ->
    declList n ty (Node NODE_LIST "" c) (at_ pre (id_tokens names ++ post))
    = Ok (Node NODE_LIST "" (c ++ id_nodes names))
         (at_ (pre ++ id_tokens names) post).
Proof.
  induction names as [|a names IH]; [congruence|].
  intros n c pre post _ Hn Hc He.
  destruct n as [|n]; [cbn in Hn; lia|].
  destruct names as [|b names].
  - cbn [id_tokens app] in *. cbn [declList].
    unfold bind, consume_t, previous_value, parseOptInit, bind, gets,
      match_tv, ret.
    at_steps. rewrite He, Hc. reflexivity.
  - rewrite id_tokens_cons in *. cbn [app]. cbn [declList].
    unfold bind, consume_t, previous_value, parseOptInit, bind, gets,
      match_tv, ret.
    at_steps. rewrite IH.
    + unfold id_nodes. cbn [map]. rewrite <- !app_assoc. reflexivity.
    + discriminate.
    + cbn [List.length] in *. lia.
    + rewrite <- !app_assoc. exact Hc.
    + rewrite <- !app_assoc. exact He.
Qed.

Lemma is_type_cases ty :
  is_type ty = true -> ty = "int" \/ ty = "float" \/ ty = "bool".
Proof.
  unfold is_type. intros H.
  destruct (String.eqb_spec ty "int"); [now left|].
  destruct (String.eqb_spec ty "float"); [now right; left|].
  destruct (String.eqb_spec ty "bool"); [now right; right|discriminate].
Qed.

Lemma matchType_at ty pre post :
  is_type ty = true ->
  matchType (at_ pre (KW ty :: post)) = Ok ty (at_ (pre ++ [KW ty]) post)
  /\ is_type_keyword (at_ pre (KW ty :: post)) = true.
Proof.
  intros H.
  destruct (is_type_cases ty H) as [-> | [-> | ->]];
    unfold matchType, is_type_keyword, bind, match_tv, ret; at_steps;
    split; reflexivity.
Qed.

Lemma parseDeclGroup_at g pre post :
  plain_decl g ->
  parseDeclGroup (at_ pre (decl_tokens g ++ post))
  = Ok (decl_node g) (at_ (pre ++ decl_tokens g) post).
Proof.
  destruct g as [ty names]. intros [Ht Hn]. cbn [fst snd] in *.
  unfold decl_tokens, decl_node. cbn [fst snd app].
  rewrite <- app_assoc. cbn [app].
  unfold parseDeclGroup, bind at 1.
  rewrite (proj1 (matchType_at ty pre _ Ht)).
  unfold bind at 1, gets at 1. unfold bind at 1.
  rewrite remaining_at, declarators_at.
  - unfold bind, consume_tv, ret. at_steps.
    replace (pre ++ KW ty :: id_tokens names ++ [SEP ";"])%list
      with (((pre ++ [KW ty]) ++ id_tokens names) ++ [SEP ";"])%list
      by (now rewrite <- !app_assoc).
    reflexivity.
  - exact Hn.
  - rewrite length_app. pose proof (length_id_tokens names). lia.
  - now rewrite check_tv_at.
  - now rewrite check_tv_at.
Qed.

Lemma decls_loop_at rest groups :
  forall n c pre,
    Forall plain_decl groups -> List.length groups <= n ->
    is_type_keyword (at_ (pre ++ flat_map decl_tokens groups) rest) = false ->
    decls_loop n (Node NODE_DECLS "" c)
      (at_ pre (flat_map decl_tokens groups ++ rest))
    = Ok (Node NODE_DECLS "" (c ++ map (fun g => Some (decl_node g)) groups))
         (at_ (pre ++ flat_map decl_tokens groups) rest).
Proof.
  induction groups as [|g groups IH]; intros n c pre Hg Hn Hk.
  - cbn [flat_map app map] in *. rewrite !app_nil_r in *.
    destruct n; cbn [decls_loop]; now rewrite Hk, andb_false_r.
  - destruct n as [|n]; [cbn in Hn; lia|].
    inversion Hg as [|? ? Hg1 Hg2]; subst.
    cbn [flat_map map]. rewrite <- app_assoc.
    cbn [decls_loop].
    assert (Hguard : negb (isAtEnd (at_ pre (decl_tokens g
                                             ++ flat_map decl_tokens groups
                                             ++ rest)))
                     && is_type_keyword (at_ pre (decl_tokens g
                                             ++ flat_map decl_tokens groups
                                             ++ rest)) = true).
    { unfold decl_tokens at 1 3. cbn [app].
      rewrite (proj2 (matchType_at (fst g) pre _ (proj1 Hg1))).
      now rewrite isAtEnd_at. }
    rewrite Hguard. unfold bind.
    rewrite (parseDeclGroup_at g pre _ Hg1). cbn [push_back].
    rewrite IH.
    + rewrite <- !app_assoc. reflexivity.
    + exact Hg2.
    + cbn [List.length] in Hn. lia.
    + cbn [flat_map] in Hk. rewrite <- app_assoc. exact Hk.
Qed.

Lemma length_flat_map_decl groups :
  List.length groups <= List.length (flat_map decl_tokens groups).
Proof.
  induction groups as [|g groups IH]; [reflexivity|].
  cbn [flat_map]. rewrite length_app. unfold decl_tokens at 1.
  cbn [List.length]. lia.
Qed.

(** X14. The declaration part. A sequence of declarations, each a type
    keyword [int], [float] or [bool] followed by one or more names separated
    by commas and a [;], and followed by a token that is not a type keyword,
    is accepted by [parseDecls] as a Declarations node with one child per
    declaration, in their order: a list node over a type leaf and the
    identifier leaves of the names. The cursor is left at the token that
    follows. *)
Theorem declaration_part (pre : list Token)
    (groups : list (string * list string)) (rest : list Token) :
  Forall plain_decl groups ->
  is_type_keyword (at_ (pre ++ flat_map decl_tokens groups) rest) = false ->
  parseDecls (at_ pre (flat_map decl_tokens groups ++ rest))
  = Ok (Node NODE_DECLS "" (map (fun g => Some (decl_node g)) groups))
       (at_ (pre ++ flat_map decl_tokens groups) rest).
Proof.
  intros Hg Hk. unfold parseDecls, bind, gets. rewrite remaining_at.
  apply (decls_loop_at rest groups _ [] pre Hg); [|exact Hk].
  rewrite length_app. pose proof (length_flat_map_decl groups). lia.
Qed.

Lemma declaration_part_witness :
  parseDecls
    (at_ [] [KW "int"; ID "a"; SEP ","; ID "b"; SEP ";";
             KW "bool"; ID "c"; SEP ";"; ID "a"; OP "="; NUM "1"; SEP ";"])
  = Ok (Node NODE_DECLS ""
          [Some (Node NODE_LIST ""
                   [Some (Node NODE_TYPE "int" []);
                    Some (Node NODE_ID "a" []); Some (Node NODE_ID "b" [])]);
           Some (Node NODE_LIST ""
                   [Some (Node NODE_TYPE "bool" []);
                    Some (Node NODE_ID "c" [])])])
       (at_ [KW "int"; ID "a"; SEP ","; ID "b"; SEP ";";
             KW "bool"; ID "c"; SEP ";"]
          [ID "a"; OP "="; NUM "1"; SEP ";"]).
Proof.
  refine (declaration_part [] [("int", ["a"; "b"]); ("bool", ["c"])]
            [ID "a"; OP "="; NUM "1"; SEP ";"] _ eq_refl).
  repeat constructor; discriminate.
Defined.

(** X15. The declaration of a [for] initialiser. On a declaration without
    initialisers [parseDecl] builds the node that the declaration part
    builds for it, and consumes its [;]. *)
Theorem for_declaration (g : string * list string) (pre post : list Token) :
  plain_decl g ->
  parseDecl (at_ pre (decl_tokens g ++ post))
  = Ok (decl_node g) (at_ (pre ++ decl_tokens g) post)
  /\ parseDecl (at_ pre (decl_tokens g ++ post))
     = parseDeclGroup (at_ pre (decl_tokens g ++ post)).
Proof.
  intros Hg. rewrite (parseDeclGroup_at g pre post Hg).
  assert (E : parseDecl (at_ pre (decl_tokens g ++ post))
              = Ok (decl_node g) (at_ (pre ++ decl_tokens g) post));
    [|now split].
  destruct g as [ty names]. destruct Hg as [Ht Hn]. cbn [fst snd] in *.
  unfold decl_tokens, decl_node. cbn [fst snd app].
  rewrite <- app_assoc. cbn [app].
  unfold parseDecl, bind at 1.
  rewrite (proj1 (matchType_at ty pre _ Ht)).
  assert (Hne : String.eqb ty "" = false).
  { destruct (is_type_cases ty Ht) as [-> | [-> | ->]]; reflexivity. }
  rewrite Hne. unfold bind at 1, ret at 1.
  unfold bind at 1, gets at 1. unfold bind at 1.
  rewrite remaining_at, declList_at.
  - unfold bind, consume_tv, ret. at_steps.
    replace (pre ++ KW ty :: id_tokens names ++ [SEP ";"])%list
      with (((pre ++ [KW ty]) ++ id_tokens names) ++ [SEP ";"])%list
      by (now rewrite <- !app_assoc).
    reflexivity.
  - exact Hn.
  - rewrite length_app. pose proof (length_id_tokens names). lia.
  - now rewrite check_tv_at.
  - now rewrite check_tv_at.
Qed.

Lemma for_declaration_witness :
  parseDecl (at_ [KW "for"; SEP "("] [KW "int"; ID "i"; SEP ";"; SEP ";"])
  = Ok (Node NODE_LIST ""
          [Some (Node NODE_TYPE "int" []); Some (Node NODE_ID "i" [])])
       (at_ [KW "for"; SEP "("; KW "int"; ID "i"; SEP ";"] [SEP ";"]).
Proof.
  refine (proj1 (for_declaration ("int", ["i"]) [KW "for"; SEP "("]
                   [SEP ";"] _)).
  split; [reflexivity | discriminate].
Defined.


(** ** Declarations without a declarator *)






(** ** Where a statement is expected *)

(** X16. A statement starts with an opening brace, a [;], an identifier or
    one of the keywords [if], [while], [for], [read], [write]. At any other
    current token, the end of the tokens included, [parseStmt] ends the run
    with the message "Expected statement but found: " followed by the text
    of that token: so does a literal, an operator, a LexError token, a
    closing brace, and a type keyword after the first statement. *)
Theorem no_statement (d : nat) (P : Parser) :
  starts_statement (peek P) = false ->
  parseStmt (S d) P
  = Fatal ("Expected statement but found: " ++ value (peek P))
      (value (peek P)).
Proof.
  intros H. cbn [parseStmt].
  unfold parseStmt_body, bind, match_tv, gets, error, check_tv, check_t.
  destruct (isAtEnd P); [reflexivity|].
  unfold starts_statement in H. cbv beta.
  destruct (peek P) as [ty v] eqn:Et. cbn [type value] in *.
  destruct ty; cbn [TokenType_eqb andb orb] in *;
    rewrite ?Et; cbn [value]; try reflexivity; try discriminate.
  - destruct (String.eqb v "if"), (String.eqb v "while"),
      (String.eqb v "for"), (String.eqb v "read"), (String.eqb v "write");
      try discriminate; reflexivity.
  - destruct (String.eqb v "{"), (String.eqb v ";");
      try discriminate; cbv beta; rewrite Et; reflexivity.
Qed.

Lemma no_statement_witness :
  parseStmt 1 (at_ [ID "a"; OP "="; NUM "1"; SEP ";"]
                 [KW "int"; ID "b"; SEP ";"])
  = Fatal "Expected statement but found: int" "int".
Proof.
  exact (no_statement 0 (at_ [ID "a"; OP "="; NUM "1"; SEP ";"]
                           [KW "int"; ID "b"; SEP ";"]) eq_refl).
Defined.

(** ** The operator of an assignment *)

Lemma single_operand pre x t rest nx :
  operand_node x = Some nx -> terminator t = true ->
  parseArithmeticExpr (at_ pre (x :: t :: rest))
  = Ok (Node NODE_EXPR "" [Some nx]) (at_ (pre ++ [x]) (t :: rest)).
Proof.
  intros Hx Ht.
  rewrite parseArithmeticExpr_at by (eapply operand_not_semi; eassumption).
  unfold bind at 1. cbn [List.length].
  rewrite (expr_loop_operand _ _ _ _ _ _ _ Hx).
  rewrite expr_loop_stop by exact Ht. reflexivity.
Qed.

(** X17. The operator of an assignment is not checked. After the
    identifier, [parseAssignStmt] takes any operator token: [++] and [--]
    give an Assignment node with the identifier as its only child, and every
    other operator, [=] or not, is taken as the assignment operator, the
    expression after it being the second child; so [a < 1 ;] is accepted as
    an Assignment node labelled [<]. *)
Theorem assignment_operator (d : nat) (pre : list Token) (v o : string)
    (x : Token) (nx : TreeNode) (rest : list Token) :
  operand_node x = Some nx ->
  parseStmt (S d) (at_ pre (ID v :: OP o :: x :: SEP ";" :: rest))
  = (if String.eqb o "++" || String.eqb o "--"
     then Fatal ("Expected ';' after assignment (Actual: " ++ value x ++ ")")
            (value x)
     else Ok (Node NODE_ASSIGN o
                [Some (Node NODE_ID v []);
                 Some (Node NODE_EXPR "" [Some nx])])
             (at_ (pre ++ [ID v; OP o; x; SEP ";"]) rest))
  /\ parseStmt (S d) (at_ pre (ID v :: OP o :: SEP ";" :: rest))
     = (if String.eqb o "++" || String.eqb o "--"
        then Ok (Node NODE_ASSIGN o [Some (Node NODE_ID v [])])
               (at_ (pre ++ [ID v; OP o; SEP ";"]) rest)
        else Fatal "Empty expression not allowed here" ";").
Proof.
  intros Hx.
  pose proof (operand_not_semi ((pre ++ [ID v]) ++ [OP o]) x
                (SEP ";" :: rest) nx Hx) as Hsemi.
  pose proof (single_operand ((pre ++ [ID v]) ++ [OP o]) x (SEP ";") rest nx
                Hx eq_refl) as Hrhs.
  split; cbn [parseStmt]; unfold parseStmt_body; at_steps;
    unfold parseAssignStmt, bind, consume_t, previous_value, gets; at_steps;
    rewrite peek_at; cbn [value OP];
    destruct (String.eqb o "++" || String.eqb o "--"); at_steps.
  - unfold assignEnd, consume_tv, error. rewrite Hsemi, peek_at.
    reflexivity.
  - destruct (String.eqb o "="); cbv beta;
      [destruct (starts_bool _); rewrite ?parseBoolExpr_eq|];
      rewrite Hrhs; unfold assignEnd, consume_tv, ret; at_steps;
      rewrite <- !app_assoc; reflexivity.
  - unfold assignEnd, consume_tv, ret. at_steps.
    rewrite <- !app_assoc. reflexivity.
  - assert (E : forall P,
               check_tv P TOKEN_SEP ";" = true ->
               parseArithmeticExpr P
               = Fatal "Empty expression not allowed here" (value (peek P))).
    { intros P H. unfold parseArithmeticExpr, bind, gets, error.
      now rewrite H. }
    destruct (String.eqb o "="); cbv beta.
    + destruct (starts_bool _); rewrite ?parseBoolExpr_eq, E;
        rewrite ?peek_at, ?check_tv_at; reflexivity.
    + rewrite E; rewrite ?peek_at, ?check_tv_at; reflexivity.
Qed.

Lemma assignment_operator_witness :
  parseStmt 1 (at_ [] [ID "a"; OP "<"; NUM "1"; SEP ";"])
  = Ok (Node NODE_ASSIGN "<"
          [Some (Node NODE_ID "a" []);
           Some (Node NODE_EXPR "" [Some (Node NODE_NUM "1" [])])])
       (at_ [ID "a"; OP "<"; NUM "1"; SEP ";"] []).
Proof.
  exact (proj1 (assignment_operator 0 [] "a" "<" (NUM "1") _ [] eq_refl)).
Defined.


(** ** The trees of accepted programs *)

Lemma parseArithmeticExpr_node P t P' :
  parseArithmeticExpr P = Ok t P' -> expr_node t.
Proof.
  unfold parseArithmeticExpr. intros H.
  apply bind_Ok in H. destruct H as ([] & P1 & _ & H); [discriminate|].
  apply bind_Ok in H. destruct H as (n & P2 & _ & H).
  apply bind_Ok in H. destruct H as ([ns os] & P3 & H1 & H).
  apply bind_Ok in H. destruct H as (ns' & P4 & H2 & H).
  pose proof (expr_loop_trees _ _ _ _ _ _ (Forall_nil _) H1) as Hns.
  pose proof (drain_trees _ _ _ _ _ Hns H2) as Hns'.
  destruct ns' as [|top [|b rest]]; try discriminate.
  injection H as <- _. exists top. split; [reflexivity|].
  now inversion Hns'.
Qed.

Lemma parseBoolExpr_node P t P' : parseBoolExpr P = Ok t P' -> expr_node t.
Proof. rewrite parseBoolExpr_eq. apply parseArithmeticExpr_node. Qed.

Lemma parseOptInit_items ty t v c P n P' :
  parseOptInit ty (Node t v c) P = Ok n P' ->
  exists c', n = Node t v (c ++ c') /\ Forall decl_item c'.
Proof.
  unfold parseOptInit. intros H.
  apply bind_Ok in H. destruct H as ([] & P1 & _ & H).
  - apply bind_Ok in H. destruct H as (e & P2 & He & H).
    injection H as <- _. exists [Some e]. split; [reflexivity|].
    constructor; [|constructor]. apply item_init.
    unfold parseInit in He. destruct (String.eqb ty "bool");
      [eapply parseBoolExpr_node | eapply parseArithmeticExpr_node];
      eassumption.
  - injection H as <- _. exists []. now rewrite app_nil_r.
Qed.

Lemma declarators_items ty n :
  forall t v c P r P',
    declarators n ty (Node t v c) P = Ok r P' ->
    exists c', r = Node t v (c ++ c') /\ Forall decl_item c'.
Proof.
  induction n as [|n IH]; intros t v c P r P'; [discriminate|].
  cbn [declarators]. intros H.
  apply bind_Ok in H. destruct H as ([] & P1 & _ & H).
  { injection H as <- _. exists []. now rewrite app_nil_r. }
  apply bind_Ok in H. destruct H as (u & P2 & _ & H).
  apply bind_Ok in H. destruct H as (w & P3 & _ & H).
  apply bind_Ok in H. destruct H as (n1 & P4 & H1 & H).
  cbn [push_back] in H1.
  apply parseOptInit_items in H1. destruct H1 as (c1 & -> & Hc1).
  apply bind_Ok in H. destruct H as ([] & P5 & _ & H).
  - apply IH in H. destruct H as (c2 & -> & Hc2).
    exists (Some (Node NODE_ID w []) :: c1 ++ c2)%list.
    split; [now rewrite <- !app_assoc|].
    constructor; [constructor | now apply Forall_app].
  - injection H as <- _. exists (Some (Node NODE_ID w []) :: c1).
    split; [now rewrite <- !app_assoc|].
    constructor; [constructor | assumption].
Qed.

Lemma declList_items ty n :
  forall t v c P r P',
    declList n ty (Node t v c) P = Ok r P' ->
    exists c', r = Node t v (c ++ c') /\ Forall decl_item c'.
Proof.
  induction n as [|n IH]; intros t v c P r P'; [discriminate|].
  cbn [declList]. intros H.
  apply bind_Ok in H. destruct H as (u & P2 & _ & H).
  apply bind_Ok in H. destruct H as (w & P3 & _ & H).
  apply bind_Ok in H. destruct H as (n1 & P4 & H1 & H).
  cbn [push_back] in H1.
  apply parseOptInit_items in H1. destruct H1 as (c1 & -> & Hc1).
  apply bind_Ok in H. destruct H as ([] & P5 & _ & H).
  - apply IH in H. destruct H as (c2 & -> & Hc2).
    exists (Some (Node NODE_ID w []) :: c1 ++ c2)%list.
    split; [now rewrite <- !app_assoc|].
    constructor; [constructor | now apply Forall_app].
  - injection H as <- _. exists (Some (Node NODE_ID w []) :: c1).
    split; [now rewrite <- !app_assoc|].
    constructor; [constructor | assumption].
Qed.

Lemma matchType_cases P ty P' :
  matchType P = Ok ty P' ->
  is_type ty = true
  \/ ty = "" /\ P' = P /\ is_type_keyword P = false.
Proof.
  unfold matchType, is_type_keyword, bind, match_tv, ret.
  destruct (check_tv P TOKEN_KEYWORD "int");
    [intros H; injection H as <- _; now left|].
  destruct (check_tv P TOKEN_KEYWORD "float");
    [intros H; injection H as <- _; now left|].
  destruct (check_tv P TOKEN_KEYWORD "bool");
    intros H; injection H as <- <-; [now left | now right].
Qed.

Lemma parseDecl_tree P t P' : parseDecl P = Ok t P' -> decl_tree t.
Proof.
  unfold parseDecl. intros H.
  apply bind_Ok in H. destruct H as (ty & P1 & Hty & H).
  apply bind_Ok in H. destruct H as (u & P2 & Hne & H).
  apply bind_Ok in H. destruct H as (n & P3 & _ & H).
  apply bind_Ok in H. destruct H as (r & P4 & Hr & H).
  apply bind_Ok in H. destruct H as (u' & P5 & _ & H).
  injection H as <- _.
  apply declList_items in Hr. destruct Hr as (c' & -> & Hc').
  exists ty, c'. split; [reflexivity|]. split; [|exact Hc'].
  destruct (matchType_cases _ _ _ Hty) as [Ht | [-> _]]; [exact Ht|].
  discriminate.
Qed.

Lemma parseDeclGroup_tree P t P' :
  is_type_keyword P = true -> parseDeclGroup P = Ok t P' -> decl_tree t.
Proof.
  unfold parseDeclGroup. intros Hk H.
  apply bind_Ok in H. destruct H as (ty & P1 & Hty & H).
  apply bind_Ok in H. destruct H as (n & P3 & _ & H).
  apply bind_Ok in H. destruct H as (r & P4 & Hr & H).
  apply bind_Ok in H. destruct H as (u' & P5 & _ & H).
  injection H as <- _.
  apply declarators_items in Hr. destruct Hr as (c' & -> & Hc').
  exists ty, c'. split; [reflexivity|]. split; [|exact Hc'].
  destruct (matchType_cases _ _ _ Hty) as [Ht | (_ & _ & Hf)]; [exact Ht|].
  congruence.
Qed.

Lemma map_Some_snoc (l : list TreeNode) (a : TreeNode) :
  (map Some l ++ [Some a])%list = map Some (l ++ [a]).
Proof. now rewrite map_app. Qed.

Lemma decls_loop_trees n :
  forall ds P r P',
    Forall decl_tree ds ->
    decls_loop n (Node NODE_DECLS "" (map Some ds)) P = Ok r P' ->
    exists ds', r = Node NODE_DECLS "" (map Some ds') /\ Forall decl_tree ds'.
Proof.
  induction n as [|n IH]; intros ds P r P' Hds; cbn [decls_loop];
    destruct (negb (isAtEnd P) && is_type_keyword P) eqn:Eg;
    try discriminate;
    try (intros H; injection H as <- _; now exists ds).
  intros H. apply bind_Ok in H. destruct H as (d & P1 & Hd & H).
  apply andb_true_iff in Eg. destruct Eg as [_ Hk].
  apply (parseDeclGroup_tree _ _ _ Hk) in Hd.
  cbn [push_back] in H. rewrite map_Some_snoc in H.
  apply IH in H; [exact H|].
  apply Forall_app. split; [exact Hds | now constructor].
Qed.

Lemma parseDecls_trees P r P' :
  parseDecls P = Ok r P' ->
  exists ds, r = Node NODE_DECLS "" (map Some ds) /\ Forall decl_tree ds.
Proof.
  unfold parseDecls. intros H.
  apply bind_Ok in H. destruct H as (n & P1 & _ & H).
  apply (decls_loop_trees n [] P1 r P' (Forall_nil _) H).
Qed.

Lemma parseAssignStmt_tree b P t P' :
  parseAssignStmt b P = Ok t P' -> assign_tree t.
Proof.
  unfold parseAssignStmt. intros H.
  apply bind_Ok in H. destruct H as (u & P1 & _ & H).
  apply bind_Ok in H. destruct H as (v & P2 & _ & H).
  apply bind_Ok in H. destruct H as (op & P3 & _ & H).
  destruct (String.eqb op "++" || String.eqb op "--") eqn:E.
  - apply bind_Ok in H. destruct H as (u1 & P4 & _ & H).
    apply bind_Ok in H. destruct H as (u2 & P5 & _ & H).
    injection H as <- _. apply assign_step.
    apply orb_true_iff in E. destruct E as [E|E];
      apply String.eqb_eq in E; auto.
  - apply bind_Ok in H. destruct H as (u1 & P4 & _ & H).
    apply bind_Ok in H. destruct H as (rhs & P5 & Hrhs & H).
    apply bind_Ok in H. destruct H as (u2 & P6 & _ & H).
    injection H as <- _. apply assign_expr.
    destruct (String.eqb op "=");
      [|eapply parseArithmeticExpr_node; eassumption].
    apply bind_Ok in Hrhs. destruct Hrhs as ([] & P7 & _ & Hrhs);
      [eapply parseBoolExpr_node | eapply parseArithmeticExpr_node];
      eassumption.
Qed.

Lemma parseAssignStmt_update P t P' :
  parseAssignStmt true P = Ok t P' ->
  for_update (Some t) \/ check_tv P' TOKEN_SEP ")" = false.
Proof.
  unfold parseAssignStmt. intros H.
  apply bind_Ok in H. destruct H as (u & P1 & _ & H).
  apply bind_Ok in H. destruct H as (v & P2 & _ & H).
  apply bind_Ok in H. destruct H as (op & P3 & _ & H).
  destruct (String.eqb op "++" || String.eqb op "--") eqn:E.
  - apply bind_Ok in H. destruct H as (u1 & P4 & _ & H).
    apply bind_Ok in H. destruct H as (u2 & P5 & _ & H).
    injection H as <- _. left. exists v, op. split; [|reflexivity].
    apply orb_true_iff in E. destruct E as [E|E];
      apply String.eqb_eq in E; auto.
  - apply bind_Ok in H. destruct H as (u1 & P4 & _ & H).
    apply bind_Ok in H. destruct H as (rhs & P5 & Hrhs & H).
    apply bind_Ok in H. destruct H as (u2 & P6 & Hend & H).
    injection H as _ <-. injection Hend as _ <-. right.
    apply stop_token.
    destruct (String.eqb op "=");
      [|eapply parseArithmeticExpr_stops; eassumption].
    apply bind_Ok in Hrhs. destruct Hrhs as ([] & P7 & Hg & Hrhs);
      rewrite ?parseBoolExpr_eq in Hrhs;
      eapply parseArithmeticExpr_stops; eassumption.
Qed.

Lemma consume_tv_Ok t v msg P u P' :
  consume_tv t v msg P = Ok u P' -> check_tv P t v = true.
Proof. unfold consume_tv. now destruct (check_tv P t v). Qed.

Lemma id_nodes_snoc names v :
  (id_nodes names ++ [Some (Node NODE_ID v [])])%list
  = id_nodes (names ++ [v])%list.
Proof. unfold id_nodes. now rewrite map_app. Qed.

Lemma idList_names msg n :
  forall t v names P r P',
    idList n msg (Node t v (id_nodes names)) P = Ok r P' ->
    exists names', r = Node t v (id_nodes names') /\ names' <> [].
Proof.
  induction n as [|n IH]; intros t v names P r P'; [discriminate|].
  cbn [idList]. intros H.
  apply bind_Ok in H. destruct H as (u & P1 & _ & H).
  apply bind_Ok in H. destruct H as (w & P2 & _ & H).
  apply bind_Ok in H. destruct H as ([] & P3 & _ & H);
    cbn [push_back] in H; rewrite id_nodes_snoc in H.
  - eapply IH; eassumption.
  - injection H as <- _. exists (names ++ [w])%list. split; [reflexivity|].
    now destruct names.
Qed.

Lemma parseReadStmt_tree P t P' : parseReadStmt P = Ok t P' -> stmt_tree t.
Proof.
  unfold parseReadStmt. intros H.
  apply bind_Ok in H. destruct H as (u1 & P1 & _ & H).
  apply bind_Ok in H. destruct H as (u2 & P2 & _ & H).
  apply bind_Ok in H. destruct H as (n & P3 & _ & H).
  apply bind_Ok in H. destruct H as (r & P4 & Hr & H).
  apply bind_Ok in H. destruct H as (u3 & P5 & _ & H).
  apply bind_Ok in H. destruct H as (u4 & P6 & _ & H).
  injection H as <- _.
  apply (idList_names _ _ _ _ []) in Hr. destruct Hr as (names & -> & Hn).
  now apply stmt_read.
Qed.

Lemma parseWriteStmt_tree P t P' : parseWriteStmt P = Ok t P' -> stmt_tree t.
Proof.
  unfold parseWriteStmt. intros H.
  apply bind_Ok in H. destruct H as (u1 & P1 & _ & H).
  apply bind_Ok in H. destruct H as ([] & P2 & _ & H).
  - apply bind_Ok in H. destruct H as (r & P3 & Hr & H).
    apply bind_Ok in H. destruct H as (u2 & P4 & _ & H).
    injection H as <- _.
    apply bind_Ok in Hr. destruct Hr as (n & P5 & _ & Hr).
    apply bind_Ok in Hr. destruct Hr as (r' & P6 & Hr' & Hr).
    apply bind_Ok in Hr. destruct Hr as (u3 & P7 & _ & Hr).
    injection Hr as <- _.
    apply (idList_names _ _ _ _ []) in Hr'. destruct Hr' as (names & -> & Hn).
    now apply stmt_write.
  - apply bind_Ok in H. destruct H as (r & P3 & Hr & H).
    apply bind_Ok in H. destruct H as (u2 & P4 & _ & H).
    injection H as <- _.
    apply bind_Ok in Hr. destruct Hr as (u3 & P5 & _ & Hr).
    apply bind_Ok in Hr. destruct Hr as (w & P6 & _ & Hr).
    injection Hr as <- _.
    apply (stmt_write [w]). discriminate.
Qed.

Section NestedTrees.
Variable ps : M TreeNode.
Hypothesis ps_tree : forall P t P', ps P = Ok t P' -> stmt_tree t.

Lemma stmtList_trees n :
  forall ty v ss P r P',
    Forall stmt_tree ss ->
    stmtList ps n (Node ty v (map Some ss)) P = Ok r P' ->
    exists ss', r = Node ty v (map Some ss') /\ Forall stmt_tree ss'.
Proof.
  induction n as [|n IH]; intros ty v ss P r P' Hss; cbn [stmtList];
    destruct (negb (isAtEnd P) && negb (check_tv P TOKEN_SEP "}"));
    try discriminate;
    try (intros H; injection H as <- _; now exists ss).
  intros H. apply bind_Ok in H. destruct H as (st & P1 & Hst & H).
  cbn [push_back] in H. rewrite map_Some_snoc in H.
  apply IH in H; [exact H|].
  apply Forall_app. split; [exact Hss|].
  constructor; [|constructor]. eapply ps_tree; eassumption.
Qed.

Lemma parseBlock_trees P t P' :
  parseBlock ps P = Ok t P' ->
  exists ss, t = Node NODE_BLOCK "" (map Some ss) /\ Forall stmt_tree ss.
Proof.
  unfold parseBlock. intros H.
  apply bind_Ok in H. destruct H as (u1 & P1 & _ & H).
  apply bind_Ok in H. destruct H as (n & P2 & _ & H).
  apply bind_Ok in H. destruct H as (r & P3 & Hr & H).
  apply bind_Ok in H. destruct H as (u2 & P4 & _ & H).
  injection H as <- _.
  apply (stmtList_trees n NODE_BLOCK "" [] _ _ _ (Forall_nil _) Hr).
Qed.

Lemma parseForStmt_tree P t P' : parseForStmt ps P = Ok t P' -> stmt_tree t.
Proof.
  unfold parseForStmt. intros H.
  apply bind_Ok in H. destruct H as (u1 & P1 & _ & H).
  apply bind_Ok in H. destruct H as (u2 & P2 & _ & H).
  apply bind_Ok in H. destruct H as (semi1 & P3 & _ & H).
  apply bind_Ok in H. destruct H as (f1 & P4 & Hf1 & H).
  assert (Ei : exists i, f1 = Node NODE_FOR "" [i] /\ for_init i).
  { destruct semi1; cbn [negb] in Hf1.
    - apply bind_Ok in Hf1. destruct Hf1 as (u & P5 & _ & Hf1).
      injection Hf1 as <- _. now exists None.
    - apply bind_Ok in Hf1. destruct Hf1 as ([] & P5 & _ & Hf1).
      + apply bind_Ok in Hf1. destruct Hf1 as (dn & P6 & Hd & Hf1).
        injection Hf1 as <- _. exists (Some dn). split; [reflexivity|].
        left. eapply parseDecl_tree; eassumption.
      + apply bind_Ok in Hf1. destruct Hf1 as (an & P6 & Ha & Hf1).
        apply bind_Ok in Hf1. destruct Hf1 as (u & P7 & _ & Hf1).
        injection Hf1 as <- _. exists (Some an). split; [reflexivity|].
        right. eapply parseAssignStmt_tree; eassumption. }
  destruct Ei as (i & -> & Hi).
  apply bind_Ok in H. destruct H as (semi2 & P5 & _ & H).
  apply bind_Ok in H. destruct H as (f2 & P6 & Hf2 & H).
  assert (Ec : exists c, f2 = Node NODE_FOR "" [i; c] /\ for_cond c).
  { destruct semi2; cbn [negb] in Hf2.
    - injection Hf2 as <- _. now exists None.
    - apply bind_Ok in Hf2. destruct Hf2 as (cn & P7 & Hc & Hf2).
      injection Hf2 as <- _. exists (Some cn). split; [reflexivity|].
      eapply parseBoolExpr_node; eassumption. }
  destruct Ec as (c & -> & Hc).
  apply bind_Ok in H. destruct H as (u3 & P7 & _ & H).
  apply bind_Ok in H. destruct H as (close & P8 & _ & H).
  apply bind_Ok in H. destruct H as (f3 & P9 & Hf3 & H).
  apply bind_Ok in H. destruct H as (u4 & P10 & Hclose & H).
  apply consume_tv_Ok in Hclose.
  assert (Eu : exists u, f3 = Node NODE_FOR "" [i; c; u] /\ for_update u).
  { destruct close; cbn [negb] in Hf3.
    - injection Hf3 as <- _. now exists None.
    - apply bind_Ok in Hf3. destruct Hf3 as (un & P11 & Hu & Hf3).
      injection Hf3 as <- <-. exists (Some un). split; [reflexivity|].
      destruct (parseAssignStmt_update _ _ _ Hu) as [Hok | Hno];
        [exact Hok | congruence]. }
  destruct Eu as (u & -> & Hu).
  apply bind_Ok in H. destruct H as (brace & P11 & _ & H).
  apply bind_Ok in H. destruct H as (body & P12 & Hb & H).
  injection H as <- _. cbn [push_back app].
  destruct brace.
  - apply parseBlock_trees in Hb. destruct Hb as (ss & -> & Hss).
    now apply stmt_for.
  - apply bind_Ok in Hb. destruct Hb as (st & P13 & Hst & Hb).
    injection Hb as <- _.
    apply (stmt_for i c u [st]); try assumption.
    constructor; [|constructor]. eapply ps_tree; eassumption.
Qed.

Lemma parseStmt_body_tree P t P' :
  parseStmt_body ps P = Ok t P' -> stmt_tree t.
Proof.
  unfold parseStmt_body.
  destruct (check_tv P TOKEN_SEP "{").
  { intros H. apply parseBlock_trees in H. destruct H as (ss & -> & Hss).
    now apply stmt_block. }
  destruct (check_tv P TOKEN_KEYWORD "if").
  { intros H. destruct (runs_result _ _ _ _ _ (parseIfStmt_fatal ps P) H). }
  destruct (check_tv P TOKEN_KEYWORD "while").
  { intros H. destruct (runs_result _ _ _ _ _ (parseWhileStmt_fatal ps P) H). }
  destruct (check_tv P TOKEN_KEYWORD "for"); [apply parseForStmt_tree|].
  destruct (check_tv P TOKEN_KEYWORD "read"); [apply parseReadStmt_tree|].
  destruct (check_tv P TOKEN_KEYWORD "write"); [apply parseWriteStmt_tree|].
  destruct (check_t P TOKEN_ID).
  { intros H. apply stmt_assign. eapply parseAssignStmt_tree; eassumption. }
  intros H. apply bind_Ok in H. destruct H as ([] & P1 & _ & H).
  - injection H as <- _. apply stmt_empty.
  - apply bind_Ok in H. destruct H as (v & P2 & _ & H). discriminate.
Qed.
End NestedTrees.

Lemma parseStmt_tree d :
  forall P t P', parseStmt d P = Ok t P' -> stmt_tree t.
Proof.
  induction d as [|d IH]; intros P t P'; [discriminate|].
  cbn [parseStmt]. apply parseStmt_body_tree. exact IH.
Qed.

(** X18. The trees of accepted programs. When [parse] returns, the root is
    a Block node over a Declarations node and a Statements node, in this
    order. Every declaration is a list node over a type leaf [int], [float]
    or [bool] followed by identifier leaves and initialiser expressions;
    every statement is a block of statements, an Assignment node (one
    identifier child for [++] and [--], an identifier and an Expression
    node otherwise), a For node with exactly four children (initialiser,
    condition and update, each possibly null, and a Block node as body;
    the update, when there is one, is a [++] or [--] node), a Read or Write
    node over at least one identifier leaf, or the empty statement. No
    accepted program has an If, a While or a BooleanExpression node. *)
Theorem accepted_programs (P : Parser) (t : TreeNode) (P' : Parser) :
  parse P = Ok t P' -> program_tree t.
Proof.
  unfold parse. intros H.
  apply bind_Ok in H. destruct H as (decls & P1 & Hd & H).
  apply bind_Ok in H. destruct H as (stmts & P2 & Hs & H).
  injection H as <- _.
  apply parseDecls_trees in Hd. destruct Hd as (ds & -> & Hds).
  unfold parseStmts in Hs.
  apply bind_Ok in Hs. destruct Hs as (n & P3 & _ & Hs).
  apply (stmtList_trees _ (parseStmt_tree (S n)) n NODE_STMTS "" []
           _ _ _ (Forall_nil _)) in Hs.
  destruct Hs as (ss & -> & Hss).
  exists ds, ss. cbn [push_back app]. auto.
Qed.

Lemma accepted_programs_witness :
  program_tree
    (Node NODE_BLOCK ""
       [Some (Node NODE_DECLS ""
                [Some (Node NODE_LIST ""
                         [Some (Node NODE_TYPE "int" []);
                          Some (Node NODE_ID "a" [])])]);
        Some (Node NODE_STMTS ""
                [Some (Node NODE_READ "" [Some (Node NODE_ID "a" [])]);
                 Some (Node NODE_ASSIGN "++" [Some (Node NODE_ID "a" [])])])]).
Proof.
  apply (accepted_programs
           (Parser_new [KW "int"; ID "a"; SEP ";";
                        KW "read"; SEP "("; ID "a"; SEP ")"; SEP ";";
                        ID "a"; OP "++"; SEP ";"])
           _
           (mkParser [KW "int"; ID "a"; SEP ";";
                      KW "read"; SEP "("; ID "a"; SEP ")"; SEP ";";
                      ID "a"; OP "++"; SEP ";"] 11)).
  vm_compute. reflexivity.
Defined.


(** ** The clauses of a [for] *)

Lemma expr_unmatched pre x nx t rest :
  operand_node x = Some nx ->
  parseArithmeticExpr (at_ pre (x :: SEP ")" :: t :: rest))
  = Fatal "Unmatched parentheses" (value t).
Proof.
  intros Hx.
  rewrite parseArithmeticExpr_at by (eapply operand_not_semi; eassumption).
  unfold bind at 1. cbn [List.length].
  rewrite (expr_loop_operand _ _ _ _ _ _ _ Hx).
  rewrite expr_loop_close. unfold bind, error. cbn [reduce_to_paren ret snd].
  now rewrite peek_at.
Qed.

Lemma parseAssignStmt_at b pre v o post :
  String.eqb o "++" || String.eqb o "--" = false ->
  parseAssignStmt b (at_ pre (ID v :: OP o :: post))
  = bind parseArithmeticExpr
      (fun rhs => bind (assignEnd b)
         (fun _ => ret (Node NODE_ASSIGN o
                          [Some (Node NODE_ID v []); Some rhs])))
      (at_ ((pre ++ [ID v]) ++ [OP o]) post).
Proof.
  intros Ho.
  unfold parseAssignStmt, bind at 1 2 3, consume_t at 1, previous_value, gets.
  at_steps. rewrite peek_at. cbn [value OP]. rewrite Ho.
  unfold bind at 1, consume_t at 1. at_steps.
  unfold bind at 1 3.
  destruct (String.eqb o "="); [|reflexivity].
  unfold bind at 1. cbv beta.
  destruct (starts_bool _); rewrite ?parseBoolExpr_eq; reflexivity.
Qed.

(** X19. The update of a [for] cannot be an assignment with an expression.
    In [for ( ; ; v o x ) ...], [o] being any operator but [++] and [--],
    the expression engine reads on over the closing parenthesis of the
    [for], which it takes for an unmatched one: the run ends with
    "Unmatched parentheses" at the token after it. *)
Theorem for_update_expression (ps : M TreeNode) (pre : list Token)
    (v o : string) (x t : Token) (nx : TreeNode) (rest : list Token) :
  operand_node x = Some nx ->
  String.eqb o "++" || String.eqb o "--" = false ->
  parseForStmt ps
    (at_ pre (KW "for" :: SEP "(" :: SEP ";" :: SEP ";"
              :: ID v :: OP o :: x :: SEP ")" :: t :: rest))
  = Fatal "Unmatched parentheses" (value t).
Proof.
  intros Hx Ho.
  unfold parseForStmt, bind, consume_tv, gets, ret. at_steps.
  rewrite (parseAssignStmt_at true _ v o _ Ho). unfold bind.
  now rewrite (expr_unmatched _ x nx t rest Hx).
Qed.

Lemma for_update_expression_witness :
  parseForStmt (parseStmt 1)
    (at_ [] [KW "for"; SEP "("; SEP ";"; SEP ";";
             ID "i"; OP "="; NUM "1"; SEP ")"; SEP "{"; SEP "}"])
  = Fatal "Unmatched parentheses" "{".
Proof.
  exact (for_update_expression (parseStmt 1) [] "i" "=" (NUM "1") (SEP "{")
           _ [SEP "}"] eq_refl eq_refl).
Defined.

(** X20. An assignment as the initialiser of a [for] needs two semicolons.
    [parseAssignStmt] is called without its in-a-for flag and consumes the
    [;] of the assignment, and [parseForStmt] then asks for a [;] again: in
    [for ( v o x ; t ...] with a token [t] that is not a [;] the run ends
    with "Expected ';' after for initializer". *)
Theorem for_assignment_initialiser (ps : M TreeNode) (pre : list Token)
    (v o : string) (x t : Token) (nx : TreeNode) (rest : list Token) :
  operand_node x = Some nx ->
  String.eqb o "++" || String.eqb o "--" = false ->
  TokenType_eqb (type t) TOKEN_SEP && String.eqb (value t) ";" = false ->
  parseForStmt ps
    (at_ pre (KW "for" :: SEP "(" :: ID v :: OP o :: x :: SEP ";"
              :: t :: rest))
  = Fatal ("Expected ';' after for initializer (Actual: " ++ value t ++ ")")
      (value t).
Proof.
  intros Hx Ho Ht.
  unfold parseForStmt, bind at 1 2 3, consume_tv at 1 2, gets at 1.
  at_steps.
  unfold bind at 1 2 3, gets at 1. unfold is_type_keyword. at_steps.
  unfold bind at 1.
  rewrite (parseAssignStmt_at false _ v o _ Ho). unfold bind at 1.
  rewrite (single_operand _ x (SEP ";") (t :: rest) nx Hx eq_refl).
  unfold bind at 1, assignEnd, consume_tv at 1. at_steps.
  unfold bind at 1, consume_tv at 1, error.
  rewrite check_tv_at, Ht, andb_false_r, peek_at. reflexivity.
Qed.

Lemma for_assignment_initialiser_witness :
  parseForStmt (parseStmt 1)
    (at_ [] [KW "for"; SEP "("; ID "i"; OP "="; NUM "0"; SEP ";";
             ID "i"; OP "<"; NUM "9"; SEP ";"; ID "i"; OP "++"; SEP ")";
             SEP "{"; SEP "}"])
  = Fatal "Expected ';' after for initializer (Actual: i)" "i".
Proof.
  exact (for_assignment_initialiser (parseStmt 1) [] "i" "=" (NUM "0")
           (ID "i") _ _ eq_refl eq_refl eq_refl).
Defined.


(** ** Unary operators *)

Lemma unary_not_minus o ns os : is_unary o = true -> relabel o ns os = o.
Proof.
  intros H. unfold relabel.
  destruct (String.eqb_spec o "-") as [->|]; [discriminate | reflexivity].
Qed.

Lemma unary_not_paren o : is_unary o = true -> String.eqb o "(" = false.
Proof.
  intros H. destruct (String.eqb_spec o "(") as [->|];
    [discriminate | reflexivity].
Qed.

(** X21. The expression engine does not tell a prefix operator from a
    postfix one. For [!], [++] and [--], the operator before its operand
    and the operator after it give the same tree, an operator node over the
    operand. *)
Theorem unary_operator_position (pre : list Token) (o : string) (x t : Token)
    (nx : TreeNode) (rest : list Token) :
  is_unary o = true -> operand_node x = Some nx -> terminator t = true ->
  parseArithmeticExpr (at_ pre (OP o :: x :: t :: rest))
  = Ok (Node NODE_EXPR "" [Some (Node NODE_OP o [Some nx])])
       (at_ (pre ++ [OP o; x]) (t :: rest))
  /\ parseArithmeticExpr (at_ pre (x :: OP o :: t :: rest))
     = Ok (Node NODE_EXPR "" [Some (Node NODE_OP o [Some nx])])
          (at_ (pre ++ [x; OP o]) (t :: rest)).
Proof.
  intros Hu Hx Ht. pose proof (unary_not_paren o Hu) as Hp. split.
  - rewrite parseArithmeticExpr_at by (now rewrite check_tv_at).
    unfold bind at 1. cbn [List.length].
    rewrite expr_loop_operator, (unary_not_minus o _ _ Hu).
    unfold bind at 1. cbn [reduce_prec ret fst snd].
    rewrite (expr_loop_operand _ _ _ _ _ _ _ Hx).
    rewrite expr_loop_stop by exact Ht.
    unfold bind. cbn [fst snd drain]. rewrite Hp.
    unfold processOp. rewrite Hu. cbn [ret finish].
    now rewrite <- !app_assoc.
  - rewrite parseArithmeticExpr_at by (eapply operand_not_semi; eassumption).
    unfold bind at 1. cbn [List.length].
    rewrite (expr_loop_operand _ _ _ _ _ _ _ Hx).
    rewrite expr_loop_operator, (unary_not_minus o _ _ Hu).
    unfold bind at 1. cbn [reduce_prec ret fst snd].
    rewrite expr_loop_stop by exact Ht.
    unfold bind. cbn [fst snd drain]. rewrite Hp.
    unfold processOp. rewrite Hu. cbn [ret finish].
    now rewrite <- !app_assoc.
Qed.

Lemma unary_operator_position_witness :
  parseArithmeticExpr (at_ [] [OP "++"; ID "i"; SEP ";"])
  = Ok (Node NODE_EXPR "" [Some (Node NODE_OP "++" [Some (Node NODE_ID "i" [])])])
       (at_ [OP "++"; ID "i"] [SEP ";"])
  /\ parseArithmeticExpr (at_ [] [ID "i"; OP "++"; SEP ";"])
     = Ok (Node NODE_EXPR ""
             [Some (Node NODE_OP "++" [Some (Node NODE_ID "i" [])])])
          (at_ [ID "i"; OP "++"] [SEP ";"]).
Proof.
  exact (unary_operator_position [] "++" (ID "i") (SEP ";") _ []
           eq_refl eq_refl eq_refl).
Defined.

(** ** The printed tree *)

(** X22. Null children are not printed. The lines written for a node are
    those written for the node without its null children, so the printed
    tree of a [for] does not tell which clauses are empty: a For node with
    one clause writes the same lines whether the clause is its initialiser,
    its condition or its update. *)
Theorem null_children_are_not_printed (depth : nat) (t : NodeType)
    (v : string) (cs : list (option TreeNode)) :
  printTree depth (Node t v cs)
  = printTree depth
      (Node t v (filter (fun child => match child with
                                      | Some _ => true
                                      | None => false
                                      end) cs))
  /\ forall clause body,
       printTree depth (Node NODE_FOR "" [Some clause; None; None; Some body])
       = printTree depth (Node NODE_FOR "" [None; Some clause; None; Some body])
       /\ printTree depth
            (Node NODE_FOR "" [None; Some clause; None; Some body])
          = printTree depth
              (Node NODE_FOR "" [None; None; Some clause; Some body]).
Proof.
  split; [|split; reflexivity].
  cbn [printTree]. f_equal.
  induction cs as [|[n|] cs IH]; [reflexivity| |].
  - cbn [filter flat_map]. now rewrite IH.
  - cbn [filter flat_map app]. exact IH.
Qed.

Lemma prefix_append (a b : string) : String.prefix a (a ++ b) = true.
Proof.
  induction a as [|x a IH]; cbn; [now destruct b|].
  destruct (ascii_dec x x); [exact IH | contradiction].
Qed.

Lemma prefix_shorter (a b : string) :
  forall l, String.prefix (a ++ b) l = true -> String.prefix a l = true.
Proof.
  induction a as [|x a IH]; intros l; [now destruct l|].
  destruct l as [|y l]; cbn; [discriminate|].
  destruct (ascii_dec x y); [apply IH | discriminate].
Qed.

Lemma indent_snoc depth : indent (S depth) = indent depth ++ "  ".
Proof.
  induction depth as [|d IH]; [reflexivity|].
  change (indent (S (S d))) with ("  " ++ indent (S d)).
  rewrite IH at 1. reflexivity.
Qed.

(** One string per node, each starting with the indentation of [depth]. *)
Lemma printTree_strings (node : TreeNode) :
  forall depth,
    List.length (printTree depth node) = nodes node
    /\ Forall (fun l => String.prefix (indent depth) l = true)
         (printTree depth node).
Proof.
  induction node as [t v cs IH] using TreeNode_induction. intros depth.
  cbn [printTree nodes List.length]. split.
  - f_equal. induction IH as [|child cs Hc _ IHcs]; [reflexivity|].
    cbn [flat_map map list_sum]. rewrite length_app, IHcs.
    destruct child as [n|]; [|reflexivity].
    now rewrite (proj1 (Hc (S depth))).
  - constructor; [apply prefix_append|].
    induction IH as [|child cs Hc _ IHcs]; [constructor|].
    cbn [flat_map]. apply Forall_app. split; [|exact IHcs].
    destruct child as [n|]; [|constructor].
    eapply Forall_impl; [|apply (proj2 (Hc (S depth)))].
    intros l. rewrite indent_snoc. apply prefix_shorter.
Qed.

End ParseFacts.

(** * Properties of the token file *)

Module TokenFileFacts.
Import Parse TokenFile.

(** ** Strings *)

Lemma append_assoc (a b c : string) : (a ++ b) ++ c = a ++ (b ++ c).
Proof. induction a as [|x a IH]; simpl; [reflexivity | now rewrite IH]. Qed.

Lemma length_append (a b : string) :
  String.length (a ++ b) = String.length a + String.length b.
Proof. induction a as [|x a IH]; simpl; [reflexivity | now rewrite IH]. Qed.

Lemma substring_prefix (a b : string) :
  substring 0 (String.length a) (a ++ b) = a.
Proof.
  induction a as [|x a IH]; simpl.
  - now destruct b.
  - now rewrite IH.
Qed.

Lemma find_char_last c (a b : string) : find_char c (a ++ String c b) <> None.
Proof.
  induction a as [|x a IH]; simpl.
  - now rewrite Ascii.eqb_refl.
  - destruct (Ascii.eqb x c); [discriminate|].
    destruct (find_char c (a ++ String c b)); [discriminate | contradiction].
Qed.

Lemma rfind_char_last c (a : string) :
  rfind_char c (a ++ String c "") = Some (String.length a).
Proof.
  induction a as [|x a IH]; simpl.
  - now rewrite Ascii.eqb_refl.
  - now rewrite IH.
Qed.

Lemma remove_spaces_append (a b : string) :
  remove_spaces (a ++ b) = remove_spaces a ++ remove_spaces b.
Proof.
  induction a as [|x a IH]; simpl; [reflexivity|].
  destruct (Lex.isspace x); simpl; now rewrite IH.
Qed.

Lemma remove_spaces_no_space (v : string) :
  no_space v = true -> remove_spaces v = v.
Proof.
  unfold no_space. induction v as [|x v IH]; simpl; [reflexivity|].
  destruct (Lex.isspace x); simpl; [discriminate|].
  intros H. now rewrite IH.
Qed.

Lemma no_space_remove_spaces (v : string) : no_space (remove_spaces v) = true.
Proof.
  unfold no_space. induction v as [|x v IH]; simpl; [reflexivity|].
  destruct (Lex.isspace x) eqn:E; simpl; [exact IH|]. now rewrite E.
Qed.

Lemma remove_spaces_twice (v : string) :
  remove_spaces (remove_spaces v) = remove_spaces v.
Proof. apply remove_spaces_no_space, no_space_remove_spaces. Qed.

Lemma no_space_append (a b : string) :
  no_space a = true -> no_space b = true -> no_space (a ++ b) = true.
Proof.
  unfold no_space. induction a as [|x a IH]; simpl; [auto|].
  destruct (negb (Lex.isspace x)); simpl; [auto | discriminate].
Qed.

Lemma one_line_append (a b : string) :
  one_line (a ++ b) = one_line a && one_line b.
Proof.
  unfold one_line. induction a as [|x a IH]; simpl; [reflexivity|].
  now rewrite IH, andb_assoc.
Qed.

Lemma no_space_one_line (v : string) : no_space v = true -> one_line v = true.
Proof.
  unfold no_space, one_line. induction v as [|x v IH]; simpl; [reflexivity|].
  intros H. apply andb_true_iff in H. destruct H as [Hx Hv].
  rewrite (IH Hv), andb_true_r.
  destruct (Ascii.eqb_spec x Lex.NL) as [->|]; [discriminate | reflexivity].
Qed.

(** The decimal digits of a number hold no white space. *)
Lemma no_space_uint (d : Decimal.uint) :
  no_space (DecimalString.NilEmpty.string_of_uint d) = true.
Proof. induction d; simpl; try reflexivity; exact IHd. Qed.

Lemma no_space_to_string (z : Z) : no_space (to_string z) = true.
Proof.
  unfold to_string, NilZero.string_of_int, NilZero.string_of_uint.
  destruct (Z.to_int z) as [d|d]; destruct d; try reflexivity;
    apply (no_space_uint (_ _)) || (cbn; apply (no_space_uint _)).
Qed.

(** ** The texts of the tokens of the scanner hold no newline *)

Module Scanned.
Import Lex.

Lemma one_line_snoc v c :
  one_line (v ++ string1 c) = one_line v && negb (Ascii.eqb c NL).
Proof.
  rewrite one_line_append. unfold one_line at 2. cbn. now rewrite andb_true_r.
Qed.

Lemma advance_pair L : advance L = (peek L, snd (advance L)).
Proof.
  rewrite <- (LexFacts.advance_char L). now destruct (advance L).
Qed.

Lemma consume_while_one_line cond n :
  cond NL = false ->
  forall L v, one_line v = true ->
              one_line (fst (consume_while n cond L v)) = true.
Proof.
  intros Hc. induction n as [|n IH]; intros L v Hv; cbn [consume_while];
    destruct (cond (peek L)) eqn:E; cbn [fst]; try exact Hv.
  rewrite advance_pair. apply IH. rewrite one_line_snoc, Hv.
  destruct (Ascii.eqb_spec (peek L) NL) as [En|]; [|reflexivity].
  rewrite En in E. congruence.
Qed.

Lemma makeError_one_line L msg :
  one_line msg = true -> one_line (value (makeError L msg)) = true.
Proof.
  intros H. unfold makeError. cbn [value].
  rewrite !one_line_append, H.
  now rewrite !(no_space_one_line _ (no_space_to_string _)).
Qed.

Lemma recognizeIdOrKeyword_one_line L :
  one_line (value (fst (recognizeIdOrKeyword L))) = true.
Proof.
  unfold recognizeIdOrKeyword. destruct (isdigit (peek L)).
  - pose proof (consume_while_one_line is_digit_or_alpha (chars_left L)
                  eq_refl L "" eq_refl) as H.
    destruct (consume_while _ _ _ _) as [v L1]. cbn [fst] in *.
    apply makeError_one_line. now rewrite one_line_append, H.
  - pose proof (consume_while_one_line is_id_char (chars_left L)
                  eq_refl L "" eq_refl) as H.
    destruct (consume_while _ _ _ _) as [v L1]. cbn [fst] in *.
    now destruct (count keywords v).
Qed.

Lemma recognizeNumber_one_line L :
  one_line (value (fst (recognizeNumber L))) = true.
Proof.
  unfold recognizeNumber.
  pose proof (consume_while_one_line isdigit (chars_left L)
                eq_refl L "" eq_refl) as H1.
  destruct (consume_while (chars_left L) isdigit L "") as [v1 L1].
  cbn [fst] in H1.
  assert (Hend : forall v (e d : bool) L2,
             one_line v = true ->
             one_line
               (value
                  (fst
                     (let '(value, isError, L3) :=
                        if is_alpha_or_underscore (peek L2)
                        then
                          let (v0, Le) :=
                            consume_while (chars_left L2) is_id_char L2 v in
                          (v0, true, Le)
                        else (v, e, L2) in
                      if isError
                      then (makeError L3 ("非法数字格式: " ++ value), L3)
                      else (makeToken L3
                              (if d then TOKEN_FLOAT else TOKEN_NUM) value,
                            L3)))) = true).
  { intros v e d L2 Hv.
    pose proof (consume_while_one_line is_id_char (chars_left L2)
                  eq_refl L2 v Hv) as H.
    destruct (is_alpha_or_underscore (peek L2)).
    - destruct (consume_while _ _ _ _) as [v0 Le]. cbn [fst] in H.
      apply makeError_one_line. now rewrite one_line_append, H.
    - destruct e; [|exact Hv].
      apply makeError_one_line. now rewrite one_line_append, Hv. }
  destruct (Ascii.eqb_spec (peek L1) ".") as [Edot|_];
    [|exact (Hend v1 false false L1 H1)].
  rewrite advance_pair.
  assert (Hv : one_line (v1 ++ string1 (peek L1)) = true).
  { rewrite one_line_snoc, H1, Edot. reflexivity. }
  set (La := snd (advance L1)) in *.
  destruct (negb (isdigit (peek La))).
  - destruct (Ascii.eqb_spec (peek La) ".") as [Edot2|_];
      [|exact (Hend _ true true La Hv)].
    rewrite advance_pair.
    pose proof (consume_while_one_line isdigit
                  (chars_left (snd (advance La))) eq_refl (snd (advance La))
                  ((v1 ++ string1 (peek L1)) ++ string1 (peek La))) as H2.
    destruct (consume_while _ _ _ _) as [v2 Ld]. cbn [fst] in H2.
    apply (Hend v2 true true Ld), H2.
    rewrite one_line_snoc, Hv, Edot2. reflexivity.
  - pose proof (consume_while_one_line isdigit (chars_left La) eq_refl La
                  _ Hv) as Hb.
    destruct (consume_while (chars_left La) isdigit La _) as [vb Lb].
    cbn [fst] in Hb.
    destruct (Ascii.eqb_spec (peek Lb) ".") as [Edot2|_];
      [|exact (Hend vb false true Lb Hb)].
    rewrite advance_pair.
    pose proof (consume_while_one_line isdigit
                  (chars_left (snd (advance Lb))) eq_refl (snd (advance Lb))
                  (vb ++ string1 (peek Lb))) as H2.
    destruct (consume_while _ _ _ _) as [v2 Ld]. cbn [fst] in H2.
    apply (Hend v2 true true Ld), H2.
    rewrite one_line_snoc, Hb, Edot2. reflexivity.
Qed.

Lemma recognizeOpOrSep_one_line L :
  Ascii.eqb (peek L) NL = false ->
  one_line (value (fst (recognizeOpOrSep L))) = true.
Proof.
  intros Hc. unfold recognizeOpOrSep. rewrite advance_pair.
  assert (H1 : one_line (string1 (peek L)) = true)
    by (unfold one_line; cbn; now rewrite Hc).
  set (L1 := snd (advance L)).
  destruct (count operators (string1 (peek L) ++ string1 (peek L1))
            || count bit_operators (string1 (peek L) ++ string1 (peek L1)))
    eqn:E2.
  - rewrite advance_pair. cbn [fst makeToken value].
    rewrite one_line_snoc, H1.
    destruct (Ascii.eqb_spec (peek L1) NL) as [En|]; [|reflexivity].
    now destruct (proj2 (LexFacts.two_char_second _ _ E2)).
  - clear E2.
    destruct (count operators (string1 (peek L))); [exact H1|].
    destruct (count bit_operators (string1 (peek L))); [exact H1|].
    destruct (count separators (string1 (peek L))); [exact H1|].
    apply makeError_one_line. now rewrite one_line_append, H1.
Qed.

Lemma getNextToken_one_line L :
  one_line (value (fst (getNextToken L))) = true.
Proof.
  unfold getNextToken.
  assert (Hb : starts_blank (skipWhitespace L) = false)
    by (apply LexFacts.skipWhitespace_loop_done; lia).
  set (L0 := skipWhitespace L) in *.
  assert (Hc : Ascii.eqb (peek L0) NL = false).
  { unfold starts_blank in Hb. apply orb_false_iff in Hb.
    destruct Hb as [_ Hs].
    destruct (Ascii.eqb_spec (peek L0) NL) as [E|]; [|reflexivity].
    rewrite E in Hs. discriminate. }
  destruct (isalpha (peek L0) || Ascii.eqb (peek L0) "_");
    [apply recognizeIdOrKeyword_one_line|].
  destruct (isdigit (peek L0)); [apply recognizeNumber_one_line|].
  destruct (count operators _ || count separators _);
    [now apply recognizeOpOrSep_one_line|].
  destruct (Ascii.eqb (peek L0) NUL); [reflexivity|].
  rewrite advance_pair. cbn [fst bare_error value].
  rewrite one_line_append. unfold one_line at 2. cbn [string_forall string1].
  now rewrite Hc.
Qed.

Lemma scan_loop_one_line n :
  forall L, Forall (fun t => one_line (value t) = true) (scan_loop n L).
Proof.
  induction n as [|n IH]; intros L; cbn [scan_loop]; [constructor|].
  pose proof (getNextToken_one_line L) as H.
  destruct (getNextToken L) as [t L']. cbn [fst] in H.
  destruct (is_end t); constructor; [exact H | apply IH].
Qed.

Lemma scan_one_line src :
  Forall (fun t => one_line (value t) = true) (scan src).
Proof. apply scan_loop_one_line. Qed.

End Scanned.

(** ** One line *)

(** A line [(d, X)] with a one-character type [d]: the text read is [X]
    without its white space, whatever [X] holds. *)
Lemma readLine_shape (d : ascii) (X : string) :
  Ascii.eqb d "," = false ->
  readLine (String "(" (String d (String "," (String " " (X ++ ")")))))
  = Some (mkToken (type_of (String d "")) (remove_spaces X)).
Proof.
  intros Hd.
  set (line := String "(" (String d (String "," (String " " (X ++ ")"))))).
  assert (Hline : line = (String "(" (String d (String "," (String " " X))))
                         ++ String ")" "") by reflexivity.
  assert (E1 : String.eqb line "" = false) by reflexivity.
  assert (E2 : find_char "(" line = Some 0) by reflexivity.
  assert (E3 : find_char "," line = Some 2).
  { unfold line. cbn [find_char Ascii.eqb Bool.eqb]. now rewrite Hd. }
  assert (E4 : exists k, find_char ")" line = Some k).
  { destruct (find_char ")" line) as [k|] eqn:Ek; [now exists k|].
    exfalso. revert Ek. rewrite Hline. apply find_char_last. }
  assert (E5 : rfind_char ")" line = Some (S (S (S (S (String.length X)))))).
  { rewrite Hline. apply rfind_char_last. }
  assert (E6 : substr line 1 (size_sub 2 1) = String d "").
  { unfold line. cbn. now destruct X. }
  assert (E7 : substr line 3 (size_sub (S (S (S (S (String.length X))))) 3)
               = String " " X).
  { unfold line. cbn [Nat.add size_sub Nat.leb Nat.sub substr substring].
    now rewrite substring_prefix. }
  unfold readLine. destruct E4 as [k E4].
  rewrite E1, E2, E3, E4, E5. cbn [Nat.add]. rewrite E6, E7.
  cbn [remove_spaces]. replace (Lex.isspace " ") with true by reflexivity.
  now rewrite remove_spaces_twice.
Qed.

Lemma draft_line_shape (t : Token) :
  exists d, Ascii.eqb d "," = false /\ Ascii.eqb d Lex.NL = false
            /\ type_of (String d "") = type t
            /\ draft_line t
               = String "(" (String d (String "," (String " " (value t ++ ")")))).
Proof.
  destruct t as [ty v]. unfold draft_line. cbn [type value].
  destruct ty;
    [exists "0"%char | exists "1"%char | exists "2"%char | exists "3"%char
    | exists "4"%char | exists "5"%char | exists "6"%char | exists "7"%char];
    repeat split.
Qed.

Lemma scanner_line_shape (t : Lex.Token) :
  exists d, Ascii.eqb d "," = false /\ Ascii.eqb d Lex.NL = false
            /\ type_of (String d "") = read_type (Lex.type t)
            /\ scanner_line t
               = String "(" (String d (String "," (String " "
                   (String QUOTE (Lex.value t ++ String QUOTE
                      (", " ++ to_string (Lex.line t) ++ ", "
                            ++ to_string (Lex.column t))) ++ ")")))).
Proof.
  destruct t as [ty v l c]. unfold scanner_line.
  cbn [Lex.type Lex.value Lex.line Lex.column].
  assert (E : forall w : string,
             String QUOTE (v ++ String QUOTE (", " ++ to_string l ++ ", "
                                                   ++ to_string c ++ w))
             = String QUOTE (v ++ String QUOTE (", " ++ to_string l ++ ", "
                                                   ++ to_string c)) ++ w).
  { intros w. cbn [String.append]. rewrite ?append_assoc.
    cbn [String.append]. now rewrite ?append_assoc. }
  rewrite E.
  destruct ty;
    [exists "0"%char | exists "1"%char | exists "2"%char | exists "3"%char
    | exists "4"%char | exists "5"%char | exists "6"%char | exists "7"%char
    | exists "8"%char];
    repeat split.
Qed.

Lemma readLine_draft (t : Token) :
  readLine (draft_line t) = Some (mkToken (type t) (remove_spaces (value t))).
Proof.
  destruct (draft_line_shape t) as (d & Hd & _ & Ht & ->).
  now rewrite (readLine_shape d _ Hd), Ht.
Qed.

Lemma readLine_scanner (t : Lex.Token) :
  readLine (scanner_line t) = Some (as_read t).
Proof.
  destruct (scanner_line_shape t) as (d & Hd & _ & Ht & ->).
  rewrite (readLine_shape d _ Hd), Ht. unfold as_read. do 2 f_equal.
  cbn [remove_spaces]. replace (Lex.isspace QUOTE) with false by reflexivity.
  f_equal. rewrite remove_spaces_append. f_equal.
  cbn [remove_spaces]. replace (Lex.isspace QUOTE) with false by reflexivity.
  f_equal. cbn [String.append remove_spaces].
  replace (Lex.isspace ",") with false by reflexivity.
  replace (Lex.isspace " ") with true by reflexivity.
  f_equal. rewrite remove_spaces_append.
  rewrite (remove_spaces_no_space _ (no_space_to_string _)). f_equal.
  cbn [String.append remove_spaces].
  replace (Lex.isspace ",") with false by reflexivity.
  replace (Lex.isspace " ") with true by reflexivity.
  f_equal. apply remove_spaces_no_space, no_space_to_string.
Qed.

(** ** The lines of a file *)

Lemma getlines_line (l rest : string) :
  one_line l = true ->
  getlines (l ++ String Lex.NL rest) = l :: getlines rest.
Proof.
  unfold one_line. induction l as [|c l IH]; intros H.
  - reflexivity.
  - cbn [Lex.string_forall] in H. apply andb_true_iff in H.
    destruct H as [Hc Hl]. cbn [String.append getlines].
    apply negb_true_iff in Hc. rewrite Hc, (IH Hl). reflexivity.
Qed.

Lemma readTokens_lines {A} (line : A -> string) (read : A -> Token)
    (ts : list A) :
  (forall t, readLine (line t) = Some (read t)) ->
  Forall (fun t => one_line (line t) = true) ts ->
  readTokens (write_lines (map line ts)) = map read ts.
Proof.
  intros Hread Hts. unfold readTokens.
  induction Hts as [|t ts Ht Hts IH]; [reflexivity|].
  cbn [map write_lines]. rewrite (getlines_line _ _ Ht).
  cbn [flat_map]. rewrite Hread, IH. reflexivity.
Qed.

Lemma one_line_shape (d : ascii) (X : string) :
  Ascii.eqb d Lex.NL = false -> one_line X = true ->
  one_line (String "(" (String d (String "," (String " " (X ++ ")")))))
  = true.
Proof.
  intros Hd HX. unfold one_line in *. cbn [Lex.string_forall].
  rewrite Hd. cbn.
  change (Lex.string_forall
            (fun c => negb (Ascii.eqb c Lex.NL)) (X ++ ")"))
    with (one_line (X ++ ")")).
  rewrite one_line_append. unfold one_line at 1. now rewrite HX.
Qed.

Lemma one_line_draft (t : Token) :
  one_line (value t) = true -> one_line (draft_line t) = true.
Proof.
  intros H. destruct (draft_line_shape t) as (d & _ & Hd & _ & ->).
  now apply one_line_shape.
Qed.

Lemma one_line_scanner (t : Lex.Token) :
  one_line (Lex.value t) = true -> one_line (scanner_line t) = true.
Proof.
  intros H. destruct (scanner_line_shape t) as (d & _ & Hd & _ & ->).
  apply one_line_shape; [exact Hd|].
  change (String QUOTE (Lex.value t ++ String QUOTE
            (", " ++ to_string (Lex.line t) ++ ", "
                  ++ to_string (Lex.column t))))
    with (String QUOTE "" ++ (Lex.value t ++ (String QUOTE ", "
            ++ (to_string (Lex.line t) ++ (", "
                  ++ to_string (Lex.column t)))))).
  rewrite !one_line_append, H.
  rewrite !(no_space_one_line _ (no_space_to_string _)). reflexivity.
Qed.

(** ** The file of the scanner drafts *)

(** X24. The parser reads back the file of the scanner drafts without
    positions. For tokens whose texts hold no newline, [readTokens] gives,
    from the lines [(type, text)] those drafts write, the same tokens in the
    same order with the white space taken out of their texts; tokens whose
    texts hold no white space are read back unchanged. *)
Theorem draft_file_round_trip (ts : list Token) :
  Forall (fun t => one_line (value t) = true) ts ->
  readTokens (write_lines (map draft_line ts))
  = map (fun t => mkToken (type t) (remove_spaces (value t))) ts
  /\ (Forall (fun t => no_space (value t) = true) ts ->
      readTokens (write_lines (map draft_line ts)) = ts).
Proof.
  intros Hts.
  assert (E : readTokens (write_lines (map draft_line ts))
              = map (fun t => mkToken (type t) (remove_spaces (value t))) ts).
  { apply readTokens_lines; [apply readLine_draft|].
    eapply Forall_impl; [|exact Hts]. intros t. apply one_line_draft. }
  split; [exact E|]. intros Hns. rewrite E.
  clear E Hts. induction Hns as [|t ts Ht Hns IH]; [reflexivity|].
  cbn [map]. rewrite IH, (remove_spaces_no_space _ Ht). now destruct t.
Qed.

Lemma draft_file_round_trip_witness :
  readTokens (write_lines (map draft_line
                [ID "a"; OP "="; NUM "1"; SEP ";";
                 mkToken TOKEN_ERROR "Illegal characters: @"]))
  = [ID "a"; OP "="; NUM "1"; SEP ";";
     mkToken TOKEN_ERROR "Illegalcharacters:@"].
Proof.
  refine (proj1 (draft_file_round_trip
                   [ID "a"; OP "="; NUM "1"; SEP ";";
                    mkToken TOKEN_ERROR "Illegal characters: @"] _)).
  repeat constructor.
Defined.

(** ** The file of the scanner *)

Lemma readTokens_scanner (ts : list Lex.Token) :
  Forall (fun t => one_line (Lex.value t) = true) ts ->
  readTokens (write_lines (map scanner_line ts)) = map as_read ts.
Proof.
  intros Hts. apply readTokens_lines; [apply readLine_scanner|].
  eapply Forall_impl; [|exact Hts]. intros t. apply one_line_scanner.
Qed.


(** ** Tokens whose texts start with a double quote *)

Lemma peek_quoted P :
  Forall quoted (tokens P) -> peek P = end_token \/ quoted (peek P).
Proof.
  intros H. unfold peek, size.
  destruct (current P <? List.length (tokens P)) eqn:E; [|now left].
  right. apply Nat.ltb_lt in E.
  apply (proj1 (Forall_nth quoted (tokens P)) H _ _ E).
Qed.

Lemma quoted_check_tv P ty v :
  Forall quoted (tokens P) -> (forall s, v <> String QUOTE s) ->
  check_tv P ty v = false.
Proof.
  intros H Hv. unfold check_tv, isAtEnd.
  destruct (peek_quoted P H) as [-> | [s Hs]]; [reflexivity|].
  destruct (_ && _); [reflexivity|]. rewrite Hs.
  destruct (String.eqb_spec (String QUOTE s) v) as [E|E];
    [now destruct (Hv s) | apply andb_false_r].
Qed.

Lemma quoted_peek_value P v :
  Forall quoted (tokens P) -> v <> "" -> (forall s, v <> String QUOTE s) ->
  String.eqb (value (peek P)) v = false.
Proof.
  intros H Hne Hv.
  destruct (String.eqb_spec (value (peek P)) v) as [E|E]; [|reflexivity].
  destruct (peek_quoted P H) as [Hp | [s Hs]].
  - rewrite Hp in E. now destruct Hne.
  - rewrite Hs in E. now destruct (Hv s).
Qed.

Lemma runs_tokens {A} (m : M A) P (Q : A -> Parser -> Prop) a P' :
  runs m P Q -> m P = Ok a P' -> tokens P' = tokens P.
Proof. intros [_ H] E. now destruct (H a P' E) as [[Ht _] _]. Qed.

Lemma consume_t_tokens t msg P u P' :
  consume_t t msg P = Ok u P' -> tokens P' = tokens P.
Proof.
  unfold consume_t, advance. destruct (check_t P t); [|discriminate].
  intros H. injection H as _ <-. now destruct (negb (isAtEnd P)).
Qed.

Ltac literal := let s := fresh in let E := fresh in intros s E; discriminate E.

Lemma quoted_no_assignment P t P' :
  Forall quoted (tokens P) -> parseAssignStmt false P = Ok t P' -> False.
Proof.
  intros Hq. unfold parseAssignStmt. intros H.
  apply ParseFacts.bind_Ok in H. destruct H as (u & P1 & H1 & H).
  apply consume_t_tokens in H1.
  apply ParseFacts.bind_Ok in H. destruct H as (v & P2 & H2 & H).
  injection H2 as _ <-.
  apply ParseFacts.bind_Ok in H. destruct H as (op & P3 & H3 & H).
  injection H3 as <- <-.
  assert (Hq1 : Forall quoted (tokens P1)) by now rewrite H1.
  rewrite (quoted_peek_value P1 "++" Hq1) in H by (discriminate || literal).
  rewrite (quoted_peek_value P1 "--" Hq1) in H by (discriminate || literal).
  cbn [orb] in H.
  apply ParseFacts.bind_Ok in H. destruct H as (u1 & P4 & H4 & H).
  apply consume_t_tokens in H4.
  apply ParseFacts.bind_Ok in H. destruct H as (rhs & P5 & Hrhs & H).
  apply ParseFacts.bind_Ok in H. destruct H as (u2 & P6 & Hend & H).
  apply ParseFacts.consume_tv_Ok in Hend.
  assert (Hq5 : Forall quoted (tokens P5)).
  { assert (E : parseArithmeticExpr P4 = Ok rhs P5).
    { destruct (String.eqb (value (peek P1)) "="); [|exact Hrhs].
      apply ParseFacts.bind_Ok in Hrhs.
      destruct Hrhs as ([] & P7 & Hg & Hrhs); injection Hg as _ <-;
        rewrite ?ParseFacts.parseBoolExpr_eq in Hrhs; exact Hrhs. }
    rewrite (runs_tokens _ _ (fun _ _ => True) _ _
               (ParseFacts.runs_parseArithmeticExpr P4 _
                  (fun _ _ _ _ => I)) E).
    now rewrite H4, H1. }
  rewrite (quoted_check_tv P5 _ _ Hq5) in Hend by literal. discriminate.
Qed.

Lemma quoted_no_statement d P t P' :
  Forall quoted (tokens P) -> parseStmt d P = Ok t P' -> False.
Proof.
  intros Hq. destruct d as [|d]; [discriminate|].
  cbn [parseStmt]. unfold parseStmt_body.
  rewrite !(quoted_check_tv P _ _ Hq) by literal.
  destruct (check_t P TOKEN_ID); [now apply quoted_no_assignment|].
  unfold bind, match_tv. rewrite (quoted_check_tv P _ _ Hq) by literal.
  discriminate.
Qed.

Lemma quoted_rejected (ts : list Token) :
  ts <> [] -> Forall quoted ts ->
  exists msg tok, run ts = Abort msg tok.
Proof.
  intros Hne Hq. unfold run.
  destruct (parse (Parser_new ts)) as [root P'|msg tok|] eqn:E.
  - exfalso. unfold parse in E.
    apply ParseFacts.bind_Ok in E. destruct E as (decls & P1 & Hd & E).
    apply ParseFacts.bind_Ok in E. destruct E as (stmts & P2 & Hs & _).
    assert (E1 : P1 = Parser_new ts).
    { unfold parseDecls, bind, gets in Hd.
      assert (Hk : is_type_keyword (Parser_new ts) = false).
      { unfold is_type_keyword.
        now rewrite !(quoted_check_tv (Parser_new ts) _ _ Hq) by literal. }
      destruct (remaining (Parser_new ts)); cbn [decls_loop] in Hd;
        rewrite Hk, andb_false_r in Hd; now injection Hd as _ <-. }
    subst P1. destruct ts as [|t0 ts]; [now destruct Hne|].
    unfold parseStmts, bind, gets in Hs.
    change (Parser_new (t0 :: ts)) with (at_ [] (t0 :: ts)) in *.
    rewrite ParseFacts.remaining_at in Hs. cbn [List.length stmtList] in Hs.
    rewrite ParseFacts.isAtEnd_at in Hs.
    rewrite (quoted_check_tv (at_ [] (t0 :: ts)) _ _ Hq) in Hs by literal.
    assert (Hr : real t0 = true).
    { inversion Hq as [|? ? [s Hv] _]; subst. unfold real. rewrite Hv.
      cbn [String.eqb]. now rewrite andb_false_r. }
    rewrite Hr in Hs. cbn [negb andb] in Hs. unfold bind in Hs.
    destruct (parseStmt _ _) as [st P3| |] eqn:Est; try discriminate.
    apply (quoted_no_statement _ (at_ [] (t0 :: ts)) st P3 Hq Est).
  - now exists msg, tok.
  - exfalso. now apply (proj1 (ParseFacts.runs_parse (Parser_new ts))).
Qed.

Lemma as_read_quoted (t : Lex.Token) : quoted (as_read t).
Proof. unfold quoted, as_read. cbn [value]. eauto. Qed.

(** X25. The parser cannot read the file of the scanner. From the lines
    [(type, "text", line, column)] the scanner writes for a source text,
    [readTokens] makes one token per token of the scanner, in the same
    order, whose text is everything between the first comma and the last
    closing parenthesis of the line without its white space: the text of
    the token in double quotes, a comma, the line, a comma and the column.
    The bitwise operators are read as errors. *)
Theorem scanner_file_as_read (src : string) :
  readTokens (lex_out src) = map as_read (Lex.scan src).
Proof. apply readTokens_scanner, Scanned.scan_one_line. Qed.

(** X26. The parser rejects every file of the scanner that holds a token.
    No text read from such a file is a keyword, a separator or an operator
    the parser looks for, since it starts with a double quote: the
    declaration part is empty, and the first statement ends the run with
    a fatal error. *)
Theorem scanner_file_is_rejected (src : string) :
  Lex.scan src <> [] ->
  exists msg tok, run (readTokens (lex_out src)) = Abort msg tok.
Proof.
  intros Hne. unfold lex_out.
  rewrite (readTokens_scanner _ (Scanned.scan_one_line src)).
  apply quoted_rejected.
  - destruct (Lex.scan src); [now destruct Hne | discriminate].
  - apply Forall_forall. intros t Ht. apply in_map_iff in Ht.
    destruct Ht as (t' & <- & _). apply as_read_quoted.
Qed.

Lemma scanner_file_is_rejected_witness :
  exists msg tok, run (readTokens (lex_out "a = 1;")) = Abort msg tok.
Proof.
  refine (scanner_file_is_rejected "a = 1;" _).
  vm_compute. discriminate.
Defined.

(** ** The file of the printed tree *)

Lemma getlines_write_lines (ls : list string) :
  Forall (fun l => one_line l = true) ls -> getlines (write_lines ls) = ls.
Proof.
  induction 1 as [|l ls Hl _ IH]; [reflexivity|].
  cbn [write_lines]. now rewrite (getlines_line _ _ Hl), IH.
Qed.

Lemma one_line_indent depth : one_line (indent depth) = true.
Proof. induction depth as [|d IH]; [reflexivity|]. exact IH. Qed.

Lemma one_line_label t : one_line (nodeTypeToString t) = true.
Proof. now destruct t. Qed.

Lemma printTree_one_line (node : TreeNode) :
  plain_values node = true ->
  forall depth, Forall (fun l => one_line l = true) (printTree depth node).
Proof.
  induction node as [t v cs IH] using TreeNode_induction.
  intros Hp depth.
  change (one_line v
          && forallb (fun child => match child with
                                   | Some n => plain_values n
                                   | None => true
                                   end) cs = true) in Hp.
  apply andb_true_iff in Hp. destruct Hp as [Hv Hcs].
  cbn [printTree]. constructor.
  - rewrite !one_line_append, one_line_indent, one_line_label.
    destruct (String.eqb v ""); [reflexivity|].
    now rewrite one_line_append, Hv.
  - induction IH as [|child cs Hc _ IHcs]; [constructor|].
    cbn [forallb] in Hcs. apply andb_true_iff in Hcs.
    destruct Hcs as [Hchild Hrest].
    cbn [flat_map]. apply Forall_app. split; [|exact (IHcs Hrest)].
    destruct child as [n|]; [exact (Hc Hchild (S depth)) | constructor].
Qed.

(** X23. One line per node. For a tree none of whose values holds a
    newline, the lines of the file [printTree] writes are the strings
    written for the nodes: exactly one line for each node that is not a
    null child, each line of a node at depth [depth] or below starting with
    two blanks per level of [depth]. The labels of the node kinds are
    pairwise distinct, and none is the default "UNKNOWN". *)
Theorem printed_lines (node : TreeNode) (depth : nat) :
  plain_values node = true ->
  getlines (printed depth node) = printTree depth node
  /\ List.length (getlines (printed depth node)) = nodes node
  /\ Forall (fun l => String.prefix (indent depth) l = true)
       (getlines (printed depth node))
  /\ (forall t1 t2, nodeTypeToString t1 = nodeTypeToString t2 -> t1 = t2)
  /\ (forall t, nodeTypeToString t <> "UNKNOWN").
Proof.
  intros Hp.
  assert (E : getlines (printed depth node) = printTree depth node)
    by (apply getlines_write_lines, printTree_one_line, Hp).
  rewrite E.
  destruct (ParseFacts.printTree_strings node depth) as [Hn Hi].
  repeat split; try assumption.
  - intros t1 t2. destruct t1, t2; intros H; try reflexivity; discriminate H.
  - intros t. destruct t; discriminate.
Qed.

Lemma printed_lines_witness :
  getlines
    (printed 0
       (Node NODE_ASSIGN "="
          [Some (Node NODE_ID "a" []);
           Some (Node NODE_EXPR "" [Some (Node NODE_NUM "1" [])])]))
  = ["[ASSIGN] ="; "  [ID] a"; "  [EXPR]"; "    [NUM] 1"].
Proof.
  exact (proj1 (printed_lines
                  (Node NODE_ASSIGN "="
                     [Some (Node NODE_ID "a" []);
                      Some (Node NODE_EXPR "" [Some (Node NODE_NUM "1" [])])])
                  0 eq_refl)).
Defined.

End TokenFileFacts.
